(** * pychadwick: the [Chadwick] binding class of [pychadwick/pychadwick.py]

    A shallow embedding of the ctypes binding layer: Python values
    ([bytes], [str], exceptions), the process state the binding touches
    (shared objects and their globals, the calls made to the loader, the
    warning log), the methods of class [Chadwick] over a state-and-exception
    monad, the [games] generator as a resumable machine, and the in-place
    frame conversion [convert_data_frame_types]. *)

From Stdlib Require Import ZArith NArith.
From Stdlib.Strings Require Import Byte Ascii.
From stdpp Require Import gmap strings list fin_maps functions.

Local Open Scope N_scope.

(** ** Python values *)

(** [bytes]: a sequence of octets. *)
Abbreviation bytes := (list byte).

(** [str]: a sequence of Unicode code points. *)
Abbreviation str := (list N).

(** A [str] literal made of ASCII characters. *)
Definition pystr (s : string) : str :=
  map N_of_ascii (String.list_ascii_of_string s).

(** A [bytes] literal of ASCII characters. *)
Definition pybytes (s : string) : bytes :=
  String.list_byte_of_string s.

(** The exception classes that occur in the module. *)
Inductive exn : Type :=
| OSError
| ValueError
| IndexError
| TypeError
| UnicodeDecodeError
| GeneratorExit
| Exception (name : string).

(** The outcome of evaluating a Python expression. *)
Inductive result (A : Type) : Type :=
| Ok (a : A)
| Raise (e : exn).
Arguments Ok {A} a.
Arguments Raise {A} e.

(** *** [bytes.decode()]: UTF-8, errors="strict" *)

Definition is_cont (b : byte) : bool :=
  let c := Byte.to_N b in (0x80 <=? c) && (c <=? 0xBF).

Definition in_range (lo hi : N) (b : byte) : bool :=
  let c := Byte.to_N b in (lo <=? c) && (c <=? hi).

Definition low6 (b : byte) : N := N.land (Byte.to_N b) 0x3F.

(** The well-formed byte sequences of the Unicode standard (table 3-7):
    no overlong forms, no surrogates, nothing above U+10FFFF. The
    outcome [None] is Python's [UnicodeDecodeError]. *)
Fixpoint utf8_decode (bs : bytes) : option str :=
  match bs with
  | [] => Some []
  | b0 :: r0 =>
    let c0 := Byte.to_N b0 in
    if c0 <? 0x80 then cons c0 <$> utf8_decode r0
    else if in_range 0xC2 0xDF b0 then
      match r0 with
      | b1 :: r1 =>
        if is_cont b1
        then cons (N.shiftl (N.land c0 0x1F) 6 + low6 b1) <$> utf8_decode r1
        else None
      | _ => None
      end
    else if in_range 0xE0 0xEF b0 then
      match r0 with
      | b1 :: b2 :: r2 =>
        if in_range (if c0 =? 0xE0 then 0xA0 else 0x80)
                    (if c0 =? 0xED then 0x9F else 0xBF) b1 && is_cont b2
        then cons (N.shiftl (N.land c0 0x0F) 12 + N.shiftl (low6 b1) 6 + low6 b2)
               <$> utf8_decode r2
        else None
      | _ => None
      end
    else if in_range 0xF0 0xF4 b0 then
      match r0 with
      | b1 :: b2 :: b3 :: r3 =>
        if in_range (if c0 =? 0xF0 then 0x90 else 0x80)
                    (if c0 =? 0xF4 then 0x8F else 0xBF) b1
           && is_cont b2 && is_cont b3
        then cons (N.shiftl (N.land c0 0x07) 18 + N.shiftl (low6 b1) 12
                   + N.shiftl (low6 b2) 6 + low6 b3)
               <$> utf8_decode r3
        else None
      | _ => None
      end
    else None
  end.

Definition decode (b : bytes) : result str :=
  match utf8_decode b with
  | Some s => Ok s
  | None => Raise UnicodeDecodeError
  end.

(** *** [str.split(sep)] and [str.replace(old, "")] for one-character
    arguments *)

Definition comma : N := 44.
Definition dquote : N := 34.

(** [s.split(sep)]: the maximal runs between separators; never empty. *)
Fixpoint str_split (sep : N) (s : str) : list str :=
  match s with
  | [] => [[]]
  | c :: s' =>
    if c =? sep then [] :: str_split sep s'
    else match str_split sep s' with
         | f :: fs => (c :: f) :: fs
         | [] => [[c]]
         end
  end.

(** [s.replace(old, "")]: every occurrence of the character is dropped. *)
Definition str_remove (old : N) (s : str) : str :=
  filter (λ c, c ≠ old) s.

(** *** [dict(pairs)]: later pairs overwrite earlier ones *)

Definition dict {V : Type} (pairs : list (str * V)) : gmap str V :=
  foldl (λ d kv, <[kv.1 := kv.2]> d) ∅ pairs.

(** ** Record translation *)

(** [Chadwick.listicize_event_string] (a static method). *)
Definition listicize_event_string (event_bytes : bytes) : result (list str) :=
  match decode event_bytes with
  | Ok s => Ok (map (str_remove dquote) (str_split comma s))
  | Raise e => Raise e
  end.

Local Close Scope N_scope.

(** ** The process the binding runs in *)

(** Modelled from the spec: [utils.CWEventFieldStruct] is not among the
    sources; a row of a field-descriptor table holds a field name, and
    [header] is the one member this module reads ([p.header]). *)
Record CWEventFieldStruct := mkField { header : bytes }.

(** The globals of a loaded shared object, by symbol name: memory that
    extends from the symbol's address, read and written through fixed-size
    array views; and the symbols that the object exports. *)
Record Native := mkNative {
  struct_data : string → nat → CWEventFieldStruct;
  int_data : string → nat → Z;
  exported : string → bool }.

(** A [ctypes.CDLL] handle names the shared object it was loaded from. *)
Record CDLL := mkCDLL { _name : str }.

(** The fields of [self] together with what the process holds: the shared
    objects the loader can resolve (with the current contents of their
    globals), the calls made to [LoadLibrary] and the warnings logged. *)
Record State := mkState {
  _dll : option CDLL;
  library_path : str;
  shared_objects : gmap str Native;
  load_calls : list str;
  warnings : list str }.

Definition with_dll (d : option CDLL) (st : State) : State :=
  mkState d (library_path st) (shared_objects st) (load_calls st) (warnings st).
Definition with_library_path (p : str) (st : State) : State :=
  mkState (_dll st) p (shared_objects st) (load_calls st) (warnings st).
Definition with_shared_objects (o : gmap str Native) (st : State) : State :=
  mkState (_dll st) (library_path st) o (load_calls st) (warnings st).
Definition with_load_calls (l : list str) (st : State) : State :=
  mkState (_dll st) (library_path st) (shared_objects st) l (warnings st).
Definition with_warnings (w : list str) (st : State) : State :=
  mkState (_dll st) (library_path st) (shared_objects st) (load_calls st) w.

(** *** State and exceptions *)

Definition M (A : Type) : Type := State → State * result A.

#[global] Instance M_ret : MRet M := λ A a st, (st, Ok a).
#[global] Instance M_bind : MBind M := λ A B f m st,
  match m st with
  | (st', Ok a) => f a st'
  | (st', Raise e) => (st', Raise e)
  end.

Definition gets {A} (f : State → A) : M A := λ st, (st, Ok (f st)).
Definition modify (f : State → State) : M unit := λ st, (f st, Ok tt).
Definition raise {A} (e : exn) : M A := λ st, (st, Raise e).
Definition lift {A} (r : result A) : M A := λ st, (st, r).

(** A comprehension [[f x for x in l]] whose body has effects. *)
Fixpoint for_list {A B} (f : A → M B) (l : list A) : M (list B) :=
  match l with
  | [] => mret []
  | x :: l' => y ← f x; ys ← for_list f l'; mret (y :: ys)
  end.

(** [[h for i, h in enumerate(l) if keep i]]. *)
Fixpoint filter_enumerate {A} (keep : nat → M bool) (i : nat) (l : list A)
  : M (list A) :=
  match l with
  | [] => mret []
  | h :: l' =>
    b ← keep i; hs ← filter_enumerate keep (S i) l';
    mret (if b : bool then h :: hs else hs)
  end.

(** *** ctypes *)

(** [ctypes.cdll.LoadLibrary(path)]: [OSError] when the loader cannot
    resolve the path. *)
Definition LoadLibrary (path : str) : M CDLL := λ st,
  let st' := with_load_calls (load_calls st ++ [path]) st in
  match shared_objects st !! path with
  | Some _ => (st', Ok (mkCDLL path))
  | None => (st', Raise OSError)
  end.

(** A C [int]: 32 bits, two's complement. *)
Definition c_int (v : Z) : Z := ((v + 2 ^ 31) `mod` 2 ^ 32 - 2 ^ 31)%Z.

(** An instance of an array type [elem * length] placed on the global
    [symbol] of a shared object: a view that aliases the memory. *)
Record c_array := mkArray {
  arr_dll : CDLL; arr_symbol : string; arr_length : nat }.

(** The globals behind a handle; [ValueError] when the process holds no
    such shared object. *)
Definition native_of (dll : CDLL) : M Native := λ st,
  match shared_objects st !! _name dll with
  | Some n => (st, Ok n)
  | None => (st, Raise ValueError)
  end.

(** [(elem * length).in_dll(dll, symbol)]: [ValueError] when the shared
    object does not export the symbol. *)
Definition in_dll (length : nat) (dll : CDLL) (symbol : string) : M c_array :=
  n ← native_of dll;
  if exported n symbol then mret (mkArray dll symbol length) else raise ValueError.

(** [a[i]] on a view of structures and on a view of C ints. *)
Definition getitem_struct (a : c_array) (i : nat) : M CWEventFieldStruct :=
  if bool_decide (i < arr_length a)%nat
  then n ← native_of (arr_dll a); mret (struct_data n (arr_symbol a) i)
  else raise IndexError.

Definition getitem_int (a : c_array) (i : nat) : M Z :=
  if bool_decide (i < arr_length a)%nat
  then n ← native_of (arr_dll a); mret (int_data n (arr_symbol a) i)
  else raise IndexError.

(** [a[i] = value]: the value is stored as a C int. *)
Definition poke (sym : string) (i : nat) (v : Z) (n : Native) : Native :=
  mkNative (struct_data n) (<[sym := <[i := c_int v]> (int_data n sym)]> (int_data n))
           (exported n).

Definition setitem_int (a : c_array) (i : nat) (value : Z) : M unit :=
  if bool_decide (i < arr_length a)%nat
  then n ← native_of (arr_dll a);
       modify (λ st, with_shared_objects
         (<[_name (arr_dll a) := poke (arr_symbol a) i value n]> (shared_objects st)) st)
  else raise IndexError.

(** [[f p for p in a]]: iterating over a view reads its elements in
    order. *)
Definition for_array {B} (a : c_array) (f : CWEventFieldStruct → M B) : M (list B) :=
  for_list (λ i, p ← getitem_struct a i; f p) (seq 0 (arr_length a)).

(** [logging.warn(msg)]. *)
Definition logging_warn (msg : str) : M unit :=
  modify (λ st, with_warnings (warnings st ++ [msg]) st).

(** ** Class [Chadwick] *)

Definition FIELDS_COUNT : nat := 96.
Definition EXT_FIELDS_COUNT : nat := 63.

(** The default of the [library_path] argument of [__init__]. *)
Definition default_library_path : str := pystr "libchadwick2.so".

Definition _load_shared_library (path : str) : M unit :=
  dll ← LoadLibrary path;
  modify (with_dll (Some dll)).

(** The property [libchadwick]: loads only when no handle is stored. The
    last branch is not reachable: a load that returns stores a handle. *)
Definition libchadwick : M CDLL :=
  d ← gets _dll;
  (if d is None then p ← gets library_path; _load_shared_library p else mret tt);;
  d' ← gets _dll;
  match d' with
  | Some dll => mret dll
  | None => raise (Exception "AttributeError")
  end.

Definition cwevent_field_data : M c_array :=
  dll ← libchadwick; in_dll FIELDS_COUNT dll "cwevent_field_data".

Definition cwevent_fields : M c_array :=
  dll ← libchadwick; in_dll FIELDS_COUNT dll "fields".

Definition cwevent_ext_field_data : M c_array :=
  dll ← libchadwick; in_dll EXT_FIELDS_COUNT dll "cwevent_ext_field_data".

Definition cwevent_ext_fields : M c_array :=
  dll ← libchadwick; in_dll EXT_FIELDS_COUNT dll "ext_fields".

Definition cwevent_headers : M (list str) :=
  a ← cwevent_field_data;
  for_array a (λ p, lift (decode (header p))).

Definition cwevent_ext_headers : M (list str) :=
  a ← cwevent_ext_field_data;
  for_array a (λ p, lift (decode (header p))).

Definition all_headers : M (list str) :=
  hs ← cwevent_headers; es ← cwevent_ext_headers; mret (hs ++ es).

(** [l.index(x)]: the first position of [x]; [ValueError] when absent. *)
Definition index (l : list str) (x : str) : M nat :=
  match list_find (λ h, h = x) l with
  | Some (i, _) => mret i
  | None => raise ValueError
  end.

Definition not_in_headers_message (field_name : str) : str :=
  pystr "field_name " ++ field_name ++ pystr " is not in the headers. value NOT set".

Definition set_event_field_value (field_name : str) (value : Z) : M unit :=
  hs ← cwevent_headers;
  if bool_decide (field_name ∈ hs) then
    hs' ← cwevent_headers;
    idx ← index hs' field_name;
    a ← cwevent_fields;
    setitem_int a idx value
  else
    es ← cwevent_ext_headers;
    if bool_decide (field_name ∈ es) then
      es' ← cwevent_ext_headers;
      idx ← index es' field_name;
      a ← cwevent_ext_fields;
      setitem_int a idx value
    else
      logging_warn (not_in_headers_message field_name).

Definition set_event_field (field_name : str) : M unit :=
  set_event_field_value field_name 1.

Definition unset_event_field (field_name : str) : M unit :=
  set_event_field_value field_name 0.

Definition set_all_headers : M unit :=
  fs ← all_headers;
  for_list set_event_field fs;;
  mret tt.

(** [Chadwick(library_path)]: a fresh object, then the body of [__init__]. *)
Definition __init__ (path : str) : M unit :=
  modify (with_dll None);;
  modify (with_library_path path);;
  _load_shared_library path;;
  set_all_headers.

Definition active_headers : M (list str) :=
  hs ← cwevent_headers;
  std ← filter_enumerate
           (λ i, a ← cwevent_fields; v ← getitem_int a i; mret (v =? 1)%Z) 0 hs;
  es ← cwevent_ext_headers;
  ext ← filter_enumerate
           (λ i, a ← cwevent_ext_fields; v ← getitem_int a i; mret (v =? 1)%Z) 0 es;
  mret (std ++ ext).

Definition dicticize_event_string (event_bytes : bytes) (headers : option (list str))
  : M (gmap str str) :=
  headers ← (if headers is Some hs then mret hs else active_headers);
  fields ← lift (listicize_event_string event_bytes);
  mret (dict (zip headers fields)).

(** ** The generator [games]

    The native entry points [fopen], [feof], [cw_game_read] and [fclose]
    belong to the shared object and are not modelled: the generator is a
    resumable machine that emits a request each time control leaves it (a
    native call, a [yield], or its end) and is resumed with the answer. *)

Inductive request : Type :=
| CallFopen (file_path mode : bytes)
| CallFeof (file_handle : Z)
| CallGameRead (file_handle : Z)
| CallFclose (file_handle : Z)
| Yield (game : Z)
| StopIteration
| Propagate (e : exn).

(** The answer to a native call: it returned [v] (a C int, or an address
    with 0 for NULL), or the call raised. At a [yield], and before the
    first step, [Returned] is the consumer's [next(gen)] and [Raised e] is
    [gen.throw(e)] ([gen.close()] throws [GeneratorExit]). *)
Inductive response : Type :=
| Returned (v : Z)
| Raised (e : exn).

(** Where the generator waits. *)
Inductive gen_state : Type :=
| Created (file_path : bytes)
| InFopen
| InFeof (file_handle : Z)
| InGameRead (file_handle : Z)
| AtYield (file_handle : Z)
| InFclose (file_handle : Z)
| Finished.

(** Every method looks the entry point up through [self.libchadwick]
    before it calls it. *)
Definition fopen (file_path mode : bytes) : M request :=
  libchadwick;; mret (CallFopen file_path mode).
Definition feof (file_handle : Z) : M request :=
  libchadwick;; mret (CallFeof file_handle).
Definition fclose (file_handle : Z) : M request :=
  libchadwick;; mret (CallFclose file_handle).

(** [while not self.feof(file_handle)]: the call that decides the loop. *)
Definition loop_head (file_handle : Z) : M (gen_state * request) :=
  rq ← feof file_handle; mret (InFeof file_handle, rq).

(** The body of the bare [except:]. *)
Definition except_handler (file_handle : Z) : M (gen_state * request) :=
  rq ← fclose file_handle; mret (InFclose file_handle, rq).

Definition games_step (g : gen_state) (r : response) : M (gen_state * request) :=
  match g, r with
  | Created file_path, Returned _ =>
      libchadwick;;                         (* cw_game_read = self.libchadwick.cw_game_read *)
      rq ← fopen file_path (pybytes "r");   (* file_handle = self.fopen(file_path) *)
      mret (InFopen, rq)
  | InFopen, Returned file_handle => loop_head file_handle
  | InFeof file_handle, Returned eof =>
      if (eof =? 0)%Z
      then mret (InGameRead file_handle, CallGameRead file_handle)
      else mret (Finished, StopIteration)
  | InGameRead file_handle, Returned game => mret (AtYield file_handle, Yield game)
  | InGameRead file_handle, Raised _ => except_handler file_handle
  | AtYield file_handle, Returned _ => loop_head file_handle
  | AtYield file_handle, Raised _ => except_handler file_handle
  | InFclose _, Returned _ => mret (Finished, StopIteration)
  | Finished, Returned _ => mret (Finished, StopIteration)
  | Created _, Raised e | InFopen, Raised e | InFeof _, Raised e
  | InFclose _, Raised e | Finished, Raised e => raise e
  end.

(** One resumption: an exception that nothing catches leaves the
    generator, which is finished from then on. *)
Definition resume (g : gen_state) (r : response) (st : State)
  : State * (gen_state * request) :=
  match games_step g r st with
  | (st', Ok out) => (st', out)
  | (st', Raise e) => (st', (Finished, Propagate e))
  end.

(** [games(file_path)] only creates the generator object. *)
Definition games (file_path : bytes) : gen_state := Created file_path.

(** The generator against a scripted environment: answer [i] of the script
    produces request [i]; answer [i + 1] is the answer to that request. *)
Fixpoint drive (g : gen_state) (script : list response) (st : State) : list request :=
  match script with
  | [] => []
  | r :: script' =>
    let '(st', (g', rq)) := resume g r st in rq :: drive g' script' st'
  end.

(** ** Frames *)

Section Frames.
(** pandas is outside the repository: a column (values with their
    dtype) and a conversion target are opaque, [astype] is
    [Series.astype], [loc_setitem old new] is what column [old] holds
    after [df.loc[:, name] = new], and [loc_rows_upto df name] is the
    evaluation of [df.loc[:name]] for printing. *)
Variables Column DType : Type.
Variable astype : Column → DType → result Column.
Variable loc_setitem : Column → Column → Column.
Variable loc_rows_upto : gmap str Column → str → result string.

Inductive printed : Type :=
| CannotConvert (column_name : str)
| Rows (text : string).

(** [convert_data_frame_types] (a static method). The frame is mutated
    in place: the first component is the frame as the call leaves it,
    also when it raises; [Ok tt] stands for [return df]. The mapping is
    given by its items in insertion order. *)
Fixpoint convert_data_frame_types
    (df : gmap str Column) (data_type_mapping : list (str * DType))
  : gmap str Column * list printed * result unit :=
  match data_type_mapping with
  | [] => (df, [], Ok tt)
  | (column_name, data_type_conversion) :: rest =>
    match df !! column_name with
    | Some col =>
      match astype col data_type_conversion with
      | Ok new =>
          convert_data_frame_types (<[column_name := loc_setitem col new]> df) rest
      | Raise TypeError =>
          match loc_rows_upto df column_name with
          | Ok text => (df, [CannotConvert column_name; Rows text], Raise TypeError)
          | Raise e => (df, [CannotConvert column_name], Raise e)
          end
      | Raise e => (df, [], Raise e)
      end
    | None => convert_data_frame_types df rest
    end
  end.
End Frames.

(** ** Definitions used in the statements *)

(** [list(a)] for a view of C ints. *)
Definition list_of_ints (a : c_array) : M (list Z) :=
  for_list (getitem_int a) (seq 0 (arr_length a)).

(** The flags of the two tables, as the binding reads them. *)
Definition standard_flags : M (list Z) := a ← cwevent_fields; list_of_ints a.
Definition extended_flags : M (list Z) := a ← cwevent_ext_fields; list_of_ints a.

(** The reading of a record that the words "comma-separated, quoted
    fields" describe: a comma separates two fields only outside double
    quotes, and the quotes are not part of the field. *)
Fixpoint quoted_fields (in_quotes : bool) (s : str) : list str :=
  match s with
  | [] => [[]]
  | c :: s' =>
    if (c =? dquote)%N then quoted_fields (negb in_quotes) s'
    else if (c =? comma)%N && negb in_quotes then [] :: quoted_fields in_quotes s'
    else match quoted_fields in_quotes s' with
         | f :: fs => (c :: f) :: fs
         | [] => [[c]]
         end
  end.

Definition csv_fields (s : str) : list str := quoted_fields false s.

(** Does a comma occur between an opening quote and its closing quote? *)
Fixpoint comma_in_quotes (in_quotes : bool) (s : str) : bool :=
  match s with
  | [] => false
  | c :: s' =>
    if (c =? dquote)%N then comma_in_quotes (negb in_quotes) s'
    else (in_quotes && (c =? comma)%N) || comma_in_quotes in_quotes s'
  end.

(** [sep.join(fs)]. *)
Fixpoint str_join (sep : N) (fs : list str) : str :=
  match fs with
  | [] => []
  | [f] => f
  | f :: fs' => f ++ sep :: str_join sep fs'
  end.

(** The record [b'"ANA201904040",1,0'] (the byte [x22] is the double
    quote). *)
Definition plain_record : bytes :=
  [x22] ++ pybytes "ANA201904040" ++ [x22] ++ pybytes ",1,0".

(** A state with no object constructed and nothing loaded. *)
Definition idle : State := mkState None default_library_path ∅ [] [].

(** The record [b'"a,b",c']: a quoted field that contains a comma, then
    the field [c]. *)
Definition quoted_comma_record : bytes :=
  [x22] ++ pybytes "a,b" ++ [x22] ++ pybytes ",c".

(** A comprehension over results, without effects. *)
Fixpoint for_result {A B} (f : A → result B) (l : list A) : result (list B) :=
  match l with
  | [] => Ok []
  | x :: l' =>
    match f x with
    | Ok y => match for_result f l' with Ok ys => Ok (y :: ys) | Raise e => Raise e end
    | Raise e => Raise e
    end
  end.

(** The library behind the stored handle. *)
Definition loaded (st : State) (dll : CDLL) (n : Native) : Prop :=
  _dll st = Some dll ∧ shared_objects st !! _name dll = Some n.

(** The header names of a table of [len] rows at [symbol], as the
    binding reads them: [ValueError] when the symbol is not exported. *)
Definition table_headers (n : Native) (symbol : string) (len : nat) : result (list str) :=
  if exported n symbol
  then for_result (λ p, decode (header p)) (map (struct_data n symbol) (seq 0 len))
  else Raise ValueError.

(** The flags of a table of [len] rows at [symbol]. *)
Definition table_flags (n : Native) (symbol : string) (len : nat) : list Z :=
  map (int_data n symbol) (seq 0 len).

(** The flag table that a write to the name [x] addresses can be viewed:
    the standard one when the name is a standard header, else the
    extended one. *)
Definition writable (n : Native) (hs : list str) (x : str) : Prop :=
  exported n (if bool_decide (x ∈ hs) then "fields" else "ext_fields") = true.

(** The flags of a table as the binding reads them. *)
Definition flags_view (n : Native) (symbol : string) (len : nat) : result (list Z) :=
  if exported n symbol then Ok (table_flags n symbol len) else Raise ValueError.

(** The state after the globals of the library behind [dll] became [n']. *)
Definition store (st : State) (dll : CDLL) (n' : Native) : State :=
  with_shared_objects (<[_name dll := n']> (shared_objects st)) st.

(** The outcome of [view[i] = value] for the view on [symbol], row [i]
    within its length. *)
Definition write_flag (st : State) (dll : CDLL) (n : Native) (symbol : string)
    (i : nat) (value : Z) : State * result unit :=
  if exported n symbol then (store st dll (poke symbol i value n), Ok tt)
  else (st, Raise ValueError).

(** The four globals of the library that the binding reads. *)
Definition chadwick_symbols : list string :=
  ["cwevent_field_data"; "fields"; "cwevent_ext_field_data"; "ext_fields"].

Definition exports (symbols : list string) (symbol : string) : bool :=
  existsb (String.eqb symbol) symbols.

(** The ASCII digit of [d < 10]. *)
Definition digit (d : nat) : byte :=
  nth d [x30; x31; x32; x33; x34; x35; x36; x37; x38; x39] x30.

(** A sample library: row [i] of the standard table is named [F] and two
    decimal digits, row [i] of the extended table [E] and two digits; all
    flags are 0. *)
Definition sample_native : Native :=
  mkNative
    (λ symbol i,
       mkField ((if String.eqb symbol "cwevent_field_data" then x46 else x45)
                :: [digit (i / 10); digit (i mod 10)]))
    (λ _ _, 0%Z) (exports chadwick_symbols).

(** A process that can resolve the default path, before construction. *)
Definition sample_process : State :=
  mkState None default_library_path {[default_library_path := sample_native]} [] [].

(** The same process with the handle stored on the object. *)
Definition sample_object : State :=
  mkState (Some (mkCDLL default_library_path)) default_library_path
          {[default_library_path := sample_native]} [default_library_path] [].

(** The names of the first [len] rows of a table of the sample library. *)
Definition sample_headers (letter : string) (len : nat) : list str :=
  map (λ i, pystr letter ++ [N.of_nat (48 + i / 10); N.of_nat (48 + i mod 10)]) (seq 0 len).

(** A library whose 159 rows all carry the name [H]; all flags are 0. *)
Definition repeated_native : Native :=
  mkNative (λ _ _, mkField (pybytes "H")) (λ _ _, 0%Z) (exports chadwick_symbols).

(** A process that resolves the default path to it, before and after
    construction of the object. *)
Definition repeated_process : State :=
  mkState None default_library_path {[default_library_path := repeated_native]} [] [].

Definition repeated_object : State :=
  mkState (Some (mkCDLL default_library_path)) default_library_path
          {[default_library_path := repeated_native]} [default_library_path] [].

(** The names whose flag, at the same row, is 1. *)
Definition enabled (names : list str) (flags : list Z) : list str :=
  (filter (λ hf, hf.2 = 1%Z) (zip names flags)).*1.

(** The active headers of a library in closed form, the tables read in
    the order in which [active_headers] reads them. *)
Definition active_names (n : Native) : result (list str) :=
  match table_headers n "cwevent_field_data" FIELDS_COUNT with
  | Ok hs =>
    match flags_view n "fields" FIELDS_COUNT with
    | Ok flags =>
      match table_headers n "cwevent_ext_field_data" EXT_FIELDS_COUNT with
      | Ok es =>
        match flags_view n "ext_fields" EXT_FIELDS_COUNT with
        | Ok eflags => Ok (enabled hs flags ++ enabled es eflags)
        | Raise e => Raise e
        end
      | Raise e => Raise e
      end
    | Raise e => Raise e
    end
  | Raise e => Raise e
  end.

(** A computation that, started with a handle stored, ends with the same
    handle stored and has not called the loader, whatever its outcome. *)
Definition keeps_handle {A} (m : M A) : Prop :=
  ∀ st dll, _dll st = Some dll →
    _dll (m st).1 = Some dll ∧ load_calls (m st).1 = load_calls st.

(** The object as [__init__] has it when it reaches the loader. *)
Definition fresh (path : str) (st0 : State) : State :=
  with_library_path path (with_dll None st0).

(** The request the generator waits on, for each of its states. *)
Definition awaits (g : gen_state) (rq : request) : Prop :=
  match g, rq with
  | InFopen, CallFopen _ _ => True
  | InFeof fh, CallFeof fh' => fh = fh'
  | InGameRead fh, CallGameRead fh' => fh = fh'
  | AtYield _, Yield _ => True
  | InFclose fh, CallFclose fh' => fh = fh'
  | Finished, StopIteration => True
  | Finished, Propagate _ => True
  | _, _ => False
  end.

(** Past its first step the generator runs with a handle stored. *)
Definition started (g : gen_state) (st : State) : Prop :=
  match g with
  | Created _ | Finished => True
  | _ => is_Some (_dll st)
  end.

(** The file handle a state or a request carries. *)
Definition state_handle (g : gen_state) : option Z :=
  match g with
  | InFeof fh | InGameRead fh | AtYield fh | InFclose fh => Some fh
  | _ => None
  end.

Definition request_handle (rq : request) : option Z :=
  match rq with
  | CallFeof fh | CallGameRead fh | CallFclose fh => Some fh
  | _ => None
  end.

(** Requests that carry a handle carry the one the generator holds. *)
Definition holds_handle (fh0 : Z) (g : gen_state) : Prop :=
  match g with
  | Created _ | InFopen => False
  | Finished => True
  | _ => state_handle g = Some fh0
  end.

(** A run in which the read fails: the consumer asks for a game, [fopen]
    returns handle 7, [feof] returns 0, [cw_game_read] raises, [fclose]
    returns 0. *)
Definition failing_script : list response :=
  [Returned 0; Returned 7; Returned 0; Raised (Exception "ArgumentError"); Returned 0].

(** A run to the end of the file: the consumer starts the generator,
    [fopen] returns [fh], then for each game [feof] returns 0,
    [cw_game_read] returns the game and the consumer asks for the next
    one; at last [feof] returns [eof]. *)
Definition reading_script (fh : Z) (gs : list Z) (eof : Z) : list response :=
  Returned 0 :: Returned fh
  :: concat (map (λ game, [Returned 0; Returned game; Returned 0]) gs)
  ++ [Returned eof].

Definition reading_trace (file_path : bytes) (fh : Z) (gs : list Z) : list request :=
  CallFopen file_path (pybytes "r") :: CallFeof fh
  :: concat (map (λ game, [CallGameRead fh; Yield game; CallFeof fh]) gs)
  ++ [StopIteration].

(** The values the generator yields, in order. *)
Definition yielded (outs : list request) : list Z :=
  omap (λ rq, if rq is Yield game then Some game else None) outs.

(** A frame of two float columns, with a conversion that relabels the
    dtype and refuses the target [object]. *)
Definition sample_astype (col : string * list Z) (t : string) : result (string * list Z) :=
  if String.eqb t "object" then Raise TypeError else Ok (t, col.2).

(** Columns [GAME_ID] and [INN_CT]; the mapping names [INN_CT] and a
    column the frame lacks. *)
Definition sample_frame : gmap str (string * list Z) :=
  <[pystr "INN_CT" := ("f8", [1; 2]%Z)]> (<[pystr "GAME_ID" := ("f8", [7; 7]%Z)]> ∅).

Definition sample_mapping : list (str * string) :=
  [(pystr "INN_CT", "i8"); (pystr "OUTS_CT", "i8")].

(** A computation that writes neither the globals of a shared object nor
    the log nor the path, and that leaves the whole state as it is when
    a handle is stored. *)
Definition reads_only {A} (m : M A) : Prop :=
  ∀ st,
    shared_objects (m st).1 = shared_objects st ∧
    warnings (m st).1 = warnings st ∧
    library_path (m st).1 = library_path st ∧
    (is_Some (_dll st) → (m st).1 = st).





(** ** The generator [process_game]

    The game, the iterator and the rosters are structures of the shared
    object; only their addresses appear here (0 for NULL). As for
    [games], the generator is a resumable machine: it emits a request
    each time control leaves it and is resumed with the answer. *)

(** A roster argument: [None], a pointer, or the [pointer(CWRoster())]
    that the method makes for itself. *)
Inductive roster : Type :=
| RosterNone
| RosterAt (address : Z)
| RosterDefault.

(** [not roster]: [None] and a NULL pointer are false. *)
Definition roster_missing (r : roster) : bool :=
  match r with
  | RosterNone => true
  | RosterAt address => (address =? 0)%Z
  | RosterDefault => false
  end.

Inductive event_request : Type :=
| CallGameiterCreate (game_ptr : Z)
| ReadEvent (gameiter : Z)
| CallProcessGameRecord (gameiter : Z) (roster_visitor roster_home : roster)
                        (event_str : bytes)
| CallGameiterNext (gameiter_ptr : Z)
| YieldEvent (event : gmap str str)
| EventsStop
| EventsPropagate (e : exn).

(** The answer to a request: the call (or the read of
    [gameiter.contents.event]) gave [v], and [buffer] is what the string
    buffer passed to the call holds when it returns; or it raised. At a
    [yield], and before the first step, [Answer] is the consumer's
    [next(gen)] and [Throw e] is [gen.throw(e)]. *)
Inductive event_response : Type :=
| Answer (v : Z) (buffer : bytes)
| Throw (e : exn).

(** The local variables of the loop. *)
Record locals : Type := mkLocals {
  gameiter : Z;
  roster_visitor : roster;
  roster_home : roster;
  event_str : bytes }.

Definition with_event_str (buffer : bytes) (f : locals) : locals :=
  mkLocals (gameiter f) (roster_visitor f) (roster_home f) buffer.

Inductive event_state : Type :=
| Unstarted (game_ptr : Z) (roster_visitor roster_home : roster)
| InGameiterCreate (roster_visitor roster_home : roster)
| InEvent (f : locals)
| InProcessGameRecord (f : locals)
| InGameiterNext (f : locals)
| AtEventYield (f : locals)
| EventsFinished.

(** [create_string_buffer(init, size)] for an [init] shorter than
    [size]: the array holds [init], then NULs. *)
Definition create_string_buffer (init : bytes) (size : nat) : bytes :=
  init ++ replicate (size - length init) x00.

(** [buffer.value]: the bytes before the first NUL. *)
Fixpoint buffer_value (buffer : bytes) : bytes :=
  match buffer with
  | [] => []
  | b :: rest => if Byte.eqb b x00 then [] else b :: buffer_value rest
  end.

Definition cw_gameiter_create (game_ptr : Z) : M event_request :=
  libchadwick;; mret (CallGameiterCreate game_ptr).

Definition cw_gameiter_next (gameiter_ptr : Z) : M event_request :=
  libchadwick;; mret (CallGameiterNext gameiter_ptr).

Definition undefined_roster_message (side : string) : str :=
  pystr "roster for " ++ pystr side ++ pystr " is undefined.".

(** [if not roster: logging.warn(...); roster = pointer(CWRoster())]. *)
Definition default_roster (side : string) (r : roster) : M roster :=
  if roster_missing r
  then logging_warn (undefined_roster_message side);; mret RosterDefault
  else mret r.

(** [while gameiter.contents.event]: the condition is read through the
    pointer; [contents] of a NULL pointer raises [ValueError]. *)
Definition while_head (f : locals) : M (event_state * event_request) :=
  if (gameiter f =? 0)%Z then raise ValueError
  else mret (InEvent f, ReadEvent (gameiter f)).

Definition process_game_step (g : event_state) (r : event_response)
  : M (event_state * event_request) :=
  match g, r with
  | Unstarted game_ptr rv rh, Answer _ _ =>
      libchadwick;;              (* self.libchadwick.cwevent_process_game_record *)
      rq ← cw_gameiter_create game_ptr;
      mret (InGameiterCreate rv rh, rq)
  | InGameiterCreate rv rh, Answer gameiter _ =>
      rv' ← default_roster "visitor" rv;
      rh' ← default_roster "home" rh;
      while_head (mkLocals gameiter rv' rh' (create_string_buffer (pybytes " ") 4096))
  | InEvent f, Answer event _ =>
      if (event =? 0)%Z then mret (EventsFinished, EventsStop)
      else mret (InProcessGameRecord f,
                 CallProcessGameRecord (gameiter f) (roster_visitor f) (roster_home f)
                                       (event_str f))
  | InProcessGameRecord f, Answer _ buffer =>
      rq ← cw_gameiter_next (gameiter f);
      mret (InGameiterNext (with_event_str buffer f), rq)
  | InGameiterNext f, Answer _ _ =>
      match buffer_value (event_str f) with
      | [] => while_head f
      | value =>
          event ← dicticize_event_string value None;
          mret (AtEventYield f, YieldEvent event)
      end
  | AtEventYield f, Answer _ _ => while_head f
  | EventsFinished, Answer _ _ => mret (EventsFinished, EventsStop)
  | _, Throw e => raise e
  end.

(** PEP 479: a [StopIteration] that leaves the body of a generator comes
    out as [RuntimeError]. *)
Definition leaves_generator (e : exn) : exn :=
  match e with
  | Exception name =>
      if String.eqb name "StopIteration" then Exception "RuntimeError" else e
  | _ => e
  end.

(** One resumption. Nothing in the generator catches an exception: it
    leaves the body, and the generator is finished. An exception thrown
    into the finished generator runs no body and comes back as it is. *)
Definition resume_events (g : event_state) (r : event_response) (st : State)
  : State * (event_state * event_request) :=
  match process_game_step g r st with
  | (st', Ok out) => (st', out)
  | (st', Raise e) =>
      (st', (EventsFinished,
             EventsPropagate (if g is EventsFinished then e else leaves_generator e)))
  end.

(** [process_game(game_ptr, roster_visitor, roster_home)] only creates
    the generator object. *)
Definition process_game (game_ptr : Z) (roster_visitor roster_home : roster)
  : event_state := Unstarted game_ptr roster_visitor roster_home.

(** The generator against a scripted environment: the requests it makes,
    and the state of the generator and of the process at the end. *)
Fixpoint run_events (g : event_state) (script : list event_response) (st : State)
  : list event_request * (event_state * State) :=
  match script with
  | [] => ([], (g, st))
  | r :: script' =>
    let '(st', (g', rq)) := resume_events g r st in
    let '(rqs, final) := run_events g' script' st' in
    (rq :: rqs, final)
  end.

Definition drive_events (g : event_state) (script : list event_response) (st : State)
  : list event_request := (run_events g script st).1.

(** The warnings about rosters that a call gives rise to. *)
Definition roster_warnings (rv rh : roster) : list str :=
  (if roster_missing rv then [undefined_roster_message "visitor"] else []) ++
  (if roster_missing rh then [undefined_roster_message "home"] else []).

(** The rosters as the native call receives them. *)
Definition roster_passed (r : roster) : roster :=
  if roster_missing r then RosterDefault else r.

(** The generator has ended: it returned, or an exception left it. *)
Definition ended (rq : event_request) : Prop :=
  rq = EventsStop ∨ ∃ e, rq = EventsPropagate e.

(** The events the generator yields, in order. *)
Definition yielded_events (outs : list event_request) : list (gmap str str) :=
  omap (λ rq, if rq is YieldEvent event then Some event else None) outs.

(** A run over the events of a game: the consumer starts the generator,
    [cw_gameiter_create] returns [gi]; then for each event the iterator
    shows an event, [cwevent_process_game_record] leaves [buffer] in the
    string buffer, [cw_gameiter_next] returns, and, if the buffer holds
    a string, the consumer asks for the next event. *)
Definition event_answers (buffer : bytes) : list event_response :=
  [Answer 1 []; Answer 0 buffer; Answer 0 []] ++
  (if buffer_value buffer is [] then [] else [Answer 0 []]).

Definition events_script (gi : Z) (buffers : list bytes) : list event_response :=
  Answer 0 [] :: Answer gi [] :: concat (map event_answers buffers).

(** Does the buffer hold a string? *)
Definition has_string (buffer : bytes) : bool :=
  if buffer_value buffer is [] then false else true.

(** What is yielded for an event that left [buffer]: nothing when the
    buffer holds no string, else the mapping made of its string. *)
Definition event_yield (st : State) (buffer : bytes) : list event_request :=
  if has_string buffer
  then match (dicticize_event_string (buffer_value buffer) None st).2 with
       | Ok event => [YieldEvent event]
       | Raise _ => []
       end
  else [].

(** The requests of that run from the first read of the event pointer
    on, for buffers whose strings convert: each call of
    [cwevent_process_game_record] is passed the buffer as the call
    before left it, and the event is yielded after [cw_gameiter_next]. *)
Fixpoint events_trace (st : State) (gi : Z) (rv rh : roster) (held : bytes)
    (buffers : list bytes) : list event_request :=
  match buffers with
  | [] => []
  | buffer :: rest =>
      CallProcessGameRecord gi rv rh held :: CallGameiterNext gi
      :: event_yield st buffer ++ ReadEvent gi :: events_trace st gi rv rh buffer rest
  end.

(** The buffer as the call after the given ones receives it. *)
Definition held_after (held : bytes) (buffers : list bytes) : bytes :=
  List.last buffers held.

(** The sample library with the first two standard fields enabled, and
    an object that has loaded it. *)
Definition active_native : Native :=
  poke "fields" 1 1 (poke "fields" 0 1 sample_native).

Definition active_object : State :=
  store sample_object (mkCDLL default_library_path) active_native.

(** Two events: the first leaves [ANA,1,0] in the buffer, the second
    leaves it empty. *)
Definition sample_buffers : list bytes :=
  [pybytes "ANA,1,0" ++ [x00]; [x00]].

(** Past the creation of the iterator. *)
Definition in_loop (g : event_state) : Prop :=
  match g with
  | Unstarted _ _ _ | InGameiterCreate _ _ => False
  | _ => True
  end.

(** * Properties *)

(** ** Records: splitting, unquoting, pairing *)

(** Decoding: two bytes for U+00E9, four for U+1F600; an overlong form,
    a surrogate and a truncated sequence are refused. *)
Example decode_samples :
  decode [xc3; xa9] = Ok [233%N] ∧
  decode [xf0; x9f; x98; x80] = Ok [128512%N] ∧
  decode [xc0; x80] = Raise UnicodeDecodeError ∧
  decode [xed; xa0; x80] = Raise UnicodeDecodeError ∧
  decode [xe2; x82] = Raise UnicodeDecodeError.
Proof. by vm_compute. Qed.

Example split_samples :
  str_split comma (pystr "") = [[]] ∧
  str_split comma (pystr "a,,b") = [pystr "a"; []; pystr "b"] ∧
  str_split comma (pystr ",") = [[]; []].
Proof. by vm_compute. Qed.

Example listicize_plain :
  listicize_event_string plain_record
  = Ok [pystr "ANA201904040"; pystr "1"; pystr "0"].
Proof. vm_compute. reflexivity. Qed.

Lemma str_split_cons sep c s :
  str_split sep (c :: s) =
  if (c =? sep)%N then [] :: str_split sep s
  else match str_split sep s with
       | f :: fs => (c :: f) :: fs
       | [] => [[c]]
       end.
Proof. reflexivity. Qed.

Lemma str_split_nonempty sep s : str_split sep s ≠ [].
Proof.
  destruct s as [|c s]; [done|].
  rewrite str_split_cons.
  destruct (c =? sep)%N; [done|]. by destruct (str_split sep s).
Qed.

(** One field more than there are separators. *)
Lemma str_split_length sep s :
  length (str_split sep s) = S (length (filter (λ c, c = sep) s)).
Proof.
  induction s as [|c s IH]; [done|].
  rewrite str_split_cons, filter_cons.
  destruct (N.eqb_spec c sep) as [->|Hne].
  - rewrite decide_True by done. simpl. by rewrite IH.
  - rewrite decide_False by done.
    pose proof (str_split_nonempty sep s).
    destruct (str_split sep s); [done|]. simpl in *. done.
Qed.

(** No field contains the separator. *)
Lemma str_split_free sep s : Forall (λ f, sep ∉ f) (str_split sep s).
Proof.
  induction s as [|c s IH].
  - repeat constructor. set_solver.
  - rewrite str_split_cons.
    destruct (N.eqb_spec c sep) as [->|Hne].
    + constructor; [set_solver | done].
    + pose proof (str_split_nonempty sep s).
      destruct (str_split sep s) as [|f fs]; [done|].
      inversion_clear IH. constructor; [|done].
      rewrite not_elem_of_cons. by split.
Qed.

(** Joining the fields with the separator gives the string back. *)
Lemma str_join_split sep s : str_join sep (str_split sep s) = s.
Proof.
  induction s as [|c s IH]; [done|].
  rewrite str_split_cons.
  pose proof (str_split_nonempty sep s) as Hne.
  destruct (N.eqb_spec c sep) as [->|Hc].
  - destruct (str_split sep s) as [|f fs] eqn:E; [done|].
    simpl. simpl in IH. by rewrite IH.
  - destruct (str_split sep s) as [|f fs] eqn:E; [done|].
    destruct fs; simpl in *; by rewrite <- IH.
Qed.

Lemma str_remove_free old s : old ∉ str_remove old s.
Proof. unfold str_remove. rewrite list_elem_of_filter. intros [H _]. by apply H. Qed.

Lemma str_remove_cons old c s :
  str_remove old (c :: s) = if (c =? old)%N then str_remove old s else c :: str_remove old s.
Proof.
  unfold str_remove. rewrite filter_cons.
  destruct (N.eqb_spec c old); [by rewrite decide_False by naive_solver|].
  by rewrite decide_True.
Qed.

(** Where no comma stands between quotes, splitting at every comma and
    dropping the quotes is the quote-aware reading. *)
Lemma quoted_fields_split q s :
  comma_in_quotes q s = false →
  quoted_fields q s = map (str_remove dquote) (str_split comma s).
Proof.
  revert q. induction s as [|c s IH]; intros q H; [done|].
  simpl in H. rewrite str_split_cons. cbn [quoted_fields].
  destruct (N.eqb_spec c dquote) as [->|Hq].
  - change (dquote =? comma)%N with false. cbv iota.
    pose proof (str_split_nonempty comma s).
    rewrite (IH _ H).
    destruct (str_split comma s) as [|f fs]; [done|].
    simpl. by rewrite str_remove_cons.
  - apply orb_false_iff in H as [H1 H2].
    destruct (N.eqb_spec c comma) as [->|Hc].
    + rewrite andb_true_r in H1. subst q. simpl. by rewrite (IH _ H2).
    + simpl. rewrite (IH _ H2).
      pose proof (str_split_nonempty comma s).
      destruct (str_split comma s) as [|f fs]; [done|].
      simpl. rewrite str_remove_cons.
      by destruct (N.eqb_spec c dquote).
Qed.

Lemma quoted_fields_nonempty q s : quoted_fields q s ≠ [].
Proof.
  revert q. induction s as [|c s IH]; intros q; [done|]. cbn [quoted_fields].
  destruct (c =? dquote)%N; [apply IH|].
  destruct ((c =? comma)%N && negb q); [done|].
  by destruct (quoted_fields q s).
Qed.

(** A comma between quotes costs the quote-aware reading a field. *)
Lemma quoted_fields_length q s :
  length (quoted_fields q s) ≤ length (str_split comma s) ∧
  (comma_in_quotes q s = true →
   length (quoted_fields q s) < length (str_split comma s)).
Proof.
  revert q. induction s as [|c s IH]; intros q; [done|].
  rewrite str_split_cons. cbn [quoted_fields comma_in_quotes].
  pose proof (str_split_nonempty comma s) as Hs.
  destruct (N.eqb_spec c dquote) as [->|Hq].
  - change (dquote =? comma)%N with false. cbv iota.
    destruct (IH (negb q)) as [H1 H2].
    destruct (str_split comma s); [done|]. done.
  - destruct (N.eqb_spec c comma) as [->|Hc].
    + destruct q; simpl.
      * destruct (IH true) as [H1 _]. pose proof (quoted_fields_nonempty true s).
        destruct (quoted_fields true s); [done|]. simpl in *. split; [lia|]. lia.
      * destruct (IH false) as [H1 H2]. split; [lia|]. intros H. apply H2 in H. lia.
    + rewrite andb_false_r, orb_false_l. simpl.
      destruct (IH q) as [H1 H2]. pose proof (quoted_fields_nonempty q s).
      destruct (quoted_fields q s), (str_split comma s); done.
Qed.

Lemma dict_snoc {V} (l : list (str * V)) k v :
  dict (l ++ [(k, v)]) = <[k := v]> (dict l).
Proof. unfold dict. by rewrite foldl_snoc. Qed.

Lemma dict_size {V} (l : list (str * V)) : size (dict l) ≤ length l.
Proof.
  induction l as [|[k v] l IH] using rev_ind; [done|].
  rewrite dict_snoc, length_app, map_size_insert. simpl.
  destruct (dict l !! k); simpl; lia.
Qed.

Lemma dict_is_Some {V} (l : list (str * V)) k :
  is_Some (dict l !! k) ↔ k ∈ l.*1.
Proof.
  induction l as [|[k' v] l IH] using rev_ind.
  - unfold dict. simpl. rewrite lookup_empty, is_Some_alt. set_solver.
  - rewrite dict_snoc, fmap_app, elem_of_app. simpl.
    rewrite lookup_insert. case_decide as Hk.
    + subst. split; [intros _; right; apply list_elem_of_here | eauto].
    + rewrite IH. split; [by left|]. intros [?|H]; [done|].
      apply elem_of_cons in H as [->|H]; [done|by apply elem_of_nil in H].
Qed.

(** The value of a key is the one of its last pair. *)
Lemma dict_lookup_last {V} (l : list (str * V)) i k v :
  l !! i = Some (k, v) →
  (∀ j v', i < j → l !! j ≠ Some (k, v')) →
  dict l !! k = Some v.
Proof.
  revert i. induction l as [|[k' v'] l IH] using rev_ind; intros i Hi Hlast; [done|].
  rewrite dict_snoc.
  destruct (decide (i = length l)) as [->|Hne].
  - rewrite lookup_app_r, Nat.sub_diag in Hi by done. simplify_eq/=.
    by rewrite lookup_insert_eq.
  - assert (i < length l).
    { apply lookup_lt_Some in Hi. rewrite length_app in Hi. simpl in Hi. lia. }
    rewrite lookup_app_l in Hi by done.
    assert (k' ≠ k).
    { intros ->. apply (Hlast (length l) v'); [done|].
      by rewrite lookup_app_r, Nat.sub_diag. }
    rewrite lookup_insert_ne by done.
    apply (IH i); [done|]. intros j w Hj Hl.
    apply (Hlast j w); [done|]. rewrite lookup_app_l; [done|].
    by apply lookup_lt_Some in Hl.
Qed.

(** [zip] stops at the shorter list. *)
Lemma zip_take_min {A B} (l : list A) (k : list B) :
  zip l k = zip (take (length l `min` length k) l) (take (length l `min` length k) k).
Proof.
  revert k. induction l as [|x l IH]; intros [|y k]; simpl; try done.
  by rewrite <- IH.
Qed.

Lemma zip_fst_take {A B} (l : list A) (k : list B) :
  (zip l k).*1 = take (length l `min` length k) l.
Proof.
  revert k. induction l as [|x l IH]; intros [|y k]; simpl; try done.
  by rewrite IH.
Qed.

Lemma dicticize_given st event_bytes (headers : list str) :
  dicticize_event_string event_bytes (Some headers) st =
  match listicize_event_string event_bytes with
  | Ok fields => (st, Ok (dict (zip headers fields)))
  | Raise e => (st, Raise e)
  end.
Proof.
  unfold dicticize_event_string, mbind, M_bind, mret, M_ret, lift.
  by destruct (listicize_event_string event_bytes).
Qed.

(** C1, as stated, fails: the quote-aware reading of [b'"a,b",c'] has the
    two fields [a,b] and [c], but the code splits at the comma between
    the quotes and maps the first header to [a] and the second to [b]. *)
Lemma quoted_comma_is_split :
  ∃ s d,
    decode quoted_comma_record = Ok s ∧
    csv_fields s = [pystr "a,b"; pystr "c"] ∧
    dicticize_event_string quoted_comma_record (Some [pystr "X"; pystr "Y"]) idle
      = (idle, Ok d) ∧
    d !! pystr "X" = Some (pystr "a") ∧
    d !! pystr "Y" = Some (pystr "b") ∧
    d ≠ dict (zip [pystr "X"; pystr "Y"] (csv_fields s)).
Proof.
  eexists _, _. split; [vm_compute; reflexivity|].
  split; [vm_compute; reflexivity|].
  split; [rewrite dicticize_given; vm_compute listicize_event_string; reflexivity|].
  split; [by vm_compute|]. split; [by vm_compute|].
  intros H. apply (f_equal (λ m, m !! pystr "X")) in H.
  vm_compute in H. discriminate H.
Qed.

(** C1 (amended): the record is decoded and split at every comma, the
    double quotes are dropped from each field, and the fields are paired
    in order with the header list in force (the caller's, or the active
    headers); no field keeps a comma or a quote, there is one field more
    than there are commas; where no comma stands between quotes the
    fields are those of the quote-aware reading, and where one does the
    quote-aware reading has fewer fields. *)
Theorem dicticize_event_string_splits_at_every_comma
    (st st1 : State) (event_bytes : bytes) (headers : option (list str))
    (hs : list str) (s : str) :
  (if headers is Some l then mret l else active_headers) st = (st1, Ok hs) →
  decode event_bytes = Ok s →
  ∃ fields,
    listicize_event_string event_bytes = Ok fields ∧
    dicticize_event_string event_bytes headers st = (st1, Ok (dict (zip hs fields))) ∧
    fields = map (str_remove dquote) (str_split comma s) ∧
    length fields = S (length (filter (λ c, c = comma) s)) ∧
    Forall (λ f, (comma ∉ f) ∧ (dquote ∉ f)) fields ∧
    (comma_in_quotes false s = false → fields = csv_fields s) ∧
    (comma_in_quotes false s = true → length (csv_fields s) < length fields).
Proof.
  intros Hh Hd. exists (map (str_remove dquote) (str_split comma s)).
  split; [|split; [|split; [reflexivity|]]].
  - unfold listicize_event_string. by rewrite Hd.
  - unfold dicticize_event_string, mbind, M_bind. rewrite Hh.
    unfold lift, listicize_event_string. by rewrite Hd.
  - split; [by rewrite length_map, str_split_length|]. split.
    + rewrite Forall_fmap. rewrite list.Forall_forall. intros f Hf.
      pose proof (str_split_free comma s) as Hfree.
      rewrite list.Forall_forall in Hfree. specialize (Hfree f Hf).
      simpl. split; [|apply str_remove_free].
      unfold str_remove. rewrite list_elem_of_filter. tauto.
    + split; [intros H; symmetry; by apply quoted_fields_split|].
      intros H. rewrite length_map. by apply quoted_fields_length.
Qed.

Lemma dicticize_event_string_splits_at_every_comma_witness :
  let hs := [pystr "GAME_ID"; pystr "INN_CT"; pystr "BAT_HOME_ID"] in
  let s := [dquote] ++ pystr "ANA201904040" ++ [dquote] ++ pystr ",1,0" in
  decode plain_record = Ok s ∧
  comma_in_quotes false s = false ∧
  listicize_event_string plain_record = Ok (csv_fields s) ∧
  dicticize_event_string plain_record (Some hs) idle
    = (idle, Ok (dict (zip hs (csv_fields s)))) ∧
  csv_fields s = [pystr "ANA201904040"; pystr "1"; pystr "0"].
Proof.
  intros hs s.
  assert (decode plain_record = Ok s) as Hd by (vm_compute; reflexivity).
  assert (comma_in_quotes false s = false) as Hq by (vm_compute; reflexivity).
  split; [exact Hd|]. split; [exact Hq|].
  destruct (dicticize_event_string_splits_at_every_comma
              idle idle plain_record (Some hs) hs s eq_refl Hd)
    as (fields & Hl & Hdict & _ & _ & _ & Hcsv & _).
  rewrite <- (Hcsv Hq).
  split; [exact Hl|]. split; [exact Hdict|].
  rewrite (Hcsv Hq). vm_compute. reflexivity.
Defined.

(** C9: with an explicit header list the call leaves the state alone and
    raises only when the record does not decode. Otherwise the fields
    are the pieces of the decoded record between its commas, without
    double quotes, one more than there are commas; the mapping has at
    most min(#headers, #fields) entries, it is the mapping of the two
    lists cut to that length (the excess of either is dropped), its keys
    are the headers below that length, and the value of a header is the
    field at the last position where the header occurs. *)
Theorem dicticize_event_string_at_most_min
    (st : State) (event_bytes : bytes) (headers : list str) :
  match decode event_bytes with
  | Raise e =>
      listicize_event_string event_bytes = Raise e ∧
      dicticize_event_string event_bytes (Some headers) st = (st, Raise e)
  | Ok s =>
      let fields := map (str_remove dquote) (str_split comma s) in
      let n := length headers `min` length fields in
      listicize_event_string event_bytes = Ok fields ∧
      length fields = S (length (filter (λ c, c = comma) s)) ∧
      ∃ d,
        dicticize_event_string event_bytes (Some headers) st = (st, Ok d) ∧
        size d ≤ n ∧
        d = dict (zip (take n headers) (take n fields)) ∧
        (∀ h, is_Some (d !! h) ↔ h ∈ take n headers) ∧
        (∀ i h v, headers !! i = Some h → fields !! i = Some v →
           (∀ j, i < j < n → headers !! j ≠ Some h) →
           d !! h = Some v)
  end.
Proof.
  rewrite dicticize_given. unfold listicize_event_string.
  destruct (decode event_bytes) as [s|e]; [|done].
  set (fields := map (str_remove dquote) (str_split comma s)).
  split; [done|]. split; [unfold fields; by rewrite length_map, str_split_length|].
  exists (dict (zip headers fields)).
  split; [done|]. split; [|split; [|split]].
  - etrans; [apply dict_size|]. by rewrite length_zip.
  - by rewrite <- zip_take_min.
  - intros h. by rewrite dict_is_Some, zip_fst_take.
  - intros i h v Hh Hf Hlast.
    apply (dict_lookup_last _ i); [by apply lookup_zip_Some|].
    intros j v' Hij Hj. apply lookup_zip_Some in Hj as [Hj1 Hj2].
    apply (Hlast j); [|done]. split; [done|].
    apply lookup_lt_Some in Hj1. apply lookup_lt_Some in Hj2. lia.
Qed.

(** Headers [A; B; A] against the record [b"1,2,3,4"]: four fields, of
    which the fourth is dropped; [A] holds the third. *)
Lemma dicticize_event_string_at_most_min_witness :
  decode (pybytes "1,2,3,4") = Ok (pystr "1,2,3,4") ∧
  listicize_event_string (pybytes "1,2,3,4")
  = Ok [pystr "1"; pystr "2"; pystr "3"; pystr "4"] ∧
  ∃ d,
    dicticize_event_string (pybytes "1,2,3,4")
      (Some [pystr "A"; pystr "B"; pystr "A"]) idle = (idle, Ok d) ∧
    size d ≤ 3 ∧
    d !! pystr "A" = Some (pystr "3").
Proof.
  assert (decode (pybytes "1,2,3,4") = Ok (pystr "1,2,3,4")) as E
    by (vm_compute; reflexivity).
  pose proof (dicticize_event_string_at_most_min idle (pybytes "1,2,3,4")
                [pystr "A"; pystr "B"; pystr "A"]) as H.
  rewrite E in H. cbv zeta in H.
  destruct H as (Hl & _ & d & Hrun & Hsize & _ & _ & Hlast).
  split; [exact E|]. split; [exact Hl|].
  exists d. split; [exact Hrun|]. split; [exact Hsize|].
  apply (Hlast 2); [reflexivity|reflexivity|]. intros j Hj. simpl in Hj. lia.
Defined.

(** Headers [A; B; A] against the record [b"1,2,3,4"]: two entries, the
    fourth field is dropped and [A] holds the third. *)
Example dicticize_repeated_header :
  ∃ d,
    dicticize_event_string (pybytes "1,2,3,4")
      (Some [pystr "A"; pystr "B"; pystr "A"]) idle = (idle, Ok d) ∧
    d !! pystr "A" = Some (pystr "3") ∧
    d !! pystr "B" = Some (pystr "2") ∧
    size d = 2.
Proof.
  eexists. split; [rewrite dicticize_given; reflexivity|]. by vm_compute.
Qed.

(** ** Running the monad *)

Lemma bind_run {A B} (m : M A) (f : A → M B) st :
  (m ≫= f) st =
  match m st with
  | (st', Ok a) => f a st'
  | (st', Raise e) => (st', Raise e)
  end.
Proof. reflexivity. Qed.

Lemma ret_run {A} (a : A) st : mret (M := M) a st = (st, Ok a).
Proof. reflexivity. Qed.

Ltac mrun := repeat (rewrite ?bind_run, ?ret_run; cbv beta iota).

Lemma for_list_pure {A B} (f : A → M B) (g : A → result B) l st :
  (∀ x, x ∈ l → f x st = (st, g x)) →
  for_list f l st = (st, for_result g l).
Proof.
  induction l as [|x l IH]; intros H; [done|].
  cbn [for_list for_result]. mrun.
  rewrite (H x) by set_solver.
  destruct (g x); [|done]. mrun.
  rewrite IH by (intros; apply H; set_solver).
  by destruct (for_result g l).
Qed.

Lemma for_result_Ok {A B} (g : A → B) l :
  for_result (λ x, Ok (g x)) l = Ok (map g l).
Proof. induction l as [|x l IH]; [done|]. simpl. by rewrite IH. Qed.

Lemma for_result_length {A B} (f : A → result B) l ys :
  for_result f l = Ok ys → length ys = length l.
Proof.
  revert ys. induction l as [|x l IH]; intros ys H; simpl in H.
  - by simplify_eq.
  - destruct (f x); [|done]. destruct (for_result f l); [|done].
    simplify_eq/=. f_equal. by apply IH.
Qed.

Lemma for_result_lookup {A B} (f : A → result B) l ys i x :
  for_result f l = Ok ys → l !! i = Some x →
  ∃ y, f x = Ok y ∧ ys !! i = Some y.
Proof.
  revert ys i. induction l as [|x' l IH]; intros ys i H Hi; [done|].
  simpl in H. destruct (f x') as [y'|] eqn:E; [|done].
  destruct (for_result f l) as [ys'|]; [|done]. simplify_eq/=.
  destruct i as [|i]; simplify_eq/=; [eauto|]. by eapply IH.
Qed.

Lemma table_headers_Ok n sym len hs :
  table_headers n sym len = Ok hs →
  exported n sym = true ∧
  for_result (λ p, decode (header p)) (map (struct_data n sym) (seq 0 len)) = Ok hs.
Proof. unfold table_headers. by destruct (exported n sym). Qed.

Lemma table_headers_length n sym len hs :
  table_headers n sym len = Ok hs → length hs = len.
Proof.
  intros [_ H]%table_headers_Ok. apply for_result_length in H.
  by rewrite H, length_map, length_seq.
Qed.

Lemma table_flags_length n sym len : length (table_flags n sym len) = len.
Proof. unfold table_flags. by rewrite length_map, length_seq. Qed.

Lemma table_flags_lookup n sym len i :
  i < len → table_flags n sym len !! i = Some (int_data n sym i).
Proof.
  intros H. unfold table_flags.
  by rewrite list_lookup_fmap, lookup_seq_lt.
Qed.

(** *** The accessors on a state whose handle is stored *)

Lemma libchadwick_stored st dll :
  _dll st = Some dll → libchadwick st = (st, Ok dll).
Proof.
  intros H. unfold libchadwick. mrun. unfold gets. mrun.
  rewrite H. mrun. by rewrite H.
Qed.

Lemma native_of_loaded st dll n : loaded st dll n → native_of dll st = (st, Ok n).
Proof. intros [_ H]. unfold native_of. by rewrite H. Qed.

Lemma in_dll_loaded st dll n len sym :
  loaded st dll n →
  in_dll len dll sym st =
  (st, if exported n sym then Ok (mkArray dll sym len) else Raise ValueError).
Proof.
  intros H. unfold in_dll. mrun. rewrite (native_of_loaded _ _ n) by done.
  by destruct (exported n sym).
Qed.

Lemma for_result_map {A B C} (f : B → result C) (g : A → B) l :
  for_result f (map g l) = for_result (λ x, f (g x)) l.
Proof. induction l as [|x l IH]; [done|]. simpl. by rewrite IH. Qed.

Lemma for_array_loaded {B} st dll n len sym (g : CWEventFieldStruct → result B) :
  loaded st dll n →
  for_array (mkArray dll sym len) (λ p, lift (g p)) st
  = (st, for_result g (map (struct_data n sym) (seq 0 len))).
Proof.
  intros H. unfold for_array. cbn [arr_length].
  rewrite (for_list_pure _ (λ i, g (struct_data n sym i))).
  - by rewrite for_result_map.
  - intros i Hi%elem_of_seq. mrun. unfold getitem_struct. cbn [arr_length arr_dll arr_symbol].
    rewrite bool_decide_true by lia. mrun. by rewrite (native_of_loaded _ _ n).
Qed.

Lemma list_of_ints_loaded st dll n len sym :
  loaded st dll n →
  list_of_ints (mkArray dll sym len) st = (st, Ok (table_flags n sym len)).
Proof.
  intros H. unfold list_of_ints. cbn [arr_length].
  rewrite (for_list_pure _ (λ i, Ok (int_data n sym i))).
  - by rewrite for_result_Ok.
  - intros i Hi%elem_of_seq. unfold getitem_int. cbn [arr_length arr_dll arr_symbol].
    rewrite bool_decide_true by lia. mrun. by rewrite (native_of_loaded _ _ n).
Qed.

Lemma headers_loaded st dll n len sym :
  loaded st dll n →
  (a ← (dll ← libchadwick; in_dll len dll sym);
   for_array a (λ p, lift (decode (header p)))) st
  = (st, table_headers n sym len).
Proof.
  intros H. mrun. rewrite (libchadwick_stored _ dll) by apply H. mrun.
  rewrite (in_dll_loaded _ _ n) by done. unfold table_headers.
  destruct (exported n sym); [|done]. mrun.
  by apply for_array_loaded.
Qed.

Lemma cwevent_headers_loaded st dll n :
  loaded st dll n →
  cwevent_headers st = (st, table_headers n "cwevent_field_data" FIELDS_COUNT).
Proof. apply headers_loaded. Qed.

Lemma cwevent_ext_headers_loaded st dll n :
  loaded st dll n →
  cwevent_ext_headers st = (st, table_headers n "cwevent_ext_field_data" EXT_FIELDS_COUNT).
Proof. apply headers_loaded. Qed.

Lemma standard_flags_loaded st dll n :
  loaded st dll n →
  standard_flags st =
  (st, if exported n "fields" then Ok (table_flags n "fields" FIELDS_COUNT)
       else Raise ValueError).
Proof.
  intros H. unfold standard_flags, cwevent_fields. mrun.
  rewrite (libchadwick_stored _ dll) by apply H. mrun.
  rewrite (in_dll_loaded _ _ n) by done.
  destruct (exported n "fields"); [|done]. mrun.
  by apply list_of_ints_loaded.
Qed.

Lemma extended_flags_loaded st dll n :
  loaded st dll n →
  extended_flags st =
  (st, if exported n "ext_fields" then Ok (table_flags n "ext_fields" EXT_FIELDS_COUNT)
       else Raise ValueError).
Proof.
  intros H. unfold extended_flags, cwevent_ext_fields. mrun.
  rewrite (libchadwick_stored _ dll) by apply H. mrun.
  rewrite (in_dll_loaded _ _ n) by done.
  destruct (exported n "ext_fields"); [|done]. mrun.
  by apply list_of_ints_loaded.
Qed.

Lemma standard_flags_exported st dll n flags :
  loaded st dll n → (standard_flags st).2 = Ok flags →
  exported n "fields" = true ∧ flags = table_flags n "fields" FIELDS_COUNT.
Proof.
  intros H. rewrite (standard_flags_loaded _ _ _ H).
  destruct (exported n "fields"); [|done]. by intros [= <-].
Qed.

Lemma extended_flags_exported st dll n flags :
  loaded st dll n → (extended_flags st).2 = Ok flags →
  exported n "ext_fields" = true ∧ flags = table_flags n "ext_fields" EXT_FIELDS_COUNT.
Proof.
  intros H. rewrite (extended_flags_loaded _ _ _ H).
  destruct (exported n "ext_fields"); [|done]. by intros [= <-].
Qed.

(** *** Writing a flag *)

Lemma store_loaded st dll n' : _dll st = Some dll → loaded (store st dll n') dll n'.
Proof. intros H. split; [done|]. simpl. by rewrite lookup_insert_eq. Qed.

Lemma setitem_int_loaded st dll n len sym i v :
  loaded st dll n → i < len →
  setitem_int (mkArray dll sym len) i v st = (store st dll (poke sym i v n), Ok tt).
Proof.
  intros H Hi. unfold setitem_int. cbn [arr_length arr_dll arr_symbol].
  rewrite bool_decide_true by done. mrun.
  by rewrite (native_of_loaded _ _ n).
Qed.

Lemma list_find_eq_Some (l : list str) x i y :
  list_find (λ h, h = x) l = Some (i, y) →
  y = x ∧ l !! i = Some x ∧ i < length l ∧ ∀ j, j < i → l !! j ≠ Some x.
Proof.
  intros (Hi & -> & Hfirst)%list_find_Some.
  split; [done|]. split; [done|]. split; [by eapply lookup_lt_Some|].
  intros j Hj Hl. by apply (Hfirst j x).
Qed.

Lemma list_find_eq_None (l : list str) x :
  list_find (λ h, h = x) l = None ↔ x ∉ l.
Proof.
  rewrite list_find_None, list.Forall_forall. split.
  - intros H Hx. by apply (H x).
  - intros H y Hy ->. done.
Qed.

Lemma set_event_field_value_loaded st dll n field_name value :
  loaded st dll n →
  set_event_field_value field_name value st =
  match table_headers n "cwevent_field_data" FIELDS_COUNT with
  | Raise e => (st, Raise e)
  | Ok hs =>
    match list_find (λ h, h = field_name) hs with
    | Some (i, _) => write_flag st dll n "fields" i value
    | None =>
      match table_headers n "cwevent_ext_field_data" EXT_FIELDS_COUNT with
      | Raise e => (st, Raise e)
      | Ok es =>
        match list_find (λ h, h = field_name) es with
        | Some (i, _) => write_flag st dll n "ext_fields" i value
        | None =>
          (with_warnings (warnings st ++ [not_in_headers_message field_name]) st, Ok tt)
        end
      end
    end
  end.
Proof.
  intros H. unfold set_event_field_value. mrun.
  rewrite (cwevent_headers_loaded _ _ _ H).
  destruct (table_headers n "cwevent_field_data" FIELDS_COUNT) as [hs|e] eqn:Ehs; [|done].
  mrun. destruct (list_find (λ h, h = field_name) hs) as [[i y]|] eqn:Ei.
  - apply list_find_eq_Some in Ei as Hi. destruct Hi as (-> & Hi & Hlt & _).
    rewrite bool_decide_true by by eapply list_elem_of_lookup_2.
    mrun. rewrite (cwevent_headers_loaded _ _ _ H), Ehs. mrun.
    unfold index. rewrite Ei. mrun.
    unfold cwevent_fields. mrun. rewrite (libchadwick_stored _ dll) by apply H. mrun.
    rewrite (in_dll_loaded _ _ n) by done. unfold write_flag.
    destruct (exported n "fields"); [|done]. mrun.
    apply (setitem_int_loaded _ _ n); [done|].
    by rewrite <- (table_headers_length _ _ _ _ Ehs).
  - apply list_find_eq_None in Ei as Hi. rewrite bool_decide_false by done.
    mrun. rewrite (cwevent_ext_headers_loaded _ _ _ H).
    destruct (table_headers n "cwevent_ext_field_data" EXT_FIELDS_COUNT)
      as [es|e] eqn:Ees; [|done].
    mrun. destruct (list_find (λ h, h = field_name) es) as [[i y]|] eqn:Ej.
    + apply list_find_eq_Some in Ej as Hj. destruct Hj as (-> & Hj & Hlt & _).
      rewrite bool_decide_true by by eapply list_elem_of_lookup_2.
      mrun. rewrite (cwevent_ext_headers_loaded _ _ _ H), Ees. mrun.
      unfold index. rewrite Ej. mrun.
      unfold cwevent_ext_fields. mrun.
      rewrite (libchadwick_stored _ dll) by apply H. mrun.
      rewrite (in_dll_loaded _ _ n) by done. unfold write_flag.
      destruct (exported n "ext_fields"); [|done]. mrun.
      apply (setitem_int_loaded _ _ n); [done|].
      by rewrite <- (table_headers_length _ _ _ _ Ees).
    + apply list_find_eq_None in Ej as Hj. by rewrite bool_decide_false by done.
Qed.

(** *** The accessor on any state *)

Lemma libchadwick_run st :
  libchadwick st =
  match _dll st with
  | Some dll => (st, Ok dll)
  | None =>
    let st1 := with_load_calls (load_calls st ++ [library_path st]) st in
    match shared_objects st !! library_path st with
    | Some _ => (with_dll (Some (mkCDLL (library_path st))) st1,
                 Ok (mkCDLL (library_path st)))
    | None => (st1, Raise OSError)
    end
  end.
Proof.
  destruct (_dll st) as [dll|] eqn:E; [by apply libchadwick_stored|].
  unfold libchadwick. mrun. unfold gets. mrun. rewrite E. mrun.
  unfold _load_shared_library, LoadLibrary. mrun.
  by destruct (shared_objects st !! library_path st).
Qed.

(** A successful access leaves a stored handle and touches neither the
    globals nor the log; a second access finds the handle. *)
Lemma libchadwick_Ok st st1 dll :
  libchadwick st = (st1, Ok dll) →
  _dll st1 = Some dll ∧ shared_objects st1 = shared_objects st ∧
  warnings st1 = warnings st ∧ library_path st1 = library_path st ∧
  libchadwick st1 = (st1, Ok dll).
Proof.
  rewrite libchadwick_run. destruct (_dll st) as [d|] eqn:E.
  - intros [= <- <-]. by rewrite libchadwick_run, E.
  - cbv zeta. destruct (shared_objects st !! library_path st); [|done].
    intros [= <- <-]. by rewrite libchadwick_run.
Qed.

Lemma libchadwick_Raise st st1 e :
  libchadwick st = (st1, Raise e) →
  shared_objects st1 = shared_objects st ∧ warnings st1 = warnings st.
Proof.
  rewrite libchadwick_run. destruct (_dll st); [done|]. cbv zeta.
  destruct (shared_objects st !! library_path st); [done|]. by intros [= <- _].
Qed.

(** Whatever starts with the accessor runs, from the state the accessor
    leaves, as it runs from the original state. *)
Lemma after_libchadwick {A} (k : CDLL → M A) st st1 dll :
  libchadwick st = (st1, Ok dll) →
  (libchadwick ≫= k) st = (libchadwick ≫= k) st1.
Proof.
  intros H. destruct (libchadwick_Ok _ _ _ H) as (_ & _ & _ & _ & H1).
  mrun. by rewrite H, H1.
Qed.

Lemma bind_assoc_run {A B C} (m : M A) (f : A → M B) (g : B → M C) st :
  ((m ≫= f) ≫= g) st = (m ≫= (λ a, f a ≫= g)) st.
Proof. mrun. by destruct (m st) as [? []]. Qed.

Lemma headers_settle len sym st st1 dll :
  libchadwick st = (st1, Ok dll) →
  (a ← (dll ← libchadwick; in_dll len dll sym);
   for_array a (λ p, lift (decode (header p)))) st
  = (a ← (dll ← libchadwick; in_dll len dll sym);
     for_array a (λ p, lift (decode (header p)))) st1.
Proof.
  intros H. rewrite !bind_assoc_run. by eapply after_libchadwick.
Qed.

Lemma set_event_field_value_settle field_name value st st1 dll :
  libchadwick st = (st1, Ok dll) →
  set_event_field_value field_name value st = set_event_field_value field_name value st1.
Proof.
  intros H. unfold set_event_field_value.
  rewrite (bind_run cwevent_headers), (bind_run cwevent_headers _ st1).
  unfold cwevent_headers at 1 3, cwevent_field_data.
  by rewrite (headers_settle _ _ _ _ _ H).
Qed.

(** If reading a table's headers succeeds, the accessor succeeds, and
    the headers are those of the library behind the handle. *)
Lemma headers_Ok len sym st hs :
  ((a ← (dll ← libchadwick; in_dll len dll sym);
    for_array a (λ p, lift (decode (header p)))) st).2 = Ok hs →
  ∃ st1 dll n,
    libchadwick st = (st1, Ok dll) ∧ loaded st1 dll n ∧
    table_headers n sym len = Ok hs.
Proof.
  destruct (libchadwick st) as [st1 [dll|e]] eqn:E.
  - rewrite (headers_settle _ _ _ _ _ E).
    destruct (libchadwick_Ok _ _ _ E) as (Hd & _).
    destruct (shared_objects st1 !! _name dll) as [n|] eqn:En.
    + rewrite (headers_loaded st1 dll n) by done. simpl. intros H.
      by exists st1, dll, n.
    + mrun. rewrite (libchadwick_stored _ dll) by done. mrun.
      unfold in_dll. mrun. unfold native_of. by rewrite En.
  - mrun. by rewrite E.
Qed.

Lemma standard_flags_settle st st1 dll :
  libchadwick st = (st1, Ok dll) → standard_flags st = standard_flags st1.
Proof.
  intros H. unfold standard_flags, cwevent_fields.
  rewrite !bind_assoc_run. by eapply after_libchadwick.
Qed.

Lemma extended_flags_settle st st1 dll :
  libchadwick st = (st1, Ok dll) → extended_flags st = extended_flags st1.
Proof.
  intros H. unfold extended_flags, cwevent_ext_fields.
  rewrite !bind_assoc_run. by eapply after_libchadwick.
Qed.

Lemma cwevent_headers_settle st st1 dll :
  libchadwick st = (st1, Ok dll) → cwevent_headers st = cwevent_headers st1.
Proof. apply headers_settle. Qed.

Lemma cwevent_ext_headers_settle st st1 dll :
  libchadwick st = (st1, Ok dll) → cwevent_ext_headers st = cwevent_ext_headers st1.
Proof. apply headers_settle. Qed.

Lemma cwevent_headers_Ok st hs :
  (cwevent_headers st).2 = Ok hs →
  ∃ st1 dll n,
    libchadwick st = (st1, Ok dll) ∧ loaded st1 dll n ∧
    table_headers n "cwevent_field_data" FIELDS_COUNT = Ok hs.
Proof. apply headers_Ok. Qed.

Lemma cwevent_ext_headers_Ok st es :
  (cwevent_ext_headers st).2 = Ok es →
  ∃ st1 dll n,
    libchadwick st = (st1, Ok dll) ∧ loaded st1 dll n ∧
    table_headers n "cwevent_ext_field_data" EXT_FIELDS_COUNT = Ok es.
Proof. apply headers_Ok. Qed.

(** *** What a write changes *)

Lemma table_flags_poke n sym i v len :
  table_flags (poke sym i v n) sym len = <[i := c_int v]> (table_flags n sym len).
Proof.
  apply list_eq. intros j. unfold table_flags.
  destruct (decide (j < len)) as [Hj|Hj].
  - rewrite list_lookup_fmap, lookup_seq_lt by done. simpl.
    rewrite fn_lookup_insert.
    destruct (decide (i = j)) as [->|Hne].
    + rewrite fn_lookup_insert, list_lookup_insert_eq; [done|].
      by rewrite length_map, length_seq.
    + rewrite fn_lookup_insert_ne by done.
      rewrite list_lookup_insert_ne by done.
      by rewrite list_lookup_fmap, lookup_seq_lt.
  - rewrite !lookup_ge_None_2; [done| |].
    + rewrite length_insert, length_map, length_seq. lia.
    + rewrite length_map, length_seq. lia.
Qed.

Lemma table_flags_poke_ne n sym sym' i v len :
  sym ≠ sym' → table_flags (poke sym i v n) sym' len = table_flags n sym' len.
Proof.
  intros H. unfold table_flags, poke. simpl. by rewrite fn_lookup_insert_ne.
Qed.

Lemma table_headers_poke n sym sym' i v len :
  table_headers (poke sym i v n) sym' len = table_headers n sym' len.
Proof. reflexivity. Qed.

(** A C int holds the values of its range as they are. *)
Lemma c_int_id (v : Z) : (- 2 ^ 31 ≤ v < 2 ^ 31)%Z → c_int v = v.
Proof. intros H. unfold c_int. rewrite Z.mod_small; lia. Qed.

(** ** Setting a field by name *)

(** C4: a name in neither header list: the call returns normally, logs
    one warning and changes nothing in the globals of any shared object;
    both flag tables and both header lists read as before. The same holds
    for [set_event_field] and [unset_event_field]. *)
Theorem unknown_field_name_is_skipped
    (st : State) (field_name : str) (value : Z) (hs es : list str) :
  (cwevent_headers st).2 = Ok hs →
  (cwevent_ext_headers st).2 = Ok es →
  field_name ∉ hs →
  field_name ∉ es →
  ∀ m, m ∈ [set_event_field_value field_name value;
            set_event_field field_name; unset_event_field field_name] →
  ∃ st',
    m st = (st', Ok tt) ∧
    warnings st' = warnings st ++ [not_in_headers_message field_name] ∧
    shared_objects st' = shared_objects st ∧
    (standard_flags st').2 = (standard_flags st).2 ∧
    (extended_flags st').2 = (extended_flags st).2 ∧
    (cwevent_headers st').2 = Ok hs ∧
    (cwevent_ext_headers st').2 = Ok es.
Proof.
  intros Hhs Hes Hnh Hne m Hm.
  assert (∃ v, m = set_event_field_value field_name v) as [v ->].
  { rewrite !elem_of_cons in Hm.
    destruct Hm as [->|[->|[->|Hm]]]; [by eexists..|by apply elem_of_nil in Hm]. }
  destruct (cwevent_headers_Ok _ _ Hhs) as (st1 & dll & n & Hlib & Hl & Hn).
  destruct (cwevent_ext_headers_Ok _ _ Hes) as (st2 & dll2 & n2 & Hlib2 & Hl2 & Hn2).
  assert (st2 = st1 ∧ dll2 = dll) as [-> ->] by (split; congruence).
  assert (n2 = n) as -> by (destruct Hl, Hl2; congruence).
  destruct (libchadwick_Ok _ _ _ Hlib) as (Hd & Hso & Hw & _).
  rewrite (set_event_field_value_settle _ _ _ _ _ Hlib).
  rewrite (set_event_field_value_loaded _ _ _ _ _ Hl), Hn, Hn2.
  apply list_find_eq_None in Hnh, Hne. rewrite Hnh, Hne.
  assert (loaded (with_warnings (warnings st1 ++ [not_in_headers_message field_name]) st1)
            dll n) as Hl' by apply Hl.
  eexists. split; [done|].
  rewrite (standard_flags_settle _ _ _ Hlib), (extended_flags_settle _ _ _ Hlib).
  rewrite (standard_flags_loaded _ _ _ Hl), (standard_flags_loaded _ _ _ Hl').
  rewrite (extended_flags_loaded _ _ _ Hl), (extended_flags_loaded _ _ _ Hl').
  rewrite (cwevent_headers_loaded _ _ _ Hl'), (cwevent_ext_headers_loaded _ _ _ Hl').
  simpl. by rewrite Hw, Hso.
Qed.

Lemma unknown_field_name_is_skipped_witness :
  (cwevent_headers sample_object).2 = Ok (sample_headers "F" 96) ∧
  (cwevent_ext_headers sample_object).2 = Ok (sample_headers "E" 63) ∧
  (pystr "NOPE" ∉ sample_headers "F" 96) ∧
  (pystr "NOPE" ∉ sample_headers "E" 63) ∧
  ∀ m, m ∈ [set_event_field_value (pystr "NOPE") 1;
            set_event_field (pystr "NOPE"); unset_event_field (pystr "NOPE")] →
  ∃ st',
    m sample_object = (st', Ok tt) ∧
    warnings st' = warnings sample_object ++ [not_in_headers_message (pystr "NOPE")] ∧
    shared_objects st' = shared_objects sample_object ∧
    (standard_flags st').2 = (standard_flags sample_object).2 ∧
    (extended_flags st').2 = (extended_flags sample_object).2 ∧
    (cwevent_headers st').2 = Ok (sample_headers "F" 96) ∧
    (cwevent_ext_headers st').2 = Ok (sample_headers "E" 63).
Proof.
  assert ((cwevent_headers sample_object).2 = Ok (sample_headers "F" 96)) as H1
    by (vm_compute; reflexivity).
  assert ((cwevent_ext_headers sample_object).2 = Ok (sample_headers "E" 63)) as H2
    by (vm_compute; reflexivity).
  assert (pystr "NOPE" ∉ sample_headers "F" 96) as H3
    by (refine (bool_decide_unpack _ _); vm_compute; exact I).
  assert (pystr "NOPE" ∉ sample_headers "E" 63) as H4
    by (refine (bool_decide_unpack _ _); vm_compute; exact I).
  repeat (split; [assumption|]).
  exact (unknown_field_name_is_skipped sample_object (pystr "NOPE") 1 _ _ H1 H2 H3 H4).
Defined.

(** C10: a name found in the standard header list, with the standard
    flags readable: the value (as a C int) is written at the first
    position of the name in the standard table and nowhere else; the
    extended table reads as before, also when the name occurs there
    too. A name found only in the extended list: the same with the
    tables exchanged. Values of the C int range (such as 0 and 1) are
    stored as they are. *)
Theorem set_event_field_value_first_match
    (st : State) (field_name : str) (value : Z) (hs : list str) :
  (cwevent_headers st).2 = Ok hs →
  (field_name ∈ hs →
   ∀ flags, (standard_flags st).2 = Ok flags →
     ∃ i st',
       hs !! i = Some field_name ∧ (∀ j, j < i → hs !! j ≠ Some field_name) ∧
       set_event_field_value field_name value st = (st', Ok tt) ∧
       i < length flags ∧
       (standard_flags st').2 = Ok (<[i := c_int value]> flags) ∧
       (extended_flags st').2 = (extended_flags st).2 ∧
       warnings st' = warnings st)
  ∧
  (field_name ∉ hs →
   ∀ es, (cwevent_ext_headers st).2 = Ok es → field_name ∈ es →
   ∀ flags, (extended_flags st).2 = Ok flags →
     ∃ i st',
       es !! i = Some field_name ∧ (∀ j, j < i → es !! j ≠ Some field_name) ∧
       set_event_field_value field_name value st = (st', Ok tt) ∧
       i < length flags ∧
       (extended_flags st').2 = Ok (<[i := c_int value]> flags) ∧
       (standard_flags st').2 = (standard_flags st).2 ∧
       warnings st' = warnings st)
  ∧
  ((- 2 ^ 31 ≤ value < 2 ^ 31)%Z → c_int value = value).
Proof.
  intros Hhs.
  destruct (cwevent_headers_Ok _ _ Hhs) as (st1 & dll & n & Hlib & Hl & Hn).
  destruct (libchadwick_Ok _ _ _ Hlib) as (Hd & Hso & Hw & _).
  split; [|split; [|apply c_int_id]].
  - intros Hin flags Hflags.
    rewrite (standard_flags_settle _ _ _ Hlib) in Hflags.
    destruct (standard_flags_exported _ _ _ _ Hl Hflags) as [Hx ->].
    destruct (list_find (λ h, h = field_name) hs) as [[i y]|] eqn:Ei;
      [|by apply list_find_eq_None in Ei].
    destruct (list_find_eq_Some _ _ _ _ Ei) as (-> & Hi & Hlt & Hfirst).
    exists i, (store st1 dll (poke "fields" i value n)).
    assert (loaded (store st1 dll (poke "fields" i value n)) dll (poke "fields" i value n))
      as Hl' by by apply store_loaded.
    split; [done|]. split; [done|]. split.
    { rewrite (set_event_field_value_settle _ _ _ _ _ Hlib).
      rewrite (set_event_field_value_loaded _ _ _ _ _ Hl), Hn, Ei.
      unfold write_flag. by rewrite Hx. }
    rewrite (extended_flags_settle _ _ _ Hlib).
    rewrite (standard_flags_loaded _ _ _ Hl').
    rewrite (extended_flags_loaded _ _ _ Hl), (extended_flags_loaded _ _ _ Hl').
    cbn [exported poke]. rewrite Hx.
    rewrite table_flags_poke, table_flags_poke_ne by done.
    rewrite table_flags_length, <- (table_headers_length _ _ _ _ Hn).
    done.
  - intros Hnin es Hes Hin flags Hflags.
    destruct (cwevent_ext_headers_Ok _ _ Hes) as (st2 & dll2 & n2 & Hlib2 & Hl2 & Hn2).
    assert (st2 = st1 ∧ dll2 = dll) as [-> ->] by (split; congruence).
    assert (n2 = n) as -> by (destruct Hl, Hl2; congruence).
    rewrite (extended_flags_settle _ _ _ Hlib) in Hflags.
    destruct (extended_flags_exported _ _ _ _ Hl Hflags) as [Hx ->].
    apply list_find_eq_None in Hnin.
    destruct (list_find (λ h, h = field_name) es) as [[i y]|] eqn:Ei;
      [|by apply list_find_eq_None in Ei].
    destruct (list_find_eq_Some _ _ _ _ Ei) as (-> & Hi & Hlt & Hfirst).
    exists i, (store st1 dll (poke "ext_fields" i value n)).
    assert (loaded (store st1 dll (poke "ext_fields" i value n)) dll
              (poke "ext_fields" i value n)) as Hl' by by apply store_loaded.
    split; [done|]. split; [done|]. split.
    { rewrite (set_event_field_value_settle _ _ _ _ _ Hlib).
      rewrite (set_event_field_value_loaded _ _ _ _ _ Hl), Hn, Hnin, Hn2, Ei.
      unfold write_flag. by rewrite Hx. }
    rewrite (standard_flags_settle _ _ _ Hlib).
    rewrite (standard_flags_loaded _ _ _ Hl), (standard_flags_loaded _ _ _ Hl').
    rewrite (extended_flags_loaded _ _ _ Hl').
    cbn [exported poke]. rewrite Hx.
    rewrite table_flags_poke, table_flags_poke_ne by done.
    rewrite table_flags_length, <- (table_headers_length _ _ _ _ Hn2).
    done.
Qed.

(** The name [H] stands in every row of both tables: only flag 0 of the
    standard table is written. *)
Example set_repeated_name :
  ∃ st',
    set_event_field_value (pystr "H") 1 repeated_object = (st', Ok tt) ∧
    (standard_flags st').2 = Ok (1%Z :: replicate 95 0%Z) ∧
    (extended_flags st').2 = Ok (replicate 63 0%Z).
Proof.
  eexists. split; [vm_compute; reflexivity|]. split; vm_compute; reflexivity.
Qed.

(** The name [E05] stands only in row 5 of the extended table. *)
Example unset_extended_name :
  ∃ st',
    unset_event_field (pystr "E05") sample_object = (st', Ok tt) ∧
    (standard_flags st').2 = (standard_flags sample_object).2 ∧
    (extended_flags st').2 = Ok (replicate 63 0%Z) ∧
    (∃ st'', set_event_field (pystr "E05") st' = (st'', Ok tt) ∧
       (extended_flags st'').2 = Ok (<[5 := 1%Z]> (replicate 63 0%Z))).
Proof.
  eexists. split; [vm_compute; reflexivity|]. split; [vm_compute; reflexivity|].
  split; [vm_compute; reflexivity|].
  eexists. split; vm_compute; reflexivity.
Qed.

Lemma set_event_field_value_first_match_witness :
  (cwevent_headers repeated_object).2 = Ok (replicate 96 (pystr "H")) ∧
  pystr "H" ∈ replicate 96 (pystr "H") ∧
  (standard_flags repeated_object).2 = Ok (replicate 96 0%Z) ∧
  ∃ i st',
    replicate 96 (pystr "H") !! i = Some (pystr "H") ∧
    (∀ j, j < i → replicate 96 (pystr "H") !! j ≠ Some (pystr "H")) ∧
    set_event_field_value (pystr "H") 1 repeated_object = (st', Ok tt) ∧
    i < length (replicate 96 0%Z) ∧
    (standard_flags st').2 = Ok (<[i := c_int 1]> (replicate 96 0%Z)) ∧
    (extended_flags st').2 = (extended_flags repeated_object).2 ∧
    warnings st' = warnings repeated_object.
Proof.
  assert ((cwevent_headers repeated_object).2 = Ok (replicate 96 (pystr "H"))) as H1
    by (vm_compute; reflexivity).
  assert (pystr "H" ∈ replicate 96 (pystr "H")) as H2
    by (refine (bool_decide_unpack _ _); vm_compute; exact I).
  assert ((standard_flags repeated_object).2 = Ok (replicate 96 0%Z)) as H3
    by (vm_compute; reflexivity).
  split; [assumption|]. split; [assumption|]. split; [assumption|].
  exact (proj1 (set_event_field_value_first_match
                  repeated_object (pystr "H") 1 _ H1) H2 _ H3).
Defined.

(** ** The two tables and the active headers *)

Lemma enabled_cons h names f flags :
  enabled (h :: names) (f :: flags) =
  if (f =? 1)%Z then h :: enabled names flags else enabled names flags.
Proof.
  unfold enabled. simpl. rewrite filter_cons. simpl.
  destruct (Z.eqb_spec f 1).
  - by rewrite decide_True.
  - by rewrite decide_False.
Qed.

Lemma enabled_all names n :
  length names = n → enabled names (replicate n 1%Z) = names.
Proof.
  revert n. induction names as [|h names IH]; intros n Hn; [by subst|].
  destruct n as [|n]; [done|]. simpl. rewrite enabled_cons. simpl.
  f_equal. apply IH. simpl in Hn. lia.
Qed.

Lemma filter_enumerate_loaded st dll n len sym i (l : list str) :
  loaded st dll n → exported n sym = true → i + length l ≤ len →
  filter_enumerate
    (λ i, a ← (dll ← libchadwick; in_dll len dll sym);
          v ← getitem_int a i; mret (v =? 1)%Z) i l st
  = (st, Ok (enabled l (map (int_data n sym) (seq i (length l))))).
Proof.
  intros H Hx. revert i. induction l as [|h l IH]; intros i Hi; [done|].
  cbn [filter_enumerate length seq map]. mrun.
  rewrite (libchadwick_stored _ dll) by apply H. mrun.
  rewrite (in_dll_loaded _ _ n), Hx by done. mrun.
  unfold getitem_int at 1. cbn [arr_length arr_dll arr_symbol].
  simpl in Hi. rewrite bool_decide_true by lia. mrun.
  rewrite (native_of_loaded _ _ n) by done. mrun.
  rewrite IH by lia. mrun. by rewrite enabled_cons.
Qed.

Lemma filter_enumerate_hidden st dll n len sym i (l : list str) :
  loaded st dll n → exported n sym = false → l ≠ [] →
  filter_enumerate
    (λ i, a ← (dll ← libchadwick; in_dll len dll sym);
          v ← getitem_int a i; mret (v =? 1)%Z) i l st
  = (st, Raise ValueError).
Proof.
  intros H Hx Hl. destruct l as [|h l]; [done|].
  cbn [filter_enumerate]. mrun.
  rewrite (libchadwick_stored _ dll) by apply H. mrun.
  by rewrite (in_dll_loaded _ _ n), Hx by done.
Qed.

Lemma table_headers_nonempty n sym len hs :
  table_headers n sym len = Ok hs → 0 < len → hs ≠ [].
Proof. intros H%table_headers_length Hlen ->. simpl in H. lia. Qed.

Lemma active_headers_loaded st dll n :
  loaded st dll n →
  active_headers st = (st, active_names n).
Proof.
  intros H. unfold active_headers, active_names, flags_view. mrun.
  rewrite (cwevent_headers_loaded _ _ _ H).
  destruct (table_headers n "cwevent_field_data" FIELDS_COUNT) as [hs|e] eqn:Ehs; [|done].
  mrun. unfold cwevent_fields.
  destruct (exported n "fields") eqn:Hx.
  2:{ rewrite (filter_enumerate_hidden _ _ _ _ _ _ _ H Hx); [done|].
      eapply table_headers_nonempty; [done|]. unfold FIELDS_COUNT. lia. }
  rewrite (filter_enumerate_loaded _ _ _ _ _ _ _ H Hx)
    by (rewrite (table_headers_length _ _ _ _ Ehs); lia).
  mrun. rewrite (cwevent_ext_headers_loaded _ _ _ H).
  destruct (table_headers n "cwevent_ext_field_data" EXT_FIELDS_COUNT) as [es|e] eqn:Ees;
    [|done].
  mrun. unfold cwevent_ext_fields.
  destruct (exported n "ext_fields") eqn:Hy.
  2:{ rewrite (filter_enumerate_hidden _ _ _ _ _ _ _ H Hy); [done|].
      eapply table_headers_nonempty; [done|]. unfold EXT_FIELDS_COUNT. lia. }
  rewrite (filter_enumerate_loaded _ _ _ _ _ _ _ H Hy)
    by (rewrite (table_headers_length _ _ _ _ Ees); lia).
  mrun. unfold table_flags.
  by rewrite (table_headers_length _ _ _ _ Ehs), (table_headers_length _ _ _ _ Ees).
Qed.

(** When the active headers can be read, all four tables can. *)
Lemma active_names_Ok n act :
  active_names n = Ok act →
  ∃ hs es,
    table_headers n "cwevent_field_data" FIELDS_COUNT = Ok hs ∧
    table_headers n "cwevent_ext_field_data" EXT_FIELDS_COUNT = Ok es ∧
    exported n "fields" = true ∧ exported n "ext_fields" = true ∧
    act = enabled hs (table_flags n "fields" FIELDS_COUNT)
          ++ enabled es (table_flags n "ext_fields" EXT_FIELDS_COUNT).
Proof.
  unfold active_names, flags_view.
  destruct (table_headers n "cwevent_field_data" FIELDS_COUNT) as [hs|]; [|done].
  destruct (exported n "fields"); [|done].
  destruct (table_headers n "cwevent_ext_field_data" EXT_FIELDS_COUNT) as [es|]; [|done].
  destruct (exported n "ext_fields"); [|done].
  intros [= <-]. by exists hs, es.
Qed.

Lemma active_names_exported n hs es :
  table_headers n "cwevent_field_data" FIELDS_COUNT = Ok hs →
  table_headers n "cwevent_ext_field_data" EXT_FIELDS_COUNT = Ok es →
  exported n "fields" = true → exported n "ext_fields" = true →
  active_names n = Ok (enabled hs (table_flags n "fields" FIELDS_COUNT)
                       ++ enabled es (table_flags n "ext_fields" EXT_FIELDS_COUNT)).
Proof. intros H1 H2 H3 H4. unfold active_names, flags_view. by rewrite H1, H2, H3, H4. Qed.

Lemma active_headers_settle st st1 dll :
  libchadwick st = (st1, Ok dll) → active_headers st = active_headers st1.
Proof.
  intros H. unfold active_headers.
  rewrite (bind_run cwevent_headers), (bind_run cwevent_headers _ st1).
  by rewrite (cwevent_headers_settle _ _ _ H).
Qed.

Lemma all_headers_loaded st dll n :
  loaded st dll n →
  all_headers st =
  (st, match table_headers n "cwevent_field_data" FIELDS_COUNT with
       | Ok hs =>
         match table_headers n "cwevent_ext_field_data" EXT_FIELDS_COUNT with
         | Ok es => Ok (hs ++ es)
         | Raise e => Raise e
         end
       | Raise e => Raise e
       end).
Proof.
  intros H. unfold all_headers. mrun.
  rewrite (cwevent_headers_loaded _ _ _ H).
  destruct (table_headers n "cwevent_field_data" FIELDS_COUNT); [|done].
  mrun. rewrite (cwevent_ext_headers_loaded _ _ _ H).
  by destruct (table_headers n "cwevent_ext_field_data" EXT_FIELDS_COUNT).
Qed.

(** C6: the binding views the globals [cwevent_field_data] and [fields]
    as arrays of exactly 96 elements and [cwevent_ext_field_data] and
    [ext_fields] as arrays of exactly 63; the header list and the flag
    list of a table have that length, and a row's name is active exactly
    through the flag at the same position of the parallel array. *)
Theorem field_tables_are_fixed_size (st : State) :
  FIELDS_COUNT = 96 ∧ EXT_FIELDS_COUNT = 63 ∧
  (∀ a, (cwevent_field_data st).2 = Ok a →
     arr_symbol a = "cwevent_field_data" ∧ arr_length a = 96) ∧
  (∀ a, (cwevent_fields st).2 = Ok a → arr_symbol a = "fields" ∧ arr_length a = 96) ∧
  (∀ a, (cwevent_ext_field_data st).2 = Ok a →
     arr_symbol a = "cwevent_ext_field_data" ∧ arr_length a = 63) ∧
  (∀ a, (cwevent_ext_fields st).2 = Ok a →
     arr_symbol a = "ext_fields" ∧ arr_length a = 63) ∧
  (∀ hs es flags eflags,
     (cwevent_headers st).2 = Ok hs → (cwevent_ext_headers st).2 = Ok es →
     (standard_flags st).2 = Ok flags → (extended_flags st).2 = Ok eflags →
     length hs = 96 ∧ length flags = 96 ∧ length es = 63 ∧ length eflags = 63 ∧
     (active_headers st).2 = Ok (enabled hs flags ++ enabled es eflags)).
Proof.
  split; [done|]. split; [done|].
  assert (∀ len sym a,
    ((dll ← libchadwick; in_dll len dll sym) st).2 = Ok a →
    arr_symbol a = sym ∧ arr_length a = len) as Hview.
  { intros len sym a. mrun. destruct (libchadwick st) as [st1 [dll|e]]; [|done].
    unfold in_dll, native_of. mrun.
    destruct (shared_objects st1 !! _name dll) as [n|]; [|done]. mrun.
    destruct (exported n sym); [|done]. by intros [= <-]. }
  repeat (split; [intros a Ha; by apply Hview in Ha|]).
  intros hs es flags eflags Hhs Hes Hf He.
  destruct (cwevent_headers_Ok _ _ Hhs) as (st1 & dll & n & Hlib & Hl & Hn).
  destruct (cwevent_ext_headers_Ok _ _ Hes) as (st2 & dll2 & n2 & Hlib2 & Hl2 & Hn2).
  assert (st2 = st1 ∧ dll2 = dll) as [-> ->] by (split; congruence).
  assert (n2 = n) as -> by (destruct Hl, Hl2; congruence).
  rewrite (standard_flags_settle _ _ _ Hlib) in Hf.
  rewrite (extended_flags_settle _ _ _ Hlib) in He.
  destruct (standard_flags_exported _ _ _ _ Hl Hf) as [Hx ->].
  destruct (extended_flags_exported _ _ _ _ Hl He) as [Hy ->].
  rewrite (active_headers_settle _ _ _ Hlib).
  rewrite (active_headers_loaded _ _ _ Hl), (active_names_exported n hs es) by done.
  rewrite !table_flags_length.
  rewrite (table_headers_length _ _ _ _ Hn), (table_headers_length _ _ _ _ Hn2).
  done.
Qed.

Lemma field_tables_are_fixed_size_witness :
  (cwevent_headers sample_object).2 = Ok (sample_headers "F" 96) ∧
  (cwevent_ext_headers sample_object).2 = Ok (sample_headers "E" 63) ∧
  (standard_flags sample_object).2 = Ok (replicate 96 0%Z) ∧
  (extended_flags sample_object).2 = Ok (replicate 63 0%Z) ∧
  length (sample_headers "F" 96) = 96 ∧ length (replicate 96 0%Z) = 96 ∧
  length (sample_headers "E" 63) = 63 ∧ length (replicate 63 0%Z) = 63 ∧
  (active_headers sample_object).2
    = Ok (enabled (sample_headers "F" 96) (replicate 96 0%Z)
          ++ enabled (sample_headers "E" 63) (replicate 63 0%Z)).
Proof.
  assert ((cwevent_headers sample_object).2 = Ok (sample_headers "F" 96)) as H1
    by (vm_compute; reflexivity).
  assert ((cwevent_ext_headers sample_object).2 = Ok (sample_headers "E" 63)) as H2
    by (vm_compute; reflexivity).
  assert ((standard_flags sample_object).2 = Ok (replicate 96 0%Z)) as H3
    by (vm_compute; reflexivity).
  assert ((extended_flags sample_object).2 = Ok (replicate 63 0%Z)) as H4
    by (vm_compute; reflexivity).
  split; [exact H1|]. split; [exact H2|]. split; [exact H3|]. split; [exact H4|].
  exact (proj2 (proj2 (proj2 (proj2 (proj2 (proj2
           (field_tables_are_fixed_size sample_object)))))) _ _ _ _ H1 H2 H3 H4).
Defined.

(** ** The stored handle is kept *)

Create HintDb keeps discriminated.

Lemma keeps_ret {A} (a : A) : keeps_handle (mret a).
Proof. by intros st dll H. Qed.

Lemma keeps_raise {A} e : keeps_handle (raise (A := A) e).
Proof. by intros st dll H. Qed.

Lemma keeps_lift {A} (r : result A) : keeps_handle (lift r).
Proof. by intros st dll H. Qed.

Lemma keeps_gets {A} (f : State → A) : keeps_handle (gets f).
Proof. by intros st dll H. Qed.

Lemma keeps_bind {A B} (m : M A) (f : A → M B) :
  keeps_handle m → (∀ a, keeps_handle (f a)) → keeps_handle (m ≫= f).
Proof.
  intros Hm Hf st dll H. rewrite bind_run.
  destruct (Hm st dll H) as [H1 H2]. destruct (m st) as [st1 [a|e]]; simpl in *.
  - destruct (Hf a st1 dll H1) as [H3 H4]. split; congruence.
  - done.
Qed.

Lemma keeps_libchadwick : keeps_handle libchadwick.
Proof. intros st dll H. by rewrite (libchadwick_stored _ dll). Qed.

Lemma keeps_native_of dll : keeps_handle (native_of dll).
Proof.
  intros st d H. unfold native_of. by destruct (shared_objects st !! _name dll).
Qed.

Lemma keeps_with_shared_objects (f : State → gmap str Native) :
  keeps_handle (modify (λ st, with_shared_objects (f st) st)).
Proof. by intros st dll H. Qed.

Lemma keeps_logging_warn msg : keeps_handle (logging_warn msg).
Proof. by intros st dll H. Qed.

Lemma keeps_if {A} (b : bool) (m1 m2 : M A) :
  keeps_handle m1 → keeps_handle m2 → keeps_handle (if b then m1 else m2).
Proof. by destruct b. Qed.

Lemma keeps_for_list {A B} (f : A → M B) l :
  (∀ a, keeps_handle (f a)) → keeps_handle (for_list f l).
Proof.
  intros Hf. induction l as [|x l IH]; [apply keeps_ret|].
  cbn [for_list]. apply keeps_bind; [done|]. intros y.
  apply keeps_bind; [done|]. intros ys. apply keeps_ret.
Qed.

Lemma keeps_filter_enumerate {A} (keep : nat → M bool) i (l : list A) :
  (∀ i, keeps_handle (keep i)) → keeps_handle (filter_enumerate keep i l).
Proof.
  intros Hk. revert i. induction l as [|x l IH]; intros i; [apply keeps_ret|].
  cbn [filter_enumerate]. apply keeps_bind; [done|]. intros b.
  apply keeps_bind; [done|]. intros hs. apply keeps_ret.
Qed.

#[local] Hint Resolve keeps_ret keeps_raise keeps_lift keeps_gets keeps_libchadwick
  keeps_native_of keeps_with_shared_objects keeps_logging_warn keeps_if
  keeps_for_list keeps_filter_enumerate : keeps.
#[local] Hint Extern 2 (keeps_handle (_ ≫= _)) => apply keeps_bind; [|intros ?] : keeps.
#[local] Hint Extern 5 (keeps_handle (match ?x with _ => _ end)) => destruct x : keeps.

Ltac keeps := auto 20 with keeps.

Lemma keeps_in_dll len dll sym : keeps_handle (in_dll len dll sym).
Proof. unfold in_dll. keeps. Qed.

Lemma keeps_getitem_struct a i : keeps_handle (getitem_struct a i).
Proof. unfold getitem_struct. keeps. Qed.

Lemma keeps_getitem_int a i : keeps_handle (getitem_int a i).
Proof. unfold getitem_int. keeps. Qed.

Lemma keeps_setitem_int a i v : keeps_handle (setitem_int a i v).
Proof. unfold setitem_int. keeps. Qed.

#[local] Hint Resolve keeps_in_dll keeps_getitem_struct keeps_getitem_int
  keeps_setitem_int : keeps.

Lemma keeps_cwevent_headers : keeps_handle cwevent_headers.
Proof. unfold cwevent_headers, cwevent_field_data, for_array. keeps. Qed.

Lemma keeps_cwevent_ext_headers : keeps_handle cwevent_ext_headers.
Proof. unfold cwevent_ext_headers, cwevent_ext_field_data, for_array. keeps. Qed.

#[local] Hint Resolve keeps_cwevent_headers keeps_cwevent_ext_headers : keeps.

Lemma keeps_all_headers : keeps_handle all_headers.
Proof. unfold all_headers. keeps. Qed.

Lemma keeps_set_event_field_value field_name value :
  keeps_handle (set_event_field_value field_name value).
Proof.
  unfold set_event_field_value, index, cwevent_fields, cwevent_ext_fields. keeps.
Qed.

Lemma keeps_set_all_headers : keeps_handle set_all_headers.
Proof.
  unfold set_all_headers. apply keeps_bind; [apply keeps_all_headers|]. intros fs.
  apply keeps_bind; [|keeps]. apply keeps_for_list. intros f.
  apply keeps_set_event_field_value.
Qed.

Lemma keeps_active_headers : keeps_handle active_headers.
Proof. unfold active_headers, cwevent_fields, cwevent_ext_fields. keeps. Qed.

Lemma keeps_dicticize_event_string event_bytes headers :
  keeps_handle (dicticize_event_string event_bytes headers).
Proof.
  unfold dicticize_event_string. apply keeps_bind; [|keeps].
  destruct headers; [keeps|apply keeps_active_headers].
Qed.

Lemma keeps_games_step g r : keeps_handle (games_step g r).
Proof.
  unfold games_step, loop_head, except_handler, fopen, feof, fclose.
  destruct g, r; keeps.
Qed.

(** ** Construction *)

Lemma init_run path st0 :
  __init__ path st0 =
  let st1 := with_load_calls (load_calls st0 ++ [path]) (fresh path st0) in
  match shared_objects st0 !! path with
  | Some _ => set_all_headers (with_dll (Some (mkCDLL path)) st1)
  | None => (st1, Raise OSError)
  end.
Proof.
  unfold __init__. mrun. unfold modify. mrun.
  unfold _load_shared_library, LoadLibrary. mrun. cbn [shared_objects with_library_path with_dll].
  by destruct (shared_objects st0 !! path).
Qed.

(** C3, as stated, fails: constructing the object calls the loader; and
    the handle is not shared by the process: constructing a second
    object, after the first has loaded the library, calls the loader
    again. *)
Lemma construction_loads_the_library :
  let first := __init__ default_library_path sample_process in
  let second := __init__ default_library_path first.1 in
  first.2 = Ok tt ∧
  load_calls sample_process = [] ∧
  load_calls first.1 = [default_library_path] ∧
  load_calls first.1 ≠ load_calls sample_process ∧
  _dll first.1 = Some (mkCDLL default_library_path) ∧
  second.2 = Ok tt ∧
  load_calls second.1 = [default_library_path; default_library_path].
Proof. vm_compute. done. Qed.

Lemma keeps_process_game_step g r : keeps_handle (process_game_step g r).
Proof.
  unfold process_game_step, while_head, default_roster, cw_gameiter_create,
    cw_gameiter_next.
  destruct g as [| |f|f|f|f|], r; keeps.
  destruct (buffer_value (event_str f)); [keeps|].
  apply keeps_bind; [apply keeps_dicticize_event_string|keeps].
Qed.

Lemma keeps_run_events script : ∀ g st dll,
  _dll st = Some dll →
  _dll (run_events g script st).2.2 = Some dll ∧
  load_calls (run_events g script st).2.2 = load_calls st.
Proof.
  induction script as [|r script IH]; intros g st dll Hd; [done|].
  cbn [run_events].
  destruct (keeps_process_game_step g r st dll Hd) as [H1 H2].
  assert ((resume_events g r st).1 = (process_game_step g r st).1) as Hst.
  { unfold resume_events. by destruct (process_game_step g r st) as [? [?|?]]. }
  destruct (resume_events g r st) as [st' [g' rq]]. cbn [fst] in Hst. subst st'.
  destruct (IH g' _ dll H1) as [H3 H4].
  destruct (run_events g' script (process_game_step g r st).1) as [rqs final].
  cbn [fst snd] in *. split; [done|congruence].
Qed.

Lemma keeps_resume g r : ∀ st dll,
  _dll st = Some dll →
  _dll (resume g r st).1 = Some dll ∧ load_calls (resume g r st).1 = load_calls st.
Proof.
  intros st dll Hd. destruct (keeps_games_step g r st dll Hd) as [H1 H2].
  unfold resume. by destruct (games_step g r st) as [? [?|?]].
Qed.

(** C3 (amended): every construction resolves and loads the shared
    object by path at once, with exactly one call to the loader whatever
    was loaded before, and raises when the loader does; the handle is
    stored in [_dll]. The accessor loads only when no handle is stored:
    with a handle stored, the accessor, the table accessors, the header
    accessors, the methods that set fields, [active_headers],
    [dicticize_event_string], [fopen], [feof], [fclose],
    [cw_gameiter_create], [cw_gameiter_next] and every step and run of
    the generators [games] and [process_game] keep that handle and never
    call the loader. *)
Theorem library_is_loaded_at_construction (st0 : State) (path : str) :
  let st := (__init__ path st0).1 in
  load_calls st = load_calls st0 ++ [path] ∧
  (shared_objects st0 !! path = None → (__init__ path st0).2 = Raise OSError) ∧
  ((__init__ path st0).2 = Ok tt →
     _dll st = Some (mkCDLL path) ∧ libchadwick st = (st, Ok (mkCDLL path))) ∧
  (∀ s, match _dll s with
        | Some dll => libchadwick s = (s, Ok dll)
        | None => load_calls (libchadwick s).1 = load_calls s ++ [library_path s]
        end) ∧
  (∀ field_name value event_bytes headers g r,
     keeps_handle libchadwick ∧
     keeps_handle (set_event_field_value field_name value) ∧
     keeps_handle active_headers ∧
     keeps_handle all_headers ∧
     keeps_handle (dicticize_event_string event_bytes headers) ∧
     keeps_handle (games_step g r)) ∧
  (∀ field_name file_path mode file_handle game_ptr gameiter_ptr g r,
     keeps_handle cwevent_field_data ∧
     keeps_handle cwevent_fields ∧
     keeps_handle cwevent_ext_field_data ∧
     keeps_handle cwevent_ext_fields ∧
     keeps_handle cwevent_headers ∧
     keeps_handle cwevent_ext_headers ∧
     keeps_handle (set_event_field field_name) ∧
     keeps_handle (unset_event_field field_name) ∧
     keeps_handle set_all_headers ∧
     keeps_handle (fopen file_path mode) ∧
     keeps_handle (feof file_handle) ∧
     keeps_handle (fclose file_handle) ∧
     keeps_handle (cw_gameiter_create game_ptr) ∧
     keeps_handle (cw_gameiter_next gameiter_ptr) ∧
     keeps_handle (process_game_step g r)) ∧
  (∀ s dll, _dll s = Some dll →
     (∀ g r, _dll (resume g r s).1 = Some dll ∧
             load_calls (resume g r s).1 = load_calls s) ∧
     (∀ g script, _dll (run_events g script s).2.2 = Some dll ∧
                  load_calls (run_events g script s).2.2 = load_calls s)).
Proof.
  cbv zeta. rewrite init_run. cbv zeta.
  set (st1 := with_load_calls (load_calls st0 ++ [path]) (fresh path st0)).
  assert (_dll (with_dll (Some (mkCDLL path)) st1) = Some (mkCDLL path)) as Hd by done.
  pose proof (keeps_set_all_headers _ _ Hd) as [H1 H2].
  split; [|split; [|split; [|split]]].
  - by destruct (shared_objects st0 !! path).
  - by intros ->.
  - destruct (shared_objects st0 !! path); [|done].
    intros _. split; [done|]. by apply libchadwick_stored.
  - intros s. rewrite libchadwick_run. destruct (_dll s); [done|].
    cbv zeta. by destruct (shared_objects s !! library_path s).
  - split; [|split].
    + intros. split; [apply keeps_libchadwick|].
      split; [apply keeps_set_event_field_value|].
      split; [apply keeps_active_headers|].
      split; [apply keeps_all_headers|].
      split; [apply keeps_dicticize_event_string|apply keeps_games_step].
    + intros.
      split; [unfold cwevent_field_data; keeps|].
      split; [unfold cwevent_fields; keeps|].
      split; [unfold cwevent_ext_field_data; keeps|].
      split; [unfold cwevent_ext_fields; keeps|].
      split; [apply keeps_cwevent_headers|].
      split; [apply keeps_cwevent_ext_headers|].
      split; [apply keeps_set_event_field_value|].
      split; [apply keeps_set_event_field_value|].
      split; [apply keeps_set_all_headers|].
      split; [unfold fopen; keeps|].
      split; [unfold feof; keeps|].
      split; [unfold fclose; keeps|].
      split; [unfold cw_gameiter_create; keeps|].
      split; [unfold cw_gameiter_next; keeps|].
      apply keeps_process_game_step.
    + intros s dll Hs. split; intros.
      * by apply keeps_resume.
      * by apply keeps_run_events.
Qed.

Lemma library_is_loaded_at_construction_witness :
  let st := (__init__ default_library_path sample_process).1 in
  (__init__ default_library_path sample_process).2 = Ok tt ∧
  load_calls st = load_calls sample_process ++ [default_library_path] ∧
  _dll st = Some (mkCDLL default_library_path) ∧
  libchadwick st = (st, Ok (mkCDLL default_library_path)).
Proof.
  cbv zeta.
  assert ((__init__ default_library_path sample_process).2 = Ok tt) as H
    by (vm_compute; reflexivity).
  pose proof (library_is_loaded_at_construction sample_process default_library_path)
    as (Hcalls & _ & Hstored & _).
  split; [exact H|]. split; [exact Hcalls|]. exact (Hstored H).
Defined.

Lemma store_id st dll n : loaded st dll n → store st dll n = st.
Proof.
  intros [_ H]. unfold store, with_shared_objects.
  rewrite insert_id by done. by destruct st.
Qed.

Lemma store_store st dll n1 n2 : store (store st dll n1) dll n2 = store st dll n2.
Proof. unfold store, with_shared_objects. simpl. by rewrite insert_insert_eq. Qed.

Lemma int_data_poke sym i v n sym' j :
  int_data (poke sym i v n) sym' j =
  if decide (sym = sym' ∧ i = j) then c_int v else int_data n sym' j.
Proof.
  unfold poke. simpl. destruct (decide (sym = sym')) as [->|Hs].
  - rewrite fn_lookup_insert. destruct (decide (i = j)) as [->|Hi].
    + rewrite fn_lookup_insert. by rewrite decide_True.
    + rewrite fn_lookup_insert_ne by done. rewrite decide_False; [done|]. by intros [_ ?].
  - rewrite fn_lookup_insert_ne by done. rewrite decide_False; [done|]. by intros [? _].
Qed.

(** Enabling a list of known names, one after the other, stops with
    [ValueError] at the first name whose flag table cannot be viewed.
    Every flag is then 1 or as before; if all names were enabled, the
    flag at the first row of each name (in the standard table, else in
    the extended one) is 1. *)
Lemma set_event_fields_loaded (l : list str) :
  ∀ st dll n hs es,
    loaded st dll n →
    table_headers n "cwevent_field_data" FIELDS_COUNT = Ok hs →
    table_headers n "cwevent_ext_field_data" EXT_FIELDS_COUNT = Ok es →
    Forall (λ x, x ∈ hs ++ es) l →
    ∃ n',
      struct_data n' = struct_data n ∧ exported n' = exported n ∧
      (∀ sym j, int_data n' sym j = 1%Z ∨ int_data n' sym j = int_data n sym j) ∧
      ((Forall (writable n hs) l ∧
        ∃ r, for_list set_event_field l st = (store st dll n', Ok r) ∧
          (∀ x i y, x ∈ l → list_find (λ h, h = x) hs = Some (i, y) →
             int_data n' "fields" i = 1%Z) ∧
          (∀ x i y, x ∈ l → list_find (λ h, h = x) hs = None →
             list_find (λ h, h = x) es = Some (i, y) → int_data n' "ext_fields" i = 1%Z))
       ∨ (¬ Forall (writable n hs) l ∧
          for_list set_event_field l st = (store st dll n', Raise ValueError))).
Proof.
  induction l as [|x l IH]; intros st dll n hs es Hl Hhs Hes Hin.
  - exists n. rewrite store_id by done.
    split; [done|]. split; [done|]. split; [auto|]. left.
    split; [constructor|]. exists []. split; [done|].
    split; intros x i y Hx; by apply elem_of_nil in Hx.
  - inversion_clear Hin as [|? ? Hx Hin'].
    cbn [for_list]. mrun. unfold set_event_field at 1 3.
    rewrite (set_event_field_value_loaded _ _ _ _ _ Hl), Hhs.
    assert (∃ sym i,
      (match list_find (λ h, h = x) hs with
       | Some (i, _) => write_flag st dll n "fields" i 1
       | None =>
         match table_headers n "cwevent_ext_field_data" EXT_FIELDS_COUNT with
         | Raise e => (st, Raise e)
         | Ok es =>
           match list_find (λ h, h = x) es with
           | Some (i, _) => write_flag st dll n "ext_fields" i 1
           | None => (with_warnings (warnings st ++ [not_in_headers_message x]) st, Ok tt)
           end
         end
       end) = write_flag st dll n sym i 1 ∧
      sym = (if bool_decide (x ∈ hs) then "fields" else "ext_fields") ∧
      (∀ i' y, list_find (λ h, h = x) hs = Some (i', y) → sym = "fields" ∧ i' = i) ∧
      (∀ i' y, list_find (λ h, h = x) hs = None →
         list_find (λ h, h = x) es = Some (i', y) → sym = "ext_fields" ∧ i' = i))
      as (sym & i & -> & Hsym & Hstd & Hext).
    { destruct (list_find (λ h, h = x) hs) as [[i y]|] eqn:Ei.
      - exists "fields", i. split; [done|]. split; [|split; [|done]].
        + apply list_find_eq_Some in Ei as (_ & Hi & _).
          rewrite bool_decide_true; [done|]. by eapply list_elem_of_lookup_2.
        + by intros ? ? [= -> _].
      - rewrite Hes. destruct (list_find (λ h, h = x) es) as [[i y]|] eqn:Ej.
        + exists "ext_fields", i. split; [done|]. split; [|split; [done|]].
          * apply list_find_eq_None in Ei. by rewrite bool_decide_false.
          * by intros ? ? _ [= -> _].
        + apply list_find_eq_None in Ei, Ej. apply elem_of_app in Hx. tauto. }
    unfold write_flag. destruct (exported n sym) eqn:Hxs.
    2:{ exists n. rewrite store_id by done.
        split; [done|]. split; [done|]. split; [auto|]. right. split; [|done].
        intros Hall. apply list.Forall_cons in Hall as [Hw _].
        unfold writable in Hw. rewrite <- Hsym in Hw. congruence. }
    mrun. set (n1 := poke sym i 1 n).
    assert (loaded (store st dll n1) dll n1) as Hl1 by (apply store_loaded, Hl).
    destruct (IH _ _ _ hs es Hl1 Hhs Hes Hin') as (n' & Hsd & Hex & Hmono & Hcases).
    assert (∀ s j, int_data n1 s j = 1%Z ∨ int_data n1 s j = int_data n s j) as Hn1.
    { intros s j. unfold n1. rewrite int_data_poke. destruct (decide (sym = s ∧ i = j)); auto. }
    assert (int_data n' sym i = 1%Z) as Hi.
    { destruct (Hmono sym i) as [?|Heq]; [done|]. rewrite Heq. unfold n1.
      rewrite int_data_poke. by rewrite decide_True. }
    assert (writable n hs x) as Hwx by (unfold writable; by rewrite <- Hsym).
    exists n'. split; [done|]. split; [done|]. split.
    { intros s j. destruct (Hmono s j) as [?|Heq]; [auto|]. rewrite Heq. apply Hn1. }
    destruct Hcases as [(Hall & r & Hrun & H1 & H2)|(Hnall & Hrun)].
    + left. split; [by constructor|]. exists (tt :: r).
      rewrite Hrun, store_store. mrun. split; [done|]. split.
      * intros x' i' y Hx' Hfind. apply elem_of_cons in Hx' as [->|Hx']; [|by eapply H1].
        destruct (Hstd _ _ Hfind) as [-> ->]. done.
      * intros x' i' y Hx' Hnone Hfind.
        apply elem_of_cons in Hx' as [->|Hx']; [|by eapply H2].
        destruct (Hext _ _ Hnone Hfind) as [-> ->]. done.
    + right. split.
      * intros Hall. apply list.Forall_cons in Hall as [_ Hall]. by apply Hnall.
      * by rewrite Hrun, store_store.
Qed.

Lemma list_find_NoDup (l : list str) i x :
  NoDup l → l !! i = Some x → list_find (λ h, h = x) l = Some (i, x).
Proof.
  intros Hnd Hi. apply list_find_Some. split; [done|]. split; [done|].
  intros j y Hj Hlt ->. assert (i = j) by by eapply NoDup_lookup. lia.
Qed.

Lemma table_flags_all_one n sym len :
  (∀ j, j < len → int_data n sym j = 1%Z) → table_flags n sym len = replicate len 1%Z.
Proof.
  intros H. apply list_eq. intros j. destruct (decide (j < len)) as [Hj|Hj].
  - rewrite table_flags_lookup by done. rewrite H by done.
    symmetry. by apply lookup_replicate_2.
  - rewrite !lookup_ge_None_2; [done| |].
    + rewrite length_replicate. lia.
    + rewrite table_flags_length. lia.
Qed.

Lemma table_headers_ext n n' sym len :
  struct_data n' = struct_data n → exported n' = exported n →
  table_headers n' sym len = table_headers n sym len.
Proof. intros H Hx. unfold table_headers. by rewrite H, Hx. Qed.

(** Enabling all headers needs the standard flags, and the extended
    flags unless every extended name is a standard name too. *)
Lemma writable_all_headers n hs es :
  hs ≠ [] →
  Forall (writable n hs) (hs ++ es) ↔
  exported n "fields" = true ∧ (exported n "ext_fields" = true ∨ es ⊆ hs).
Proof.
  intros Hne. rewrite list.Forall_app, !list.Forall_forall. unfold writable. split.
  - intros [Hh He]. split.
    + destruct hs as [|h hs]; [done|].
      specialize (Hh h (list_elem_of_here _ _)).
      by rewrite bool_decide_true in Hh by apply list_elem_of_here.
    + destruct (exported n "ext_fields") eqn:Hx; [by left|right].
      intros x Hxe. specialize (He x Hxe).
      destruct (decide (x ∈ hs)) as [|Hn]; [done|].
      rewrite bool_decide_false in He by done. congruence.
  - intros [Hf Hx]. split.
    + intros x Hxh. by rewrite bool_decide_true.
    + intros x Hxe. destruct (decide (x ∈ hs)) as [Hh|Hn].
      * by rewrite bool_decide_true.
      * rewrite bool_decide_false by done. destruct Hx as [|Hsub]; [done|].
        by specialize (Hsub x Hxe).
Qed.

(** C8, as stated, fails: with the name [H] in every row, construction
    succeeds and enables only the first row of the standard table. *)
Lemma repeated_names_stay_disabled :
  let st := (__init__ default_library_path repeated_process).1 in
  (__init__ default_library_path repeated_process).2 = Ok tt ∧
  (standard_flags st).2 = Ok (1%Z :: replicate 95 0%Z) ∧
  (extended_flags st).2 = Ok (replicate 63 0%Z) ∧
  (active_headers st).2 = Ok [pystr "H"] ∧
  (all_headers st).2 = Ok (replicate 159 (pystr "H")) ∧
  (active_headers st).2 ≠ (all_headers st).2.
Proof.
  cbv zeta.
  assert ((active_headers (__init__ default_library_path repeated_process).1).2
          = Ok [pystr "H"]) as Ha by (vm_compute; reflexivity).
  assert ((all_headers (__init__ default_library_path repeated_process).1).2
          = Ok (replicate 159 (pystr "H"))) as Hb by (vm_compute; reflexivity).
  split; [vm_compute; reflexivity|]. split; [vm_compute; reflexivity|].
  split; [vm_compute; reflexivity|]. split; [done|]. split; [done|].
  rewrite Ha, Hb. discriminate.
Qed.

(** C8 (amended): when construction succeeds both header lists can be
    read, and if no name occurs twice among the 159 rows every entry of
    both flag tables equals 1 and the active headers are the standard
    headers followed by the extended ones. *)
Theorem construction_enables_distinct_headers (st0 st : State) (path : str) :
  __init__ path st0 = (st, Ok tt) →
  ∃ hs es,
    (cwevent_headers st).2 = Ok hs ∧
    (cwevent_ext_headers st).2 = Ok es ∧
    (all_headers st).2 = Ok (hs ++ es) ∧
    (NoDup (hs ++ es) →
       (standard_flags st).2 = Ok (replicate FIELDS_COUNT 1%Z) ∧
       (extended_flags st).2 = Ok (replicate EXT_FIELDS_COUNT 1%Z) ∧
       (active_headers st).2 = Ok (hs ++ es)).
Proof.
  rewrite init_run. cbv zeta.
  destruct (shared_objects st0 !! path) as [n|] eqn:En; [|done].
  set (st2 := with_dll _ _).
  assert (loaded st2 (mkCDLL path) n) as Hl by done.
  unfold set_all_headers. mrun. rewrite (all_headers_loaded _ _ _ Hl).
  destruct (table_headers n "cwevent_field_data" FIELDS_COUNT) as [hs|e] eqn:Ehs; [|done].
  destruct (table_headers n "cwevent_ext_field_data" EXT_FIELDS_COUNT) as [es|e] eqn:Ees;
    [|done].
  mrun.
  destruct (set_event_fields_loaded (hs ++ es) _ _ _ _ _ Hl Ehs Ees)
    as (n' & Hsd & Hex & _ & [(Hall & r & Hrun & H1 & H2)|(_ & Hrun)]).
  { by apply list.Forall_forall. }
  2:{ by rewrite Hrun. }
  rewrite Hrun. mrun. intros [= <-].
  assert (loaded (store st2 (mkCDLL path) n') (mkCDLL path) n') as Hl'
    by by apply store_loaded.
  assert (hs ≠ [] ∧ es ≠ []) as [Hhne Hene].
  { split; eapply table_headers_nonempty; try done.
    - unfold FIELDS_COUNT. lia.
    - unfold EXT_FIELDS_COUNT. lia. }
  apply (writable_all_headers _ _ _ Hhne) in Hall as [Hxf Hxd].
  exists hs, es.
  rewrite (cwevent_headers_loaded _ _ _ Hl'), (cwevent_ext_headers_loaded _ _ _ Hl').
  rewrite (all_headers_loaded _ _ _ Hl'), (active_headers_loaded _ _ _ Hl').
  rewrite (standard_flags_loaded _ _ _ Hl'), (extended_flags_loaded _ _ _ Hl').
  rewrite !(table_headers_ext _ _ _ _ Hsd Hex), Ehs, Ees.
  split; [done|]. split; [done|]. split; [done|].
  intros Hnd. apply list.NoDup_app in Hnd as (Hnh & Hdisj & Hne).
  assert (exported n "ext_fields" = true) as Hxe'.
  { destruct Hxd as [|Hsub]; [done|]. destruct es as [|e0 es']; [done|].
    exfalso. apply (Hdisj e0); [|apply list_elem_of_here].
    apply Hsub, list_elem_of_here. }
  rewrite (active_names_exported n' hs es)
    by (rewrite ?(table_headers_ext _ _ _ _ Hsd Hex), ?Hex; done).
  rewrite Hex, Hxf, Hxe'.
  assert (table_flags n' "fields" FIELDS_COUNT = replicate FIELDS_COUNT 1%Z) as ->.
  { apply table_flags_all_one. intros j Hj.
    destruct (lookup_lt_is_Some_2 hs j) as [x Hx].
    { by rewrite (table_headers_length _ _ _ _ Ehs). }
    apply (H1 x j x).
    - apply elem_of_app. left. by eapply list_elem_of_lookup_2.
    - by apply list_find_NoDup. }
  assert (table_flags n' "ext_fields" EXT_FIELDS_COUNT = replicate EXT_FIELDS_COUNT 1%Z)
    as ->.
  { apply table_flags_all_one. intros j Hj.
    destruct (lookup_lt_is_Some_2 es j) as [x Hx].
    { by rewrite (table_headers_length _ _ _ _ Ees). }
    assert (x ∈ es) as Hxe by by eapply list_elem_of_lookup_2.
    apply (H2 x j x).
    - apply elem_of_app. by right.
    - apply list_find_eq_None. intros Hxh. by apply (Hdisj x).
    - by apply list_find_NoDup. }
  cbn [snd]. split; [done|]. split; [done|].
  rewrite !enabled_all; [done|..].
  - by apply table_headers_length in Ees.
  - by apply table_headers_length in Ehs.
Qed.

Lemma construction_enables_distinct_headers_witness :
  let st := (__init__ default_library_path sample_process).1 in
  __init__ default_library_path sample_process = (st, Ok tt) ∧
  NoDup (sample_headers "F" 96 ++ sample_headers "E" 63) ∧
  (standard_flags st).2 = Ok (replicate FIELDS_COUNT 1%Z) ∧
  (extended_flags st).2 = Ok (replicate EXT_FIELDS_COUNT 1%Z) ∧
  (active_headers st).2 = Ok (sample_headers "F" 96 ++ sample_headers "E" 63).
Proof.
  cbv zeta.
  assert (__init__ default_library_path sample_process
          = ((__init__ default_library_path sample_process).1, Ok tt)) as H.
  { rewrite (surjective_pairing (__init__ default_library_path sample_process)) at 1.
    apply (f_equal (pair _)). vm_compute. reflexivity. }
  assert (NoDup (sample_headers "F" 96 ++ sample_headers "E" 63)) as Hnd
    by (refine (bool_decide_unpack _ _); vm_compute; exact I).
  split; [exact H|]. split; [exact Hnd|].
  destruct (construction_enables_distinct_headers sample_process _ default_library_path H)
    as (hs & es & Hhs & Hes & _ & Hall).
  assert ((cwevent_headers (__init__ default_library_path sample_process).1).2
          = Ok (sample_headers "F" 96)) as Hhs' by (vm_compute; reflexivity).
  assert ((cwevent_ext_headers (__init__ default_library_path sample_process).1).2
          = Ok (sample_headers "E" 63)) as Hes' by (vm_compute; reflexivity).
  assert (hs = sample_headers "F" 96) as -> by congruence.
  assert (es = sample_headers "E" 63) as -> by congruence.
  exact (Hall Hnd).
Defined.

(** ** The generator [games] *)

Lemma drive_cons g r script st :
  drive g (r :: script) st =
  (resume g r st).2.2 :: drive (resume g r st).2.1 script (resume g r st).1.
Proof. simpl. by destruct (resume g r st) as [st' [g' rq]]. Qed.

Ltac run_resume H :=
  unfold resume, games_step, loop_head, except_handler, fopen, feof, fclose;
  repeat (progress (mrun; rewrite ?(libchadwick_stored _ _ H))); mrun.

(** With a handle stored, a step leaves the state as it is. *)
Lemma resume_stored g r st dll : _dll st = Some dll → (resume g r st).1 = st.
Proof.
  intros H. destruct g, r; run_resume H; try done.
  by destruct (v =? 0)%Z.
Qed.

Lemma resume_started g r st :
  started g st →
  started (resume g r st).2.1 (resume g r st).1 ∧
  awaits (resume g r st).2.1 (resume g r st).2.2.
Proof.
  intros Hs. destruct g as [p| |fh|fh|fh|fh|].
  - unfold resume, games_step. destruct r as [v|e]; [|done].
    unfold fopen. mrun. destruct (libchadwick st) as [st1 [dll|e]] eqn:E; [|done].
    destruct (libchadwick_Ok _ _ _ E) as (Hd & _ & _ & _ & E1).
    mrun. rewrite E1. mrun. simpl. by rewrite Hd.
  - destruct Hs as [dll Hd]. destruct r; run_resume Hd; simpl; by rewrite ?Hd.
  - destruct Hs as [dll Hd]. destruct r; run_resume Hd; [|done].
    destruct (v =? 0)%Z; simpl; by rewrite ?Hd.
  - destruct Hs as [dll Hd]. destruct r; run_resume Hd; simpl; by rewrite ?Hd.
  - destruct Hs as [dll Hd]. destruct r; run_resume Hd; simpl; by rewrite ?Hd.
  - destruct Hs as [dll Hd]. by destruct r; run_resume Hd.
  - by destruct r.
Qed.

(** The request at position [i] tells where the generator waits, and the
    rest of the run is the run from there. *)
Lemma drive_at script :
  ∀ g st i rq,
    started g st →
    drive g script st !! i = Some rq →
    ∃ g' st',
      started g' st' ∧ awaits g' rq ∧
      drop (S i) (drive g script st) = drive g' (drop (S i) script) st'.
Proof.
  induction script as [|r script IH]; intros g st i rq Hs Hi; [done|].
  rewrite drive_cons in Hi |- *.
  destruct (resume_started g r st Hs) as [Hs' Ha].
  destruct i as [|i].
  - simpl in Hi. injection Hi as <-. eexists _, _. split; [done|]. by split.
  - simpl in Hi. destruct (IH _ _ _ _ Hs' Hi) as (g' & st' & ? & ? & Hd).
    exists g', st'. split; [done|]. by split.
Qed.

(** A finished generator only ends again, or hands back what is thrown
    into it. *)
Lemma drive_finished script :
  ∀ st j rq,
    drive Finished script st !! j = Some rq →
    rq = StopIteration ∨ ∃ e, rq = Propagate e ∧ script !! j = Some (Raised e).
Proof.
  induction script as [|r script IH]; intros st j rq Hj; [done|].
  rewrite drive_cons in Hj. destruct j as [|j].
  - simpl in Hj. injection Hj as <-. destruct r; [by left|right; by eexists].
  - simpl in Hj. apply (IH (resume Finished r st).1).
    by destruct r.
Qed.

(** From the [except] handler on, likewise. *)
Lemma drive_closing fh script :
  ∀ st j rq,
    drive (InFclose fh) script st !! j = Some rq →
    rq = StopIteration ∨ ∃ e, rq = Propagate e ∧ script !! j = Some (Raised e).
Proof.
  intros st j rq Hj. destruct script as [|r script]; [done|].
  rewrite drive_cons in Hj. destruct j as [|j].
  - simpl in Hj. injection Hj as <-. destruct r; [by left|right; by eexists].
  - simpl in Hj. apply (drive_finished script (resume (InFclose fh) r st).1).
    by destruct r.
Qed.

Lemma drive_succ script g st i rq :
  started g st →
  drive g script st !! i = Some rq →
  ∃ g' st',
    started g' st' ∧ awaits g' rq ∧
    (∀ k, drive g script st !! (S i + k) = drive g' (drop (S i) script) st' !! k) ∧
    (∀ r, script !! (S i) = Some r →
       drive g script st !! (S i) = Some (resume g' r st').2.2) ∧
    (∀ rq', drive g script st !! (S i) = Some rq' →
       ∃ r, script !! (S i) = Some r ∧ rq' = (resume g' r st').2.2).
Proof.
  intros Hs Hi. destruct (drive_at _ _ _ _ _ Hs Hi) as (g' & st' & Hs' & Ha & Hd).
  exists g', st'. split; [done|]. split; [done|].
  assert (∀ k, drive g script st !! (S i + k) = drive g' (drop (S i) script) st' !! k)
    as Hk by (intros k; by rewrite <- Hd, lookup_drop).
  split; [done|].
  pose proof (Hk 0) as H0. rewrite Nat.add_0_r, <- (Nat.add_0_r (S i)) in H0.
  rewrite Nat.add_0_r in H0.
  pose proof (lookup_drop script (S i) 0) as Hr. rewrite Nat.add_0_r in Hr.
  destruct (drop (S i) script) as [|r rest] eqn:E.
  - split; [intros r Hsr; by rewrite <- Hr in Hsr|]. intros rq' Hrq. by rewrite H0 in Hrq.
  - rewrite drive_cons in H0. simpl in H0, Hr. split.
    + intros r' Hsr. rewrite <- Hr in Hsr. by simplify_eq.
    + intros rq' Hrq. exists r. split; [done|]. rewrite H0 in Hrq. by simplify_eq.
Qed.

(** The first step. *)
Lemma resume_created file_path r st :
  ((resume (Created file_path) r st).2 = (InFopen, CallFopen file_path (pybytes "r")) ∧
   (∃ v, r = Returned v))
  ∨ ∃ e, (resume (Created file_path) r st).2 = (Finished, Propagate e).
Proof.
  unfold resume, games_step. destruct r as [v|e]; [|right; by eexists].
  unfold fopen. mrun. destruct (libchadwick st) as [st1 [dll|e]] eqn:E.
  - destruct (libchadwick_Ok _ _ _ E) as (_ & _ & _ & _ & E1).
    mrun. rewrite E1. mrun. left. split; [done|by eexists].
  - right. by eexists.
Qed.

Lemma resume_created_stored file_path v st :
  is_Some (_dll st) →
  resume (Created file_path) (Returned v) st
  = (st, (InFopen, CallFopen file_path (pybytes "r"))).
Proof. intros [dll H]. by run_resume H. Qed.

(** The steps after the first, on a state with a handle stored. *)
Lemma resume_steps g r st :
  started g st →
  (resume g r st).2 =
  match g, r with
  | Created _, _ => (resume g r st).2
  | InFopen, Returned fh => (InFeof fh, CallFeof fh)
  | InFeof fh, Returned eof =>
      if (eof =? 0)%Z then (InGameRead fh, CallGameRead fh) else (Finished, StopIteration)
  | InGameRead fh, Returned game => (AtYield fh, Yield game)
  | InGameRead fh, Raised _ => (InFclose fh, CallFclose fh)
  | AtYield fh, Returned _ => (InFeof fh, CallFeof fh)
  | AtYield fh, Raised _ => (InFclose fh, CallFclose fh)
  | InFclose _, Returned _ => (Finished, StopIteration)
  | Finished, Returned _ => (Finished, StopIteration)
  | _, Raised e => (Finished, Propagate e)
  end.
Proof.
  intros Hs. destruct g as [p| |fh|fh|fh|fh|]; [done|..|by destruct r];
    destruct Hs as [dll Hd]; destruct r; run_resume Hd; try done.
  by destruct (v =? 0)%Z.
Qed.

Lemma drive_handle script :
  ∀ g st fh0 i rq fh,
    started g st → holds_handle fh0 g →
    drive g script st !! i = Some rq → request_handle rq = Some fh → fh = fh0.
Proof.
  induction script as [|r script IH]; intros g st fh0 i rq fh Hs Hh Hi Hrq; [done|].
  rewrite drive_cons in Hi.
  destruct (resume_started g r st Hs) as [Hs' Ha].
  pose proof (resume_steps g r st Hs) as Hstep.
  assert (holds_handle fh0 (resume g r st).2.1) as Hh'.
  { rewrite Hstep. destruct g, r; try done; simpl in *; try done.
    by destruct (v =? 0)%Z. }
  destruct i as [|i]; [|by eapply IH].
  simpl in Hi. injection Hi as <-.
  destruct (resume g r st).2 as [g' rq]. simpl in *.
  destruct g', rq; simpl in *; simplify_eq; done.
Qed.

Lemma games_handle file_path script st i rq fh :
  drive (games file_path) script st !! i = Some rq →
  request_handle rq = Some fh →
  script !! 1 = Some (Returned fh).
Proof.
  intros Hi Hrq. unfold games in Hi.
  destruct script as [|r0 script]; [done|]. rewrite drive_cons in Hi.
  destruct (resume_started (Created file_path) r0 st I) as [Hs1 _].
  destruct (resume_created file_path r0 st) as [[E _]|[e E]];
    destruct (resume (Created file_path) r0 st) as [st1 [g1 rq1]];
    simpl in E, Hs1; injection E as -> ->.
  2:{ destruct i as [|i]; simpl in Hi; [by simplify_eq|].
      apply drive_finished in Hi as [->|(? & -> & _)]; done. }
  destruct i as [|i]; simpl in Hi; [by simplify_eq|].
  destruct script as [|r1 script]; [done|]. rewrite drive_cons in Hi.
  destruct (resume_started InFopen r1 st1 Hs1) as [Hs2 _].
  pose proof (resume_steps InFopen r1 st1 Hs1) as Hstep.
  destruct (resume InFopen r1 st1) as [st2 [g2 rq2]]. simpl in *.
  destruct r1 as [fh1|e]; injection Hstep as -> ->.
  - destruct i as [|i]; simpl in Hi; [by simplify_eq/=|].
    assert (fh = fh1) as ->; [|done].
    by apply (drive_handle script (InFeof fh1) st2 fh1 i rq fh).
  - destruct i as [|i]; simpl in Hi; [by simplify_eq|].
    apply drive_finished in Hi as [->|(? & -> & _)]; done.
Qed.

(** C2: when the read of the next game raises, the next thing the
    generator does is to call [fclose] on the file handle (the one
    [fopen] returned); when that call returns the generator ends with
    [StopIteration]; from then on it yields nothing, and the only
    exceptions that leave it are raised into it at that very step (by
    [fclose] itself, or thrown into the finished generator). *)
Theorem failed_read_closes_and_stops
    (st : State) (file_path : bytes) (script : list response)
    (i : nat) (fh : Z) (e : exn) :
  let outs := drive (games file_path) script st in
  outs !! i = Some (CallGameRead fh) →
  script !! (S i) = Some (Raised e) →
  script !! 1 = Some (Returned fh) ∧
  outs !! (S i) = Some (CallFclose fh) ∧
  (∀ v, script !! (S (S i)) = Some (Returned v) → outs !! (S (S i)) = Some StopIteration) ∧
  (∀ j rq, S i < j → outs !! j = Some rq →
     rq = StopIteration ∨ ∃ e', rq = Propagate e' ∧ script !! j = Some (Raised e')).
Proof.
  intros outs Hi He. split; [by eapply games_handle|].
  destruct (drive_succ script (Created file_path) st i _ I Hi)
    as (g & st1 & Hs & Ha & Hk & Hnext & _).
  destruct g; try done. simpl in Ha. subst file_handle.
  pose proof (Hnext _ He) as H1. rewrite resume_steps in H1 by done.
  split; [done|].
  assert (∃ rest, drop (S i) script = Raised e :: rest ∧
                  ∀ k, script !! (S (S i) + k) = rest !! k) as (rest & Hrest & Hrk).
  { pose proof (lookup_drop script (S i) 0) as H0. rewrite Nat.add_0_r, He in H0.
    destruct (drop (S i) script) as [|r rest] eqn:E; [done|]. simpl in H0.
    injection H0 as ->. exists rest. split; [done|]. intros k.
    pose proof (lookup_drop script (S i) (S k)) as H2. rewrite E in H2. simpl in H2.
    rewrite H2. f_equal. lia. }
  assert (∀ k, outs !! (S (S i) + k)
               = drive (InFclose fh) rest (resume (InGameRead fh) (Raised e) st1).1 !! k)
    as Hout.
  { intros k. replace (S (S i) + k) with (S i + S k) by lia.
    unfold outs. rewrite Hk, Hrest, drive_cons. simpl.
    by rewrite resume_steps by done. }
  split.
  - intros v Hv. pose proof (Hout 0) as H0. rewrite Nat.add_0_r in H0. rewrite H0.
    pose proof (Hrk 0) as H2. rewrite Nat.add_0_r, Hv in H2.
    destruct rest as [|r rest']; [done|]. simpl in H2. injection H2 as <-.
    by rewrite drive_cons.
  - intros j rq Hj Hrq. replace j with (S (S i) + (j - S (S i))) in Hrq |- * by lia.
    rewrite Hout in Hrq. rewrite Hrk. by eapply drive_closing.
Qed.

Example failing_run :
  drive (games (pybytes "2019ANA.EVA")) failing_script sample_object
  = [CallFopen (pybytes "2019ANA.EVA") (pybytes "r"); CallFeof 7; CallGameRead 7;
     CallFclose 7; StopIteration].
Proof. vm_compute. reflexivity. Qed.

Lemma failed_read_closes_and_stops_witness :
  let script := failing_script in
  let outs := drive (games (pybytes "2019ANA.EVA")) script sample_object in
  outs !! 2 = Some (CallGameRead 7) ∧
  script !! 3 = Some (Raised (Exception "ArgumentError")) ∧
  script !! 1 = Some (Returned 7) ∧
  outs !! 3 = Some (CallFclose 7) ∧
  (∀ v, script !! 4 = Some (Returned v) → outs !! 4 = Some StopIteration) ∧
  (∀ j rq, 3 < j → outs !! j = Some rq →
     rq = StopIteration ∨ ∃ e', rq = Propagate e' ∧ script !! j = Some (Raised e')).
Proof.
  intros script outs.
  assert (outs !! 2 = Some (CallGameRead 7)) as H1 by (vm_compute; reflexivity).
  assert (script !! 3 = Some (Raised (Exception "ArgumentError"))) as H2 by reflexivity.
  split; [exact H1|]. split; [exact H2|].
  exact (failed_read_closes_and_stops sample_object (pybytes "2019ANA.EVA")
           failing_script 2 7 (Exception "ArgumentError") H1 H2).
Defined.

Lemma drive_reading fh eof gs :
  ∀ st, is_Some (_dll st) → eof ≠ 0%Z →
    drive (InFeof fh)
      (concat (map (λ game, [Returned 0; Returned game; Returned 0]) gs)
       ++ [Returned eof]) st
    = concat (map (λ game, [CallGameRead fh; Yield game; CallFeof fh]) gs)
      ++ [StopIteration].
Proof.
  intros st [dll Hd] Heof. induction gs as [|game gs IH].
  - simpl. run_resume Hd. apply Z.eqb_neq in Heof. by rewrite Heof.
  - cbn [map concat]. rewrite <- !app_assoc. cbn [app].
    rewrite drive_cons, (resume_stored _ _ _ _ Hd), resume_steps by by eexists.
    cbn [fst snd Z.eqb].
    rewrite drive_cons, (resume_stored _ _ _ _ Hd), resume_steps by by eexists.
    cbn [fst snd].
    rewrite drive_cons, (resume_stored _ _ _ _ Hd), resume_steps by by eexists.
    cbn [fst snd]. by rewrite IH.
Qed.

Lemma yielded_reading_trace file_path fh gs :
  yielded (reading_trace file_path fh gs) = gs.
Proof.
  unfold reading_trace, yielded. cbn [omap list_omap].
  induction gs as [|game gs IH]; [done|].
  cbn [map concat app omap list_omap]. by rewrite IH.
Qed.

Lemma drop_lookup_cons {A} (l : list A) n x :
  l !! n = Some x →
  ∃ rest, drop n l = x :: rest ∧ ∀ k, l !! (S n + k) = rest !! k.
Proof.
  intros H. pose proof (lookup_drop l n 0) as H0. rewrite Nat.add_0_r, H in H0.
  destruct (drop n l) as [|y rest] eqn:E; [done|]. simpl in H0.
  injection H0 as ->. exists rest. split; [done|]. intros k.
  pose proof (lookup_drop l n (S k)) as H2. rewrite E in H2. simpl in H2.
  rewrite H2. f_equal. lia.
Qed.

(** What precedes a request that is not the first one. *)
Lemma drive_pred file_path script st i rq :
  drive (Created file_path) script st !! S i = Some rq →
  ∃ g st' r rq',
    drive (Created file_path) script st !! i = Some rq' ∧
    script !! S i = Some r ∧
    started g st' ∧ awaits g rq' ∧
    (rq = (resume g r st').2.2).
Proof.
  intros H.
  destruct (lookup_lt_is_Some_2 (drive (Created file_path) script st) i) as [rq' Hrq'].
  { apply lookup_lt_Some in H. lia. }
  destruct (drive_succ script (Created file_path) st i _ I Hrq')
    as (g & st' & Hs & Ha & _ & _ & Hprev).
  destruct (Hprev _ H) as (r & Hr & ->).
  by exists g, st', r, rq'.
Qed.

(** C5: the first request opens the file by its path in mode [r], and
    no other request opens a file; [cw_game_read] is called only in
    answer to an [feof] that returned 0, on the handle [fopen] returned;
    once [feof] returns nonzero the generator ends and calls nothing
    more; a value is yielded exactly when the read just before returned
    it. Run to the end of a file of games [gs], the generator yields
    [gs]. *)
Theorem games_reads_until_eof
    (st : State) (file_path : bytes) (script : list response) :
  let outs := drive (games file_path) script st in
  (∀ i p mode, outs !! i = Some (CallFopen p mode) →
     i = 0 ∧ p = file_path ∧ mode = pybytes "r") ∧
  (∀ i fh, outs !! i = Some (CallGameRead fh) →
     ∃ i', i = S i' ∧ outs !! i' = Some (CallFeof fh) ∧
           script !! i = Some (Returned 0) ∧ script !! 1 = Some (Returned fh)) ∧
  (∀ i fh eof, outs !! i = Some (CallFeof fh) →
     script !! (S i) = Some (Returned eof) → eof ≠ 0%Z →
     outs !! (S i) = Some StopIteration ∧
     ∀ j rq, i < j → outs !! j = Some rq →
       rq = StopIteration ∨ ∃ e, rq = Propagate e ∧ script !! j = Some (Raised e)) ∧
  (∀ i game, outs !! i = Some (Yield game) ↔
     ∃ i' fh, i = S i' ∧ outs !! i' = Some (CallGameRead fh) ∧
              script !! i = Some (Returned game)) ∧
  (∀ fh gs eof, is_Some (_dll st) → eof ≠ 0%Z →
     script = reading_script fh gs eof →
     outs = reading_trace file_path fh gs ∧ yielded outs = gs).
Proof.
  intros outs. unfold games in outs.
  assert (∀ rq, outs !! 0 = Some rq →
    rq = CallFopen file_path (pybytes "r") ∨ ∃ e, rq = Propagate e) as Hfirst.
  { intros rq H0. unfold outs in H0. destruct script as [|r0 script']; [done|].
    rewrite drive_cons in H0. simpl in H0. injection H0 as <-.
    destruct (resume_created file_path r0 st) as [[-> _]|[e ->]]; [by left|right; by eexists]. }
  split; [|split; [|split; [|split]]].
  - intros i p mode Hi. destruct i as [|i].
    + destruct (Hfirst _ Hi) as [?|[e ?]]; by simplify_eq.
    + destruct (drive_pred _ _ _ _ _ Hi) as (g & st' & r & rq' & _ & _ & Hs & Ha & Hrq).
      rewrite resume_steps in Hrq by done.
      destruct g, r; try done. by destruct (v =? 0)%Z.
  - intros i fh Hi. destruct i as [|i].
    { destruct (Hfirst _ Hi) as [?|[e ?]]; by simplify_eq. }
    destruct (drive_pred _ _ _ _ _ Hi) as (g & st' & r & rq' & Hprev & Hr & Hs & Ha & Hrq).
    rewrite resume_steps in Hrq by done.
    exists i. split; [done|].
    destruct g, r; try done.
    destruct (Z.eqb_spec v 0) as [->|]; [|done]. simpl in Hrq. injection Hrq as ->.
    destruct rq'; try done. simpl in Ha. subst.
    split; [done|]. split; [done|].
    by apply (games_handle file_path script st (S i) _ _ Hi).
  - intros i fh eof Hi Hr Heof.
    destruct (drive_succ script (Created file_path) st i _ I Hi)
      as (g & st1 & Hs & Ha & Hk & Hnext & _).
    destruct g; try done. simpl in Ha. subst file_handle.
    apply Z.eqb_neq in Heof.
    pose proof (Hnext _ Hr) as H1. rewrite resume_steps, Heof in H1 by done.
    split; [done|]. intros j rq Hj Hrq.
    destruct (drop_lookup_cons _ _ _ Hr) as (rest & Hrest & Hrk).
    replace j with (S i + (j - S i)) in Hrq by lia.
    unfold outs in Hrq. rewrite Hk, Hrest, drive_cons in Hrq.
    rewrite resume_steps, Heof in Hrq by done.
    destruct (j - S i) as [|k] eqn:Ek; simpl in Hrq.
    + left. by simplify_eq.
    + apply drive_finished in Hrq. replace j with (S (S i) + k) by lia.
      by rewrite Hrk.
  - intros i game. split.
    + intros Hi. destruct i as [|i].
      { destruct (Hfirst _ Hi) as [?|[e ?]]; by simplify_eq. }
      destruct (drive_pred _ _ _ _ _ Hi)
        as (g & st' & r & rq' & Hprev & Hr & Hs & Ha & Hrq).
      rewrite resume_steps in Hrq by done.
      destruct g, r; try done; [by destruct (v =? 0)%Z|].
      simpl in Hrq. injection Hrq as ->.
      destruct rq'; try done. simpl in Ha. subst.
      by exists i, file_handle0.
    + intros (i' & fh & -> & Hi & Hr).
      destruct (drive_succ script (Created file_path) st i' _ I Hi)
        as (g & st1 & Hs & Ha & _ & Hnext & _).
      destruct g; try done.
      pose proof (Hnext _ Hr) as H1. by rewrite resume_steps in H1 by done.
  - intros fh gs eof Hd Heof ->.
    assert (outs = reading_trace file_path fh gs) as Houts.
    { unfold outs, reading_script, reading_trace.
      rewrite drive_cons, resume_created_stored by done. cbn [fst snd].
      destruct Hd as [dll Hd].
      rewrite drive_cons, (resume_stored _ _ _ _ Hd), resume_steps by by eexists.
      cbn [fst snd]. rewrite drive_reading; [done|by eexists|done]. }
    split; [done|]. rewrite Houts. apply yielded_reading_trace.
Qed.

Lemma games_reads_until_eof_witness :
  let script := reading_script 7 [100; 200]%Z 1 in
  let outs := drive (games (pybytes "2019ANA.EVA")) script sample_object in
  is_Some (_dll sample_object) ∧
  outs = reading_trace (pybytes "2019ANA.EVA") 7 [100; 200]%Z ∧
  yielded outs = [100; 200]%Z.
Proof.
  intros script outs.
  assert (is_Some (_dll sample_object)) as H by (by eexists).
  split; [exact H|].
  exact (proj2 (proj2 (proj2 (proj2
           (games_reads_until_eof sample_object (pybytes "2019ANA.EVA") script))))
           7%Z [100; 200]%Z 1%Z H ltac:(discriminate) eq_refl).
Defined.

(** ** Frames *)

Section FrameProperties.
Context {Column DType : Type}.
Variable astype : Column → DType → result Column.
Variable loc_setitem : Column → Column → Column.
Variable loc_rows_upto : gmap str Column → str → result string.

Local Abbreviation convert :=
  (convert_data_frame_types Column DType astype loc_setitem loc_rows_upto).

Lemma convert_cons df column_name data_type_conversion rest :
  convert df ((column_name, data_type_conversion) :: rest) =
  match df !! column_name with
  | Some col =>
    match astype col data_type_conversion with
    | Ok new => convert (<[column_name := loc_setitem col new]> df) rest
    | Raise TypeError =>
        match loc_rows_upto df column_name with
        | Ok text => (df, [CannotConvert column_name; Rows text], Raise TypeError)
        | Raise e => (df, [CannotConvert column_name], Raise e)
        end
    | Raise e => (df, [], Raise e)
    end
  | None => convert df rest
  end.
Proof. reflexivity. Qed.

(** The outcomes of one mapping item on a frame that has the column. *)
Lemma convert_cons_cases df c t rest col :
  df !! c = Some col →
  (∃ new, astype col t = Ok new ∧
     convert df ((c, t) :: rest) = convert (<[c := loc_setitem col new]> df) rest)
  ∨ (∃ out e, convert df ((c, t) :: rest) = (df, out, Raise e)).
Proof.
  intros H. rewrite convert_cons, H.
  destruct (astype col t) as [new|e]; [left; by eexists|right].
  destruct e; try by eexists _, _.
  destruct (loc_rows_upto df c); by eexists _, _.
Qed.

Lemma convert_dom mapping : ∀ df, dom (convert df mapping).1.1 = dom df.
Proof.
  induction mapping as [|[c t] rest IH]; intros df; [done|].
  destruct (df !! c) as [col|] eqn:E.
  - destruct (convert_cons_cases df c t rest col E) as [(new & _ & ->)|(out & e & ->)];
      [|done].
    rewrite IH, dom_insert_L. apply elem_of_dom_2 in E.
    by apply subseteq_union_1_L, singleton_subseteq_l.
  - rewrite convert_cons, E. apply IH.
Qed.

Lemma convert_unmapped mapping :
  ∀ df c, c ∉ mapping.*1 → (convert df mapping).1.1 !! c = df !! c.
Proof.
  induction mapping as [|[c0 t] rest IH]; intros df c Hc; [done|].
  rewrite fmap_cons, not_elem_of_cons in Hc. destruct Hc as [Hne Hc]. simpl in Hne.
  destruct (df !! c0) as [col|] eqn:E.
  - destruct (convert_cons_cases df c0 t rest col E) as [(new & _ & ->)|(out & e & ->)];
      [|done].
    rewrite IH by done. by rewrite lookup_insert_ne.
  - rewrite convert_cons, E. by apply IH.
Qed.

Lemma convert_absent_items mapping :
  ∀ df, convert df (filter (λ kv, kv.1 ∈ dom df) mapping) = convert df mapping.
Proof.
  induction mapping as [|[c t] rest IH]; intros df; [done|].
  rewrite filter_cons. cbn [fst]. destruct (df !! c) as [col|] eqn:E.
  - rewrite decide_True by by eapply elem_of_dom_2.
    rewrite !convert_cons, E.
    destruct (astype col t) as [new|e]; [|done].
    rewrite <- IH.
    assert (dom (<[c:=loc_setitem col new]> df) = dom df) as ->; [|done].
    rewrite dom_insert_L. apply elem_of_dom_2 in E.
    by apply subseteq_union_1_L, singleton_subseteq_l.
  - rewrite decide_False by by apply not_elem_of_dom.
    rewrite convert_cons, E. apply IH.
Qed.

Lemma convert_mapped mapping :
  ∀ df c t col,
    (convert df mapping).2 = Ok tt → NoDup mapping.*1 →
    (c, t) ∈ mapping → df !! c = Some col →
    ∃ new, astype col t = Ok new ∧
           (convert df mapping).1.1 !! c = Some (loc_setitem col new).
Proof.
  induction mapping as [|[c0 t0] rest IH]; intros df c t col Hr Hnd Hin Hc.
  { by apply elem_of_nil in Hin. }
  rewrite fmap_cons in Hnd. apply list.NoDup_cons in Hnd as [Hc0 Hnd]. simpl in Hc0.
  apply elem_of_cons in Hin as [[= -> ->]|Hin].
  - destruct (convert_cons_cases df c0 t0 rest col Hc) as [(new & Ha & E)|(out & e & E)];
      rewrite E in Hr |- *; [|done].
    exists new. split; [done|]. rewrite convert_unmapped by done.
    by rewrite lookup_insert_eq.
  - assert (c ≠ c0) as Hne.
    { intros ->. apply Hc0. by apply (list_elem_of_fmap_2 fst _ (c0, t)). }
    destruct (df !! c0) as [col0|] eqn:E0.
    + destruct (convert_cons_cases df c0 t0 rest col0 E0)
        as [(new & Ha & E)|(out & e & E)]; rewrite E in Hr |- *; [|done].
      apply (IH _ c t col); [done..|]. by rewrite lookup_insert_ne.
    + rewrite convert_cons, E0 in Hr |- *. by apply (IH _ c t col).
Qed.

End FrameProperties.

(** C7: the conversion never adds or removes a column; a column that
    no mapping item names is left as it was, whatever the outcome; the
    items whose column the frame lacks can be removed without changing
    anything; and when the call returns, each column that an item names
    and the frame has holds its converted values. *)
Theorem convert_data_frame_types_frame
    {Column DType : Type}
    (astype : Column → DType → result Column)
    (loc_setitem : Column → Column → Column)
    (loc_rows_upto : gmap str Column → str → result string)
    (df : gmap str Column) (data_type_mapping : list (str * DType)) :
  let convert :=
    convert_data_frame_types Column DType astype loc_setitem loc_rows_upto in
  let df' := (convert df data_type_mapping).1.1 in
  dom df' = dom df ∧
  (∀ c, c ∉ data_type_mapping.*1 → df' !! c = df !! c) ∧
  convert df (filter (λ kv, kv.1 ∈ dom df) data_type_mapping)
    = convert df data_type_mapping ∧
  ((convert df data_type_mapping).2 = Ok tt → NoDup data_type_mapping.*1 →
   ∀ c t col, (c, t) ∈ data_type_mapping → df !! c = Some col →
     ∃ new, astype col t = Ok new ∧ df' !! c = Some (loc_setitem col new)).
Proof.
  cbv zeta. split; [apply convert_dom|]. split; [apply convert_unmapped|].
  split; [apply convert_absent_items|]. intros. by eapply convert_mapped.
Qed.


Example convert_sample_frame :
  convert_data_frame_types _ _ sample_astype (λ _ new, new) (λ _ _, Raise TypeError)
    sample_frame sample_mapping
  = (<[pystr "INN_CT" := ("i8", [1; 2]%Z)]> sample_frame, [], Ok tt).
Proof. vm_compute. reflexivity. Qed.

Lemma convert_data_frame_types_frame_witness :
  let convert :=
    convert_data_frame_types _ _ sample_astype (λ _ new, new) (λ _ _, Raise TypeError) in
  (convert sample_frame sample_mapping).2 = Ok tt ∧
  NoDup sample_mapping.*1 ∧
  ∃ new, sample_astype ("f8", [1; 2]%Z) "i8" = Ok new ∧
         (convert sample_frame sample_mapping).1.1 !! pystr "INN_CT" = Some new.
Proof.
  intros convert.
  assert ((convert sample_frame sample_mapping).2 = Ok tt) as H1 by (vm_compute; reflexivity).
  assert (NoDup sample_mapping.*1) as H2
    by (refine (bool_decide_unpack _ _); vm_compute; exact I).
  assert ((pystr "INN_CT", "i8") ∈ sample_mapping) as H3
    by (refine (bool_decide_unpack _ _); vm_compute; exact I).
  assert (sample_frame !! pystr "INN_CT" = Some ("f8", [1; 2]%Z)) as H4
    by (vm_compute; reflexivity).
  split; [exact H1|]. split; [exact H2|].
  exact (proj2 (proj2 (proj2
    (convert_data_frame_types_frame sample_astype (λ _ new, new) (λ _ _, Raise TypeError)
       sample_frame sample_mapping))) H1 H2 _ _ _ H3 H4).
Defined.

(** * Further properties *)

(** ** Writes to a known name *)

Lemma table_flags_poke_any n sym i v s len :
  table_flags (poke sym i v n) s len =
  if decide (sym = s) then <[i := c_int v]> (table_flags n s len)
  else table_flags n s len.
Proof.
  case_decide as H; [subst; apply table_flags_poke|by apply table_flags_poke_ne].
Qed.

(** A name of either header list is written at a row that depends on the
    name only: the first one in the standard table, else the first one in
    the extended table. *)
Lemma tables_readable st hs es flags eflags :
  (cwevent_headers st).2 = Ok hs →
  (cwevent_ext_headers st).2 = Ok es →
  (standard_flags st).2 = Ok flags →
  (extended_flags st).2 = Ok eflags →
  ∃ st1 dll n,
    libchadwick st = (st1, Ok dll) ∧ loaded st1 dll n ∧
    table_headers n "cwevent_field_data" FIELDS_COUNT = Ok hs ∧
    table_headers n "cwevent_ext_field_data" EXT_FIELDS_COUNT = Ok es ∧
    exported n "fields" = true ∧ exported n "ext_fields" = true ∧
    flags = table_flags n "fields" FIELDS_COUNT ∧
    eflags = table_flags n "ext_fields" EXT_FIELDS_COUNT.
Proof.
  intros Hhs Hes Hf He.
  destruct (cwevent_headers_Ok _ _ Hhs) as (st1 & dll & n & Hlib & Hl & Hn).
  destruct (cwevent_ext_headers_Ok _ _ Hes) as (st2 & dll2 & n2 & Hlib2 & Hl2 & Hn2).
  assert (st2 = st1 ∧ dll2 = dll) as [-> ->] by (split; congruence).
  assert (n2 = n) as -> by (destruct Hl, Hl2; congruence).
  rewrite (standard_flags_settle _ _ _ Hlib) in Hf.
  rewrite (extended_flags_settle _ _ _ Hlib) in He.
  destruct (standard_flags_exported _ _ _ _ Hl Hf) as [Hx ->].
  destruct (extended_flags_exported _ _ _ _ Hl He) as [Hy ->].
  by exists st1, dll, n.
Qed.

Lemma write_known st field_name hs es flags eflags :
  (cwevent_headers st).2 = Ok hs →
  (cwevent_ext_headers st).2 = Ok es →
  (standard_flags st).2 = Ok flags →
  (extended_flags st).2 = Ok eflags →
  field_name ∈ hs ++ es →
  ∃ st1 dll n sym i,
    libchadwick st = (st1, Ok dll) ∧ loaded st1 dll n ∧
    table_headers n "cwevent_field_data" FIELDS_COUNT = Ok hs ∧
    table_headers n "cwevent_ext_field_data" EXT_FIELDS_COUNT = Ok es ∧
    exported n "fields" = true ∧ exported n "ext_fields" = true ∧
    ((sym = "fields" ∧ hs !! i = Some field_name ∧
      list_find (λ h, h = field_name) hs = Some (i, field_name)) ∨
     (sym = "ext_fields" ∧ (field_name ∉ hs) ∧ es !! i = Some field_name ∧
      list_find (λ h, h = field_name) es = Some (i, field_name))) ∧
    ∀ st2 n2 value,
      loaded st2 dll n2 → struct_data n2 = struct_data n → exported n2 = exported n →
      set_event_field_value field_name value st2
      = (store st2 dll (poke sym i value n2), Ok tt).
Proof.
  intros Hhs Hes Hf He Hin.
  destruct (tables_readable _ _ _ _ _ Hhs Hes Hf He)
    as (st1 & dll & n & Hlib & Hl & Hn & Hn2 & Hx & Hy & _).
  destruct (list_find (λ h, h = field_name) hs) as [[i y]|] eqn:Ei.
  - destruct (list_find_eq_Some _ _ _ _ Ei) as (-> & Hi & _).
    exists st1, dll, n, "fields", i. repeat (split; [done|]).
    split; [left; by repeat split|].
    intros st2 n2 value Hl2' Hsd Hex.
    rewrite (set_event_field_value_loaded _ _ _ _ _ Hl2').
    rewrite (table_headers_ext _ _ _ _ Hsd Hex), Hn, Ei.
    unfold write_flag. by rewrite Hex, Hx.
  - apply list_find_eq_None in Ei as Hnot.
    apply elem_of_app in Hin as [?|Hin]; [done|].
    destruct (list_find (λ h, h = field_name) es) as [[i y]|] eqn:Ej;
      [|by apply list_find_eq_None in Ej].
    destruct (list_find_eq_Some _ _ _ _ Ej) as (-> & Hi & _).
    exists st1, dll, n, "ext_fields", i. repeat (split; [done|]).
    split; [right; by repeat split|].
    intros st2 n2 value Hl2' Hsd Hex.
    rewrite (set_event_field_value_loaded _ _ _ _ _ Hl2').
    rewrite !(table_headers_ext _ _ _ _ Hsd Hex), Hn, Ei, Hn2, Ej.
    unfold write_flag. by rewrite Hex, Hy.
Qed.

(** X1: with the four tables readable, two writes to the same known
    name in a row leave what one write of the second value leaves: the
    same flags in both tables, the same log, handle and loader calls. *)
Theorem set_event_field_value_last_write_wins
    (st : State) (field_name : str) (v1 v2 : Z) (hs es : list str)
    (flags eflags : list Z) :
  (cwevent_headers st).2 = Ok hs →
  (cwevent_ext_headers st).2 = Ok es →
  (standard_flags st).2 = Ok flags →
  (extended_flags st).2 = Ok eflags →
  field_name ∈ hs ++ es →
  let twice :=
    (set_event_field_value field_name v1;; set_event_field_value field_name v2) st in
  let once := set_event_field_value field_name v2 st in
  twice.2 = Ok tt ∧ once.2 = Ok tt ∧
  (standard_flags twice.1).2 = (standard_flags once.1).2 ∧
  (extended_flags twice.1).2 = (extended_flags once.1).2 ∧
  warnings twice.1 = warnings once.1 ∧
  _dll twice.1 = _dll once.1 ∧
  load_calls twice.1 = load_calls once.1.
Proof.
  intros Hhs Hes Hf He Hin.
  destruct (write_known _ _ _ _ _ _ Hhs Hes Hf He Hin)
    as (st1 & dll & n & sym & i & Hlib & Hl & _ & _ & Hx & Hy & _ & Hw).
  destruct (libchadwick_Ok _ _ _ Hlib) as (Hd & _).
  cbv zeta. rewrite bind_run.
  rewrite !(set_event_field_value_settle _ _ _ _ _ Hlib).
  rewrite (Hw st1 n v1 Hl eq_refl eq_refl), (Hw st1 n v2 Hl eq_refl eq_refl).
  set (n1 := poke sym i v1 n).
  rewrite (Hw (store st1 dll n1) n1 v2) by (by apply store_loaded || done).
  rewrite store_store. cbn [fst snd].
  assert (loaded (store st1 dll (poke sym i v2 n1)) dll (poke sym i v2 n1)) as Ha
    by by apply store_loaded.
  assert (loaded (store st1 dll (poke sym i v2 n)) dll (poke sym i v2 n)) as Hb
    by by apply store_loaded.
  rewrite (standard_flags_loaded _ _ _ Ha), (standard_flags_loaded _ _ _ Hb).
  rewrite (extended_flags_loaded _ _ _ Ha), (extended_flags_loaded _ _ _ Hb).
  cbn [exported poke n1]. unfold n1. rewrite Hx, Hy, !table_flags_poke_any.
  repeat case_decide; by rewrite ?list_insert_insert_eq.
Qed.

(** Whatever the name and the value, a write returns normally once the
    four tables can be read, and leaves the names of both tables alone. *)
Lemma write_outcome st1 dll n field_name value hs es :
  loaded st1 dll n →
  table_headers n "cwevent_field_data" FIELDS_COUNT = Ok hs →
  table_headers n "cwevent_ext_field_data" EXT_FIELDS_COUNT = Ok es →
  exported n "fields" = true → exported n "ext_fields" = true →
  ∃ n' w,
    set_event_field_value field_name value st1
    = (with_warnings w (store st1 dll n'), Ok tt) ∧
    struct_data n' = struct_data n ∧ exported n' = exported n.
Proof.
  intros Hl Hn Hn2 Hx Hy.
  rewrite (set_event_field_value_loaded _ _ _ _ _ Hl), Hn, Hn2.
  unfold write_flag. rewrite Hx, Hy.
  destruct (list_find (λ h, h = field_name) hs) as [[i y]|].
  { eexists (poke "fields" i value n), (warnings st1). by split. }
  destruct (list_find (λ h, h = field_name) es) as [[i y]|].
  { eexists (poke "ext_fields" i value n), (warnings st1). by split. }
  exists n, (warnings st1 ++ [not_in_headers_message field_name]).
  by rewrite store_id.
Qed.

(** X2: once the header lists and the flag lists can be read,
    [set_event_field_value] returns normally for every name and value,
    and afterwards both header lists, hence [all_headers], read as
    before; a handle is stored. *)
Theorem set_event_field_value_keeps_names
    (st : State) (field_name : str) (value : Z) (hs es : list str)
    (flags eflags : list Z) :
  (cwevent_headers st).2 = Ok hs →
  (cwevent_ext_headers st).2 = Ok es →
  (standard_flags st).2 = Ok flags →
  (extended_flags st).2 = Ok eflags →
  ∃ st',
    set_event_field_value field_name value st = (st', Ok tt) ∧
    (cwevent_headers st').2 = Ok hs ∧
    (cwevent_ext_headers st').2 = Ok es ∧
    (all_headers st').2 = Ok (hs ++ es) ∧
    is_Some (_dll st').
Proof.
  intros Hhs Hes Hf He.
  destruct (tables_readable _ _ _ _ _ Hhs Hes Hf He)
    as (st1 & dll & n & Hlib & Hl & Hn & Hn2 & Hx & Hy & _).
  destruct (write_outcome _ _ _ field_name value _ _ Hl Hn Hn2 Hx Hy)
    as (n' & w & Hrun & Hsd & Hex).
  rewrite (set_event_field_value_settle _ _ _ _ _ Hlib), Hrun.
  assert (loaded (with_warnings w (store st1 dll n')) dll n') as Hl'.
  { split; [apply Hl|]. simpl. by rewrite lookup_insert_eq. }
  eexists. split; [done|].
  rewrite (cwevent_headers_loaded _ _ _ Hl'), (cwevent_ext_headers_loaded _ _ _ Hl').
  rewrite (all_headers_loaded _ _ _ Hl').
  rewrite !(table_headers_ext _ _ _ _ Hsd Hex), Hn, Hn2.
  repeat (split; [done|]). destruct Hl as [Hd _]. by exists dll.
Qed.

Lemma set_event_field_value_keeps_names_witness :
  ∃ st',
    set_event_field_value (pystr "F07") 0 sample_object = (st', Ok tt) ∧
    (cwevent_headers st').2 = Ok (sample_headers "F" 96) ∧
    (cwevent_ext_headers st').2 = Ok (sample_headers "E" 63) ∧
    (all_headers st').2 = Ok (sample_headers "F" 96 ++ sample_headers "E" 63) ∧
    is_Some (_dll st').
Proof.
  assert ((cwevent_headers sample_object).2 = Ok (sample_headers "F" 96)) as H1
    by (vm_compute; reflexivity).
  assert ((cwevent_ext_headers sample_object).2 = Ok (sample_headers "E" 63)) as H2
    by (vm_compute; reflexivity).
  assert ((standard_flags sample_object).2 = Ok (replicate 96 0%Z)) as H3
    by (vm_compute; reflexivity).
  assert ((extended_flags sample_object).2 = Ok (replicate 63 0%Z)) as H4
    by (vm_compute; reflexivity).
  exact (set_event_field_value_keeps_names sample_object (pystr "F07") 0 _ _ _ _
           H1 H2 H3 H4).
Defined.

Lemma set_event_field_value_last_write_wins_witness :
  let twice :=
    (set_event_field_value (pystr "E05") 1;; set_event_field_value (pystr "E05") 0)
      sample_object in
  let once := set_event_field_value (pystr "E05") 0 sample_object in
  twice.2 = Ok tt ∧ once.2 = Ok tt ∧
  (standard_flags twice.1).2 = (standard_flags once.1).2 ∧
  (extended_flags twice.1).2 = (extended_flags once.1).2 ∧
  warnings twice.1 = warnings once.1 ∧
  _dll twice.1 = _dll once.1 ∧
  load_calls twice.1 = load_calls once.1.
Proof.
  assert ((cwevent_headers sample_object).2 = Ok (sample_headers "F" 96)) as H1
    by (vm_compute; reflexivity).
  assert ((cwevent_ext_headers sample_object).2 = Ok (sample_headers "E" 63)) as H2
    by (vm_compute; reflexivity).
  assert (pystr "E05" ∈ sample_headers "F" 96 ++ sample_headers "E" 63) as H3
    by (refine (bool_decide_unpack _ _); vm_compute; exact I).
  assert ((standard_flags sample_object).2 = Ok (replicate 96 0%Z)) as H4
    by (vm_compute; reflexivity).
  assert ((extended_flags sample_object).2 = Ok (replicate 63 0%Z)) as H5
    by (vm_compute; reflexivity).
  exact (set_event_field_value_last_write_wins sample_object (pystr "E05") 1 0 _ _ _ _
           H1 H2 H4 H5 H3).
Defined.

(** ** Active headers *)

Lemma elem_of_enabled h names flags :
  h ∈ enabled names flags ↔ ∃ j, names !! j = Some h ∧ flags !! j = Some 1%Z.
Proof.
  unfold enabled. rewrite list_elem_of_fmap. split.
  - intros ([h' f] & -> & Hin). apply list_elem_of_filter in Hin as [Hf Hin].
    simpl in Hf. subst f. apply list_elem_of_lookup in Hin as [j Hj].
    apply lookup_zip_Some in Hj. by exists j.
  - intros (j & Hn & Hf). exists (h, 1%Z). split; [done|].
    apply list_elem_of_filter. split; [done|].
    apply list_elem_of_lookup. exists j. by apply lookup_zip_Some.
Qed.

Lemma enabled_sublist names flags : enabled names flags `sublist_of` names.
Proof.
  revert flags. induction names as [|h names IH]; intros [|f flags]; try done.
  - apply sublist_nil_l.
  - rewrite enabled_cons. destruct (f =? 1)%Z.
    + by apply sublist_skip.
    + by apply sublist_cons.
Qed.

(** After a write at row [i] of distinct names: the name of the row is
    enabled exactly if the flag written is 1; the others as before. *)
Lemma enabled_insert names flags i f c :
  NoDup names → names !! i = Some f → i < length flags →
  (f ∈ enabled names (<[i := c]> flags) ↔ c = 1%Z) ∧
  (∀ h, h ≠ f → (h ∈ enabled names (<[i := c]> flags) ↔ h ∈ enabled names flags)).
Proof.
  intros Hnd Hi Hlen. split.
  - rewrite elem_of_enabled. split.
    + intros (j & Hj & Hf). assert (j = i) as -> by by eapply NoDup_lookup.
      rewrite list_lookup_insert_eq in Hf by done. by injection Hf.
    + intros ->. exists i. split; [done|]. by apply list_lookup_insert_eq.
  - intros h Hne. rewrite !elem_of_enabled.
    split; intros (j & Hj & Hf); exists j; (split; [done|]).
    + rewrite list_lookup_insert_ne in Hf; [done|]. intros ->. congruence.
    + rewrite list_lookup_insert_ne; [done|]. intros ->. congruence.
Qed.

Lemma bind_Ok {A B} (m : M A) (f : A → M B) st b :
  ((m ≫= f) st).2 = Ok b → ∃ st1 a, m st = (st1, Ok a) ∧ (f a st1).2 = Ok b.
Proof.
  rewrite bind_run. destruct (m st) as [st1 [a|e]]; [|done]. intros H. by exists st1, a.
Qed.

(** If the active headers can be read, both header lists can, and the
    active headers are the enabled names of the two tables. *)
Lemma active_headers_Ok st act :
  (active_headers st).2 = Ok act →
  ∃ st1 dll n hs es,
    libchadwick st = (st1, Ok dll) ∧ loaded st1 dll n ∧
    table_headers n "cwevent_field_data" FIELDS_COUNT = Ok hs ∧
    table_headers n "cwevent_ext_field_data" EXT_FIELDS_COUNT = Ok es ∧
    act = enabled hs (table_flags n "fields" FIELDS_COUNT)
          ++ enabled es (table_flags n "ext_fields" EXT_FIELDS_COUNT).
Proof.
  intros H. pose proof H as H'. unfold active_headers in H'.
  apply bind_Ok in H' as (st0 & hs & Hhs & _).
  assert ((cwevent_headers st).2 = Ok hs) as Hhs' by by rewrite Hhs.
  destruct (cwevent_headers_Ok _ _ Hhs') as (st1 & dll & n & Hlib & Hl & Hn).
  rewrite (active_headers_settle _ _ _ Hlib), (active_headers_loaded _ _ _ Hl) in H.
  cbn [snd] in H.
  destruct (active_names_Ok _ _ H) as (hs' & es & Hn' & Hn2 & _ & _ & ->).
  assert (hs' = hs) as -> by congruence.
  by exists st1, dll, n, hs, es.
Qed.

(** X3: the active headers are a sub-sequence of all headers, standard
    names before extended ones, in table order; at most 159 names. *)
Theorem active_headers_sublist (st : State) (act : list str) :
  (active_headers st).2 = Ok act →
  ∃ hs es,
    (cwevent_headers st).2 = Ok hs ∧ (cwevent_ext_headers st).2 = Ok es ∧
    (all_headers st).2 = Ok (hs ++ es) ∧
    act `sublist_of` hs ++ es ∧
    length act ≤ FIELDS_COUNT + EXT_FIELDS_COUNT.
Proof.
  intros H.
  destruct (active_headers_Ok _ _ H) as (st1 & dll & n & hs & es & Hlib & Hl & Hn & Hn2 & ->).
  exists hs, es.
  rewrite (cwevent_headers_settle _ _ _ Hlib), (cwevent_ext_headers_settle _ _ _ Hlib).
  rewrite (cwevent_headers_loaded _ _ _ Hl), (cwevent_ext_headers_loaded _ _ _ Hl).
  assert (all_headers st = all_headers st1) as ->.
  { unfold all_headers. rewrite (bind_run cwevent_headers), (bind_run cwevent_headers _ st1).
    by rewrite (cwevent_headers_settle _ _ _ Hlib). }
  rewrite (all_headers_loaded _ _ _ Hl), Hn, Hn2.
  split; [done|]. split; [done|]. split; [done|].
  assert (enabled hs (table_flags n "fields" FIELDS_COUNT)
          ++ enabled es (table_flags n "ext_fields" EXT_FIELDS_COUNT)
          `sublist_of` hs ++ es) as Hsub
    by (apply sublist_app; apply enabled_sublist).
  split; [done|]. apply sublist_length in Hsub.
  rewrite (length_app hs es) in Hsub.
  by rewrite (table_headers_length _ _ _ _ Hn), (table_headers_length _ _ _ _ Hn2) in Hsub.
Qed.

Lemma active_headers_sublist_witness :
  let st := (set_event_field (pystr "E05") (set_event_field (pystr "F07") sample_object).1).1 in
  (active_headers st).2 = Ok [pystr "F07"; pystr "E05"] ∧
  ∃ hs es,
    (cwevent_headers st).2 = Ok hs ∧
    (cwevent_ext_headers st).2 = Ok es ∧
    (all_headers st).2 = Ok (hs ++ es) ∧
    [pystr "F07"; pystr "E05"] `sublist_of` hs ++ es ∧
    length [pystr "F07"; pystr "E05"] ≤ FIELDS_COUNT + EXT_FIELDS_COUNT.
Proof.
  intros st.
  assert ((active_headers st).2 = Ok [pystr "F07"; pystr "E05"]) as H
    by (vm_compute; reflexivity).
  split; [exact H|].
  exact (active_headers_sublist st _ H).
Defined.

(** X4: with the four tables readable and pairwise distinct names, after
    a write to a known name the name is among the active headers exactly
    if the value written is 1 as a C int, and every other name is active
    exactly if it was. *)
Theorem active_headers_after_write
    (st : State) (field_name : str) (value : Z) (hs es : list str)
    (flags eflags : list Z) :
  (cwevent_headers st).2 = Ok hs →
  (cwevent_ext_headers st).2 = Ok es →
  (standard_flags st).2 = Ok flags →
  (extended_flags st).2 = Ok eflags →
  NoDup (hs ++ es) →
  field_name ∈ hs ++ es →
  ∃ st' act act',
    set_event_field_value field_name value st = (st', Ok tt) ∧
    (active_headers st).2 = Ok act ∧
    (active_headers st').2 = Ok act' ∧
    (field_name ∈ act' ↔ c_int value = 1%Z) ∧
    (∀ h, h ≠ field_name → (h ∈ act' ↔ h ∈ act)).
Proof.
  intros Hhs Hes Hf He Hnd Hin.
  destruct (write_known _ _ _ _ _ _ Hhs Hes Hf He Hin)
    as (st1 & dll & n & sym & i & Hlib & Hl & Hn & Hn2 & Hx & Hy & Hrow & Hw).
  apply list.NoDup_app in Hnd as (Hndh & Hdisj & Hnde).
  set (n' := poke sym i value n).
  assert (loaded (store st1 dll n') dll n') as Hl' by (apply store_loaded, Hl).
  eexists (store st1 dll n'), _, _.
  split; [by rewrite (set_event_field_value_settle _ _ _ _ _ Hlib), (Hw st1 n value Hl)|].
  rewrite (active_headers_settle _ _ _ Hlib).
  rewrite (active_headers_loaded _ _ _ Hl), (active_headers_loaded _ _ _ Hl').
  rewrite (active_names_exported n hs es) by done.
  rewrite (active_names_exported n' hs es) by done.
  unfold n'.
  split; [done|]. split; [done|].
  rewrite !table_flags_poke_any.
  pose proof (table_headers_length _ _ _ _ Hn) as Hlh.
  pose proof (table_headers_length _ _ _ _ Hn2) as Hle.
  destruct Hrow as [(-> & Hi & _)|(-> & Hnot & Hi & _)].
  - rewrite decide_True, decide_False by done.
    destruct (enabled_insert hs (table_flags n "fields" FIELDS_COUNT) i field_name
                (c_int value) Hndh Hi) as [H1 H2].
    { rewrite table_flags_length, <- Hlh. by eapply lookup_lt_Some. }
    assert (field_name ∉ enabled es (table_flags n "ext_fields" EXT_FIELDS_COUNT)) as Hne.
    { intros (j & Hj & _)%elem_of_enabled. apply (Hdisj field_name).
      - by eapply list_elem_of_lookup_2.
      - by eapply list_elem_of_lookup_2. }
    split.
    + rewrite elem_of_app, H1. tauto.
    + intros h Hh. rewrite !elem_of_app, (H2 h Hh). tauto.
  - rewrite decide_False, decide_True by done.
    destruct (enabled_insert es (table_flags n "ext_fields" EXT_FIELDS_COUNT) i field_name
                (c_int value) Hnde Hi) as [H1 H2].
    { rewrite table_flags_length, <- Hle. by eapply lookup_lt_Some. }
    assert (field_name ∉ enabled hs (table_flags n "fields" FIELDS_COUNT)) as Hne.
    { intros (j & Hj & _)%elem_of_enabled. apply Hnot. by eapply list_elem_of_lookup_2. }
    split.
    + rewrite elem_of_app, H1. tauto.
    + intros h Hh. rewrite !elem_of_app, (H2 h Hh). tauto.
Qed.

Lemma active_headers_after_write_witness :
  NoDup (sample_headers "F" 96 ++ sample_headers "E" 63) ∧
  ∃ st' act act',
    set_event_field_value (pystr "E05") (2 ^ 32 + 1) sample_object = (st', Ok tt) ∧
    (active_headers sample_object).2 = Ok act ∧
    (active_headers st').2 = Ok act' ∧
    (pystr "E05" ∈ act' ↔ c_int (2 ^ 32 + 1) = 1%Z) ∧
    (∀ h, h ≠ pystr "E05" → (h ∈ act' ↔ h ∈ act)).
Proof.
  assert ((cwevent_headers sample_object).2 = Ok (sample_headers "F" 96)) as H1
    by (vm_compute; reflexivity).
  assert ((cwevent_ext_headers sample_object).2 = Ok (sample_headers "E" 63)) as H2
    by (vm_compute; reflexivity).
  assert (NoDup (sample_headers "F" 96 ++ sample_headers "E" 63)) as H3
    by (refine (bool_decide_unpack _ _); vm_compute; exact I).
  assert (pystr "E05" ∈ sample_headers "F" 96 ++ sample_headers "E" 63) as H4
    by (refine (bool_decide_unpack _ _); vm_compute; exact I).
  assert ((standard_flags sample_object).2 = Ok (replicate 96 0%Z)) as H5
    by (vm_compute; reflexivity).
  assert ((extended_flags sample_object).2 = Ok (replicate 63 0%Z)) as H6
    by (vm_compute; reflexivity).
  split; [exact H3|].
  exact (active_headers_after_write sample_object (pystr "E05") (2 ^ 32 + 1) _ _ _ _
           H1 H2 H5 H6 H3 H4).
Defined.

(** ** Reading does not write *)

Lemma reads_ret {A} (a : A) : reads_only (mret a).
Proof. by intros st. Qed.

Lemma reads_raise {A} e : reads_only (raise (A := A) e).
Proof. by intros st. Qed.

Lemma reads_lift {A} (r : result A) : reads_only (lift r).
Proof. by intros st. Qed.

Lemma reads_bind {A B} (m : M A) (f : A → M B) :
  reads_only m → (∀ a, reads_only (f a)) → reads_only (m ≫= f).
Proof.
  intros Hm Hf st. rewrite bind_run.
  destruct (Hm st) as (H1 & H2 & H3 & H4). destruct (m st) as [st1 [a|e]]; [|done].
  simpl in *. destruct (Hf a st1) as (H5 & H6 & H7 & H8).
  split; [congruence|]. split; [congruence|]. split; [congruence|].
  intros Hd. specialize (H4 Hd). subst st1. by apply H8.
Qed.

Lemma reads_libchadwick : reads_only libchadwick.
Proof.
  intros st. rewrite libchadwick_run. destruct (_dll st) as [dll|] eqn:E.
  - done.
  - cbv zeta. destruct (shared_objects st !! library_path st); simpl;
      (repeat (split; [done|])); intros [? ?]; congruence.
Qed.

Lemma reads_native_of dll : reads_only (native_of dll).
Proof.
  intros st. unfold native_of. by destruct (shared_objects st !! _name dll).
Qed.

Lemma reads_if {A} (b : bool) (m1 m2 : M A) :
  reads_only m1 → reads_only m2 → reads_only (if b then m1 else m2).
Proof. by destruct b. Qed.

Lemma reads_for_list {A B} (f : A → M B) l :
  (∀ a, reads_only (f a)) → reads_only (for_list f l).
Proof.
  intros Hf. induction l as [|x l IH]; [apply reads_ret|].
  cbn [for_list]. apply reads_bind; [done|]. intros y.
  apply reads_bind; [done|]. intros ys. apply reads_ret.
Qed.

Lemma reads_filter_enumerate {A} (keep : nat → M bool) i (l : list A) :
  (∀ i, reads_only (keep i)) → reads_only (filter_enumerate keep i l).
Proof.
  intros Hk. revert i. induction l as [|x l IH]; intros i; [apply reads_ret|].
  cbn [filter_enumerate]. apply reads_bind; [done|]. intros b.
  apply reads_bind; [done|]. intros hs. apply reads_ret.
Qed.

Create HintDb reads discriminated.

#[local] Hint Resolve reads_ret reads_raise reads_lift reads_libchadwick reads_native_of
  reads_if reads_for_list reads_filter_enumerate : reads.
#[local] Hint Extern 2 (reads_only (_ ≫= _)) => apply reads_bind; [|intros ?] : reads.
#[local] Hint Extern 5 (reads_only (match ?x with _ => _ end)) => destruct x : reads.

Ltac reads := auto 20 with reads.

Lemma reads_in_dll len dll sym : reads_only (in_dll len dll sym).
Proof. unfold in_dll. reads. Qed.

Lemma reads_getitem_struct a i : reads_only (getitem_struct a i).
Proof. unfold getitem_struct. reads. Qed.

Lemma reads_getitem_int a i : reads_only (getitem_int a i).
Proof. unfold getitem_int. reads. Qed.

#[local] Hint Resolve reads_in_dll reads_getitem_struct reads_getitem_int : reads.

Lemma reads_cwevent_headers : reads_only cwevent_headers.
Proof. unfold cwevent_headers, cwevent_field_data, for_array. reads. Qed.

Lemma reads_cwevent_ext_headers : reads_only cwevent_ext_headers.
Proof. unfold cwevent_ext_headers, cwevent_ext_field_data, for_array. reads. Qed.

#[local] Hint Resolve reads_cwevent_headers reads_cwevent_ext_headers : reads.

Lemma reads_all_headers : reads_only all_headers.
Proof. unfold all_headers. reads. Qed.

Lemma reads_active_headers : reads_only active_headers.
Proof. unfold active_headers, cwevent_fields, cwevent_ext_fields. reads. Qed.

Lemma reads_dicticize_event_string event_bytes headers :
  reads_only (dicticize_event_string event_bytes headers).
Proof.
  unfold dicticize_event_string. apply reads_bind; [|reads].
  destruct headers; [reads|apply reads_active_headers].
Qed.

Lemma reads_games_step g r : reads_only (games_step g r).
Proof.
  unfold games_step, loop_head, except_handler, fopen, feof, fclose.
  destruct g, r; reads.
Qed.

(** X5: the header accessors, [active_headers], [dicticize_event_string]
    and every step of the [games] generator write nothing: whatever their
    outcome, the globals of every shared object, the log and the library
    path are as before, and with a handle stored the whole state is. *)
Theorem readers_do_not_write
    (event_bytes : bytes) (headers : option (list str)) (g : gen_state) (r : response) :
  reads_only cwevent_headers ∧
  reads_only cwevent_ext_headers ∧
  reads_only all_headers ∧
  reads_only active_headers ∧
  reads_only (dicticize_event_string event_bytes headers) ∧
  reads_only (games_step g r).
Proof.
  split; [apply reads_cwevent_headers|]. split; [apply reads_cwevent_ext_headers|].
  split; [apply reads_all_headers|]. split; [apply reads_active_headers|].
  split; [apply reads_dicticize_event_string|apply reads_games_step].
Qed.

(** ** Outcomes of construction *)

Lemma table_headers_Raise n sym len e :
  table_headers n sym len = Raise e →
  (exported n sym = false ∧ e = ValueError) ∨
  (exported n sym = true ∧ e = UnicodeDecodeError).
Proof.
  unfold table_headers. destruct (exported n sym); [|intros [= <-]; by left].
  intros H. right. split; [done|]. revert H.
  generalize (map (struct_data n sym) (seq 0 len)).
  intros l. induction l as [|p l IH]; [done|]. simpl.
  unfold decode at 1. destruct (utf8_decode (header p)); [|by intros [= <-]].
  destruct (for_result _ l); [done|]. intros [= <-]. by apply IH.
Qed.



(** ** Records, continued *)

Lemma str_join_cons_cons sep c f fs :
  str_join sep ((c :: f) :: fs) = c :: str_join sep (f :: fs).
Proof. by destruct fs. Qed.

Lemma str_join_nil_cons sep fs :
  fs ≠ [] → str_join sep ([] :: fs) = sep :: str_join sep fs.
Proof. by destruct fs. Qed.

(** Dropping a character from every field and joining the fields is
    dropping it from the string, for a character other than the
    separator. *)
Lemma str_join_remove_split sep q s :
  q ≠ sep →
  str_join sep (map (str_remove q) (str_split sep s)) = str_remove q s.
Proof.
  intros Hq. induction s as [|c s IH]; [done|].
  rewrite str_split_cons. pose proof (str_split_nonempty sep s) as Hne.
  destruct (N.eqb_spec c sep) as [->|Hc].
  - cbn [map]. change (str_remove q []) with (@nil N).
    rewrite str_join_nil_cons by by destruct (str_split sep s).
    rewrite IH, str_remove_cons.
    destruct (N.eqb_spec sep q); [congruence|done].
  - destruct (str_split sep s) as [|f fs]; [done|]. cbn [map] in *.
    rewrite !str_remove_cons. destruct (N.eqb_spec c q) as [->|Hcq]; [done|].
    by rewrite str_join_cons_cons, IH.
Qed.

Lemma str_remove_id q s : q ∉ s → str_remove q s = s.
Proof.
  induction s as [|c s IH]; [done|]. rewrite not_elem_of_cons, str_remove_cons.
  intros [Hne Hs]. destruct (N.eqb_spec c q); [congruence|]. by rewrite IH.
Qed.

Lemma listicize_event_string_nonempty event_bytes fields :
  listicize_event_string event_bytes = Ok fields → fields ≠ [].
Proof.
  unfold listicize_event_string. destruct (decode event_bytes) as [s|e]; [|done].
  intros [= <-]. pose proof (str_split_nonempty comma s).
  by destruct (str_split comma s).
Qed.

(** X7: the fields that [listicize_event_string] returns, joined with
    commas, are the decoded record without its double quotes; for a
    record without quotes they are the decoded record itself. There is
    always at least one field. *)
Theorem listicize_event_string_join (event_bytes : bytes) (fields : list str) :
  listicize_event_string event_bytes = Ok fields →
  ∃ s,
    decode event_bytes = Ok s ∧
    str_join comma fields = str_remove dquote s ∧
    (dquote ∉ s → str_join comma fields = s) ∧
    fields ≠ [].
Proof.
  unfold listicize_event_string. destruct (decode event_bytes) as [s|e]; [|done].
  intros [= <-]. exists s. split; [done|].
  assert (str_join comma (map (str_remove dquote) (str_split comma s))
          = str_remove dquote s) as H by by apply str_join_remove_split.
  split; [done|]. split; [intros Hq; by rewrite H, str_remove_id|].
  pose proof (str_split_nonempty comma s). by destruct (str_split comma s).
Qed.

Lemma listicize_event_string_join_witness :
  ∃ s,
    decode plain_record = Ok s ∧
    str_join comma [pystr "ANA201904040"; pystr "1"; pystr "0"] = str_remove dquote s ∧
    (dquote ∉ s → str_join comma [pystr "ANA201904040"; pystr "1"; pystr "0"] = s) ∧
    [pystr "ANA201904040"; pystr "1"; pystr "0"] ≠ [].
Proof.
  assert (listicize_event_string plain_record
          = Ok [pystr "ANA201904040"; pystr "1"; pystr "0"]) as H
    by (vm_compute; reflexivity).
  exact (listicize_event_string_join plain_record _ H).
Defined.

Lemma utf8_decode_ascii (bs : bytes) :
  Forall (λ b, (Byte.to_N b < 128)%N) bs → utf8_decode bs = Some (map Byte.to_N bs).
Proof.
  induction 1 as [|b bs Hb _ IH]; [done|].
  cbn [utf8_decode map]. apply N.ltb_lt in Hb. rewrite Hb. by rewrite IH.
Qed.

(** X8: on a record of ASCII bytes [listicize_event_string] does not
    raise: the fields are the bytes between the commas, without the
    double quotes. *)
Theorem listicize_event_string_ascii (event_bytes : bytes) :
  Forall (λ b, (Byte.to_N b < 128)%N) event_bytes →
  listicize_event_string event_bytes
  = Ok (map (str_remove dquote) (str_split comma (map Byte.to_N event_bytes))).
Proof.
  intros H. unfold listicize_event_string, decode. by rewrite utf8_decode_ascii.
Qed.

Lemma listicize_event_string_ascii_witness :
  listicize_event_string quoted_comma_record
  = Ok (map (str_remove dquote) (str_split comma (map Byte.to_N quoted_comma_record))).
Proof.
  assert (Forall (λ b, (Byte.to_N b < 128)%N) quoted_comma_record) as H.
  { repeat (constructor; [by vm_compute|]). constructor. }
  exact (listicize_event_string_ascii quoted_comma_record H).
Defined.

Lemma dict_size_NoDup {V} (l : list (str * V)) : NoDup l.*1 → size (dict l) = length l.
Proof.
  induction l as [|[k v] l IH] using rev_ind; intros Hnd; [done|].
  rewrite fmap_app in Hnd. apply list.NoDup_app in Hnd as (Hl & Hdisj & _).
  rewrite dict_snoc, length_app, Nat.add_1_r. simpl.
  rewrite map_size_insert_None; [by rewrite IH|].
  apply eq_None_not_Some. rewrite dict_is_Some. intros Hk.
  apply (Hdisj k Hk). simpl. apply list_elem_of_here.
Qed.

Lemma NoDup_zip_fst {A B} (l : list A) (k : list B) : NoDup l → NoDup (zip l k).*1.
Proof.
  intros H. rewrite zip_fst_take. eapply sublist_NoDup; [done|apply sublist_take].
Qed.

(** X9: with pairwise distinct headers the mapping pairs position by
    position: header [i] maps to field [i], a header beyond the last
    field is no key, and the mapping has exactly min(#headers, #fields)
    entries. *)
Theorem dicticize_event_string_distinct_headers
    (st st' : State) (event_bytes : bytes) (headers : list str) (d : gmap str str) :
  NoDup headers →
  dicticize_event_string event_bytes (Some headers) st = (st', Ok d) →
  ∃ fields,
    listicize_event_string event_bytes = Ok fields ∧
    size d = length headers `min` length fields ∧
    (∀ i h, headers !! i = Some h → d !! h = fields !! i).
Proof.
  intros Hnd. rewrite dicticize_given.
  destruct (listicize_event_string event_bytes) as [fields|e]; [|done].
  intros [= <- <-]. exists fields. split; [done|]. split.
  - rewrite dict_size_NoDup by by apply NoDup_zip_fst. apply length_zip.
  - intros i h Hi. destruct (fields !! i) as [v|] eqn:Hf.
    + apply (dict_lookup_last _ i); [by apply lookup_zip_Some|].
      intros j v' Hij Hj. apply lookup_zip_Some in Hj as [Hj _].
      assert (i = j) by by eapply NoDup_lookup. lia.
    + apply eq_None_not_Some. rewrite dict_is_Some, zip_fst_take.
      intros Hin. apply list_elem_of_lookup in Hin as [j Hj].
      apply lookup_take_Some in Hj as [Hj Hlt].
      assert (i = j) as -> by by eapply NoDup_lookup.
      apply lookup_ge_None in Hf. lia.
Qed.

Lemma dicticize_event_string_distinct_headers_witness :
  let hs := [pystr "GAME_ID"; pystr "INN_CT"; pystr "BAT_HOME_ID"; pystr "OUTS_CT"] in
  NoDup hs ∧
  ∃ d fields,
    dicticize_event_string plain_record (Some hs) idle = (idle, Ok d) ∧
    listicize_event_string plain_record = Ok fields ∧
    size d = length hs `min` length fields ∧
    (∀ i h, hs !! i = Some h → d !! h = fields !! i).
Proof.
  intros hs.
  assert (NoDup hs) as H1 by (refine (bool_decide_unpack _ _); vm_compute; exact I).
  split; [exact H1|].
  eexists. 
  assert (dicticize_event_string plain_record (Some hs) idle
          = (idle, Ok (dict (zip hs [pystr "ANA201904040"; pystr "1"; pystr "0"])))) as H2
    by (rewrite dicticize_given; reflexivity).
  destruct (dicticize_event_string_distinct_headers idle idle plain_record hs _ H1 H2)
    as (fields & Hf & Hrest).
  exists fields. split; [exact H2|]. split; [exact Hf|exact Hrest].
Defined.

(** X10: for a record that decodes, the mapping is empty exactly when
    the header list given is empty: an empty list is not replaced by the
    active headers, and even the empty record has one (empty) field. *)
Theorem dicticize_event_string_empty
    (st st' : State) (event_bytes : bytes) (headers : list str) (d : gmap str str) :
  dicticize_event_string event_bytes (Some headers) st = (st', Ok d) →
  (d = ∅ ↔ headers = []).
Proof.
  rewrite dicticize_given.
  destruct (listicize_event_string event_bytes) as [fields|e] eqn:E; [|done].
  intros [= <- <-].
  pose proof (listicize_event_string_nonempty _ _ E) as Hne.
  split.
  - intros Hd. destruct headers as [|h headers]; [done|].
    destruct fields as [|f fields]; [done|].
    assert (is_Some (dict (zip (h :: headers) (f :: fields)) !! h)) as [v Hv].
    { apply dict_is_Some. simpl. apply list_elem_of_here. }
    by rewrite Hd, lookup_empty in Hv.
  - by intros ->.
Qed.

Lemma dicticize_event_string_empty_witness :
  ∃ d,
    dicticize_event_string [] (Some [pystr "GAME_ID"]) idle = (idle, Ok d) ∧
    d !! pystr "GAME_ID" = Some [] ∧
    (d = ∅ ↔ [pystr "GAME_ID"] = []).
Proof.
  assert (dicticize_event_string [] (Some [pystr "GAME_ID"]) idle
          = (idle, Ok (dict (zip [pystr "GAME_ID"] [[]])))) as H
    by (rewrite dicticize_given; reflexivity).
  eexists. split; [exact H|]. split; [by vm_compute|].
  exact (dicticize_event_string_empty idle idle [] [pystr "GAME_ID"] _ H).
Defined.

(** ** The generator [games], continued *)

Lemma drive_first file_path script st rq :
  drive (Created file_path) script st !! 0 = Some rq →
  rq = CallFopen file_path (pybytes "r") ∨ ∃ e, rq = Propagate e.
Proof.
  intros H0. destruct script as [|r0 script']; [done|].
  rewrite drive_cons in H0. simpl in H0. injection H0 as <-.
  destruct (resume_created file_path r0 st) as [[-> _]|[e ->]]; [by left|right; by eexists].
Qed.

(** An answered request: where the generator waited, its next request,
    and the run from there. *)
Lemma drive_step script g0 st0 i rq r :
  started g0 st0 →
  drive g0 script st0 !! i = Some rq →
  script !! (S i) = Some r →
  ∃ g st' rest,
    started g st' ∧ awaits g rq ∧
    drive g0 script st0 !! (S i) = Some (resume g r st').2.2 ∧
    (∀ k, script !! (S (S i) + k) = rest !! k) ∧
    (∀ k, drive g0 script st0 !! (S (S i) + k)
          = drive (resume g r st').2.1 rest (resume g r st').1 !! k).
Proof.
  intros Hs Hi Hr.
  destruct (drive_succ _ _ _ _ _ Hs Hi) as (g & st' & Hs' & Ha & Hk & Hnext & _).
  destruct (drop_lookup_cons _ _ _ Hr) as (rest & Hrest & Hrk).
  exists g, st', rest. split; [done|]. split; [done|]. split; [by apply Hnext|].
  split; [done|]. intros k. replace (S (S i) + k) with (S i + S k) by lia.
  by rewrite Hk, Hrest, drive_cons.
Qed.

(** X11: [fclose] is requested only in answer to an exception, raised by
    the read or thrown into the generator at a [yield]; in a run without
    exceptions the file is never closed, not even at end of file. *)
Theorem games_closes_only_after_exception
    (st : State) (file_path : bytes) (script : list response) :
  let outs := drive (games file_path) script st in
  (∀ i fh, outs !! i = Some (CallFclose fh) →
     ∃ i' e, i = S i' ∧ script !! i = Some (Raised e) ∧
       (outs !! i' = Some (CallGameRead fh) ∨ ∃ game, outs !! i' = Some (Yield game))) ∧
  ((∀ r, r ∈ script → ∃ v, r = Returned v) →
   ∀ i fh, outs !! i ≠ Some (CallFclose fh)).
Proof.
  intros outs. unfold games in outs.
  assert (∀ i fh, outs !! i = Some (CallFclose fh) →
     ∃ i' e, i = S i' ∧ script !! i = Some (Raised e) ∧
       (outs !! i' = Some (CallGameRead fh) ∨ ∃ game, outs !! i' = Some (Yield game)))
    as Hclose.
  { intros i fh Hi. destruct i as [|i].
    { destruct (drive_first _ _ _ _ Hi) as [?|[e ?]]; by simplify_eq. }
    destruct (drive_pred _ _ _ _ _ Hi) as (g & st' & r & rq' & Hprev & Hr & Hs & Ha & Hrq).
    rewrite resume_steps in Hrq by done.
    destruct g, r; try done; try (by destruct (v =? 0)%Z);
      simpl in Hrq; injection Hrq as ->; destruct rq'; try done; simpl in Ha; subst;
      exists i, e; (split; [done|]); (split; [done|]); [by left|right; by eexists]. }
  split; [done|]. intros Hall i fh Hi.
  destruct (Hclose _ _ Hi) as (i' & e & -> & Hr & _).
  apply list_elem_of_lookup_2 in Hr. destruct (Hall _ Hr) as [v ?]. done.
Qed.

(** X12: an exception thrown into the generator at a [yield] (so also
    [gen.close()]) is caught: the generator calls [fclose] on the handle
    [fopen] returned and, when that returns, ends with [StopIteration];
    it yields nothing more. *)
Theorem thrown_at_yield_closes_and_stops
    (st : State) (file_path : bytes) (script : list response)
    (i : nat) (game : Z) (e : exn) :
  let outs := drive (games file_path) script st in
  outs !! i = Some (Yield game) →
  script !! (S i) = Some (Raised e) →
  ∃ fh,
    script !! 1 = Some (Returned fh) ∧
    outs !! (S i) = Some (CallFclose fh) ∧
    (∀ v, script !! (S (S i)) = Some (Returned v) → outs !! (S (S i)) = Some StopIteration) ∧
    (∀ j rq, S i < j → outs !! j = Some rq →
       rq = StopIteration ∨ ∃ e', rq = Propagate e' ∧ script !! j = Some (Raised e')).
Proof.
  intros outs Hi He. unfold games in outs.
  destruct (drive_step script (Created file_path) st i _ _ I Hi He)
    as (g & st1 & rest & Hs & Ha & Hnext & Hrk & Hk).
  destruct g as [| | | |fh| |]; try done.
  rewrite resume_steps in Hnext, Hk by done. cbn [fst snd] in Hnext, Hk.
  exists fh. split; [by apply (games_handle file_path script st (S i) _ _ Hnext)|].
  split; [done|]. split.
  - intros v Hv. pose proof (Hk 0) as H0. pose proof (Hrk 0) as H1.
    rewrite Nat.add_0_r in H0, H1. unfold outs. rewrite H0. rewrite Hv in H1.
    destruct rest as [|r rest']; [done|]. simpl in H1. injection H1 as <-.
    by rewrite drive_cons.
  - intros j rq Hj Hrq. replace j with (S (S i) + (j - S (S i))) in Hrq |- * by lia.
    unfold outs in Hrq. rewrite Hk in Hrq. rewrite Hrk. by eapply drive_closing.
Qed.

Lemma thrown_at_yield_closes_and_stops_witness :
  let script := [Returned 0; Returned 7; Returned 0; Returned 100; Raised GeneratorExit;
                 Returned 0] in
  let outs := drive (games (pybytes "2019ANA.EVA")) script sample_object in
  outs = [CallFopen (pybytes "2019ANA.EVA") (pybytes "r"); CallFeof 7; CallGameRead 7;
          Yield 100; CallFclose 7; StopIteration] ∧
  ∃ fh,
    script !! 1 = Some (Returned fh) ∧
    outs !! 4 = Some (CallFclose fh) ∧
    (∀ v, script !! 5 = Some (Returned v) → outs !! 5 = Some StopIteration) ∧
    (∀ j rq, 4 < j → outs !! j = Some rq →
       rq = StopIteration ∨ ∃ e', rq = Propagate e' ∧ script !! j = Some (Raised e')).
Proof.
  intros script outs.
  assert (outs !! 3 = Some (Yield 100)) as H1 by (vm_compute; reflexivity).
  assert (script !! 4 = Some (Raised GeneratorExit)) as H2 by reflexivity.
  split; [vm_compute; reflexivity|].
  exact (thrown_at_yield_closes_and_stops sample_object (pybytes "2019ANA.EVA")
           script 3 100 GeneratorExit H1 H2).
Defined.

(** X13: an exception raised by [fopen], [feof] or [fclose] is not
    caught: it leaves the generator as it is, the generator is finished,
    and no call follows, so after a failing [feof] the file stays open. *)
Theorem call_errors_propagate
    (st : State) (file_path : bytes) (script : list response)
    (i : nat) (rq : request) (e : exn) :
  let outs := drive (games file_path) script st in
  outs !! i = Some rq →
  (∀ fh, rq ≠ CallGameRead fh) → (∀ game, rq ≠ Yield game) →
  script !! (S i) = Some (Raised e) →
  outs !! (S i) = Some (Propagate e) ∧
  (∀ j rq', S i < j → outs !! j = Some rq' →
     rq' = StopIteration ∨ ∃ e', rq' = Propagate e' ∧ script !! j = Some (Raised e')).
Proof.
  intros outs Hi Hnr Hny He. unfold games in outs.
  destruct (drive_step script (Created file_path) st i _ _ I Hi He)
    as (g & st1 & rest & Hs & Ha & Hnext & Hrk & Hk).
  assert ((resume g (Raised e) st1).2 = (Finished, Propagate e)) as Hstep.
  { rewrite resume_steps by done.
    destruct g, rq; try done; simpl in Ha; subst;
      [by destruct (Hnr file_handle0)|by destruct (Hny game)]. }
  rewrite Hstep in Hnext, Hk. split; [done|].
  intros j rq' Hj Hrq. replace j with (S (S i) + (j - S (S i))) in Hrq |- * by lia.
  unfold outs in Hrq. rewrite Hk in Hrq. rewrite Hrk. by eapply drive_finished.
Qed.

Lemma call_errors_propagate_witness :
  let script := [Returned 0; Returned 7; Raised (Exception "ArgumentError"); Returned 0] in
  let outs := drive (games (pybytes "2019ANA.EVA")) script sample_object in
  outs = [CallFopen (pybytes "2019ANA.EVA") (pybytes "r"); CallFeof 7;
          Propagate (Exception "ArgumentError"); StopIteration] ∧
  outs !! 2 = Some (Propagate (Exception "ArgumentError")) ∧
  (∀ j rq', 2 < j → outs !! j = Some rq' →
     rq' = StopIteration ∨ ∃ e', rq' = Propagate e' ∧ script !! j = Some (Raised e')).
Proof.
  intros script outs.
  assert (outs !! 1 = Some (CallFeof 7)) as H1 by (vm_compute; reflexivity).
  assert (script !! 2 = Some (Raised (Exception "ArgumentError"))) as H2 by reflexivity.
  split; [vm_compute; reflexivity|].
  exact (call_errors_propagate sample_object (pybytes "2019ANA.EVA") script 1 _ _ H1
           ltac:(discriminate) ltac:(discriminate) H2).
Defined.

Lemma games_closes_only_after_exception_witness :
  let script := reading_script 7 [100; 200]%Z 1 in
  let outs := drive (games (pybytes "2019ANA.EVA")) script sample_object in
  (∀ r, r ∈ script → ∃ v, r = Returned v) ∧
  ∀ i fh, outs !! i ≠ Some (CallFclose fh).
Proof.
  intros script outs.
  assert (∀ r, r ∈ script → ∃ v, r = Returned v) as H.
  { intros r Hr. unfold script, reading_script in Hr. cbn [map concat app] in Hr.
    repeat (apply elem_of_cons in Hr as [->|Hr]; [by eexists|]).
    by apply elem_of_nil in Hr. }
  split; [exact H|].
  exact (proj2 (games_closes_only_after_exception sample_object (pybytes "2019ANA.EVA")
                  script) H).
Defined.

(** ** Frames, continued *)

Section FrameComposition.
Context {Column DType : Type}.
Variable astype : Column → DType → result Column.
Variable loc_setitem : Column → Column → Column.
Variable loc_rows_upto : gmap str Column → str → result string.

Local Abbreviation convert :=
  (convert_data_frame_types Column DType astype loc_setitem loc_rows_upto).

Lemma convert_app m1 : ∀ df m2,
  convert df (m1 ++ m2) =
  match convert df m1 with
  | (df1, out1, Ok _) =>
      (((convert df1 m2).1.1, out1 ++ (convert df1 m2).1.2), (convert df1 m2).2)
  | (df1, out1, Raise e) => (df1, out1, Raise e)
  end.
Proof.
  induction m1 as [|[c t] m1 IH]; intros df m2.
  { simpl. by destruct (convert df m2) as [[? ?] ?]. }
  rewrite <- app_comm_cons, !(convert_cons astype loc_setitem loc_rows_upto).
  destruct (df !! c) as [col|]; [|apply IH].
  destruct (astype col t) as [new|e]; [apply IH|].
  destruct e; try done. by destruct (loc_rows_upto df c).
Qed.

(** What is printed: nothing unless the call raises; else at most the
    name of the column that failed and the rows. *)
Lemma convert_printed m : ∀ df,
  ((convert df m).2 = Ok tt → (convert df m).1.2 = []) ∧
  (∀ p, (convert df m).1.2 !! 0 = Some p →
     ∃ c col t, p = CannotConvert c ∧ (c, t) ∈ m ∧
                (convert df m).1.1 !! c = Some col ∧ astype col t = Raise TypeError) ∧
  length (convert df m).1.2 ≤ 2.
Proof.
  induction m as [|[c t] m IH]; intros df.
  { simpl. repeat split; [done|lia]. }
  rewrite (convert_cons astype loc_setitem loc_rows_upto).
  destruct (df !! c) as [col|] eqn:E.
  - destruct (astype col t) as [new|e] eqn:Ea.
    + destruct (IH (<[c:=loc_setitem col new]> df)) as (H1 & H2 & H3).
      split; [done|]. split; [|done]. intros p Hp.
      destruct (H2 p Hp) as (c0 & col0 & t0 & -> & Hin & Hc0 & Ha).
      exists c0, col0, t0. split; [done|]. split; [by apply list_elem_of_further|done].
    + destruct e; try (simpl; repeat split; [done|lia]).
      destruct (loc_rows_upto df c); simpl.
      * split; [done|]. split; [|lia]. intros p [= <-].
        exists c, col, t. split; [done|]. split; [apply list_elem_of_here|done].
      * split; [done|]. split; [|lia]. intros p [= <-].
        exists c, col, t. split; [done|]. split; [apply list_elem_of_here|done].
  - destruct (IH df) as (H1 & H2 & H3).
    split; [done|]. split; [|done]. intros p Hp.
    destruct (H2 p Hp) as (c0 & col0 & t0 & -> & Hin & Hc0 & Ha).
    exists c0, col0, t0. split; [done|]. split; [by apply list_elem_of_further|done].
Qed.

(** With distinct keys the call returns exactly if every column that
    the mapping names and the frame has converts. *)
Lemma convert_Ok_iff m : ∀ df,
  NoDup m.*1 →
  ((convert df m).2 = Ok tt ↔
   ∀ c t col, (c, t) ∈ m → df !! c = Some col → ∃ new, astype col t = Ok new).
Proof.
  intros df Hnd. split.
  { intros Hr c t col Hin Hc.
    destruct (convert_mapped astype loc_setitem loc_rows_upto m df c t col Hr Hnd Hin Hc)
      as (new & ? & _). by exists new. }
  revert df Hnd. induction m as [|[c0 t0] m IH]; intros df Hnd Hall; [done|].
  rewrite fmap_cons in Hnd. apply list.NoDup_cons in Hnd as [Hc0 Hnd]. simpl in Hc0.
  rewrite (convert_cons astype loc_setitem loc_rows_upto).
  destruct (df !! c0) as [col|] eqn:E.
  - destruct (Hall c0 t0 col) as [new ->]; [apply list_elem_of_here|done|].
    apply IH; [done|]. intros c t col' Hin Hc.
    assert (c ≠ c0) as Hne.
    { intros ->. apply Hc0. by apply (list_elem_of_fmap_2 fst _ (c0, t)). }
    rewrite lookup_insert_ne in Hc by done.
    apply (Hall c t col'); [by apply list_elem_of_further|done].
  - apply IH; [done|]. intros c t col' Hin Hc.
    apply (Hall c t col'); [by apply list_elem_of_further|done].
Qed.

Lemma convert_permutation m m' df :
  NoDup m.*1 → m ≡ₚ m' →
  (convert df m).2 = Ok tt →
  convert df m' = convert df m.
Proof.
  intros Hnd Hp Hr.
  assert (NoDup m'.*1) as Hnd' by by rewrite <- Hp.
  assert ((convert df m').2 = Ok tt) as Hr'.
  { apply convert_Ok_iff; [done|]. intros c t col Hin Hc.
    rewrite <- Hp in Hin. by apply (proj1 (convert_Ok_iff m df Hnd) Hr c t col). }
  destruct (convert_printed m df) as (Ho & _). destruct (convert_printed m' df) as (Ho' & _).
  specialize (Ho Hr). specialize (Ho' Hr').
  assert ((convert df m').1.1 = (convert df m).1.1) as Hdf.
  { apply map_eq. intros c.
    destruct (decide (c ∈ m.*1)) as [Hin|Hnin].
    - apply list_elem_of_fmap in Hin as ([c' t] & -> & Hin). simpl.
      destruct (df !! c') as [col|] eqn:Hc.
      + destruct (convert_mapped astype loc_setitem loc_rows_upto m df c' t col
                    Hr Hnd Hin Hc) as (new & Hn & ->).
        assert ((c', t) ∈ m') as Hin' by by rewrite <- Hp.
        destruct (convert_mapped astype loc_setitem loc_rows_upto m' df c' t col
                    Hr' Hnd' Hin' Hc) as (new' & Hn' & ->).
        congruence.
      + apply not_elem_of_dom in Hc.
        rewrite <- (convert_dom astype loc_setitem loc_rows_upto m df) in Hc.
        apply not_elem_of_dom in Hc. rewrite Hc.
        apply not_elem_of_dom.
        rewrite (convert_dom astype loc_setitem loc_rows_upto m' df).
        rewrite <- (convert_dom astype loc_setitem loc_rows_upto m df).
        by apply not_elem_of_dom.
    - rewrite !(convert_unmapped astype loc_setitem loc_rows_upto); [done|done|].
      by rewrite <- Hp. }
  destruct (convert df m) as [[d o] r], (convert df m') as [[d' o'] r'].
  simpl in *. by subst.
Qed.

(** The outcomes of a call, with what each prints. *)
Lemma convert_outcome m : ∀ df,
  ((convert df m).2 = Ok tt ∧ (convert df m).1.2 = []) ∨
  ∃ c col t,
    (c, t) ∈ m ∧ (convert df m).1.1 !! c = Some col ∧
    ((astype col t = Raise TypeError ∧
      ((∃ text, loc_rows_upto (convert df m).1.1 c = Ok text ∧
                (convert df m).1.2 = [CannotConvert c; Rows text] ∧
                (convert df m).2 = Raise TypeError) ∨
       (∃ e, loc_rows_upto (convert df m).1.1 c = Raise e ∧
             (convert df m).1.2 = [CannotConvert c] ∧
             (convert df m).2 = Raise e))) ∨
     (∃ e, e ≠ TypeError ∧ astype col t = Raise e ∧
           (convert df m).1.2 = [] ∧ (convert df m).2 = Raise e)).
Proof.
  induction m as [|[c t] m IH]; intros df; [by left|].
  rewrite (convert_cons astype loc_setitem loc_rows_upto).
  assert (∀ df', ((convert df' m).2 = Ok tt ∧ (convert df' m).1.2 = []) ∨
    (∃ c0 col t0,
      (c0, t0) ∈ (c, t) :: m ∧ (convert df' m).1.1 !! c0 = Some col ∧
      ((astype col t0 = Raise TypeError ∧
        ((∃ text, loc_rows_upto (convert df' m).1.1 c0 = Ok text ∧
                  (convert df' m).1.2 = [CannotConvert c0; Rows text] ∧
                  (convert df' m).2 = Raise TypeError) ∨
         (∃ e, loc_rows_upto (convert df' m).1.1 c0 = Raise e ∧
               (convert df' m).1.2 = [CannotConvert c0] ∧
               (convert df' m).2 = Raise e))) ∨
       (∃ e, e ≠ TypeError ∧ astype col t0 = Raise e ∧
             (convert df' m).1.2 = [] ∧ (convert df' m).2 = Raise e)))) as Hrest.
  { intros df'. destruct (IH df') as [?|(c0 & col & t0 & Hin & Hrest)]; [by left|right].
    exists c0, col, t0. split; [by apply list_elem_of_further|done]. }
  destruct (df !! c) as [col|] eqn:E; [|apply Hrest].
  destruct (astype col t) as [new|e] eqn:Ea; [apply Hrest|].
  right. exists c, col, t. split; [apply list_elem_of_here|].
  destruct e;
    try (split; [done|]; right; eexists; split; [|split; [exact Ea|split; reflexivity]];
         discriminate).
  destruct (loc_rows_upto df c) as [text|e] eqn:El; cbn [fst snd].
  - split; [done|]. left. split; [done|]. left. by exists text.
  - split; [done|]. left. split; [done|]. right. by exists e.
Qed.

End FrameComposition.

(** X14: converting with the items of two mappings one after the other
    is converting with the first, then, if that returned, with the
    second on the frame it left; if the first raised, the frame stays
    as the first left it, with the conversions made so far. *)
Theorem convert_data_frame_types_sequence
    {Column DType : Type}
    (astype : Column → DType → result Column)
    (loc_setitem : Column → Column → Column)
    (loc_rows_upto : gmap str Column → str → result string)
    (df : gmap str Column) (m1 m2 : list (str * DType)) :
  let convert :=
    convert_data_frame_types Column DType astype loc_setitem loc_rows_upto in
  match (convert df m1).2 with
  | Ok _ =>
      (convert df (m1 ++ m2)).1.1 = (convert (convert df m1).1.1 m2).1.1 ∧
      (convert df (m1 ++ m2)).1.2 = (convert (convert df m1).1.1 m2).1.2 ∧
      (convert df (m1 ++ m2)).2 = (convert (convert df m1).1.1 m2).2
  | Raise e => convert df (m1 ++ m2) = convert df m1
  end.
Proof.
  cbv zeta. rewrite convert_app.
  pose proof (convert_printed astype loc_setitem loc_rows_upto m1 df) as (Ho & _).
  destruct (convert_data_frame_types Column DType astype loc_setitem loc_rows_upto df m1)
    as [[df1 out1] [[]|e]]; [|done].
  simpl in *. by rewrite (Ho eq_refl).
Qed.

(** X15: a call that returns has printed nothing. Otherwise the call
    raised at a column that the mapping lists and the frame has. If the
    conversion of that column raised [TypeError], exactly two things
    are printed, the message naming the column and then the rows
    [df.loc[:column_name]], and [TypeError] is raised; if evaluating the
    rows raises, only the message is printed and that exception is
    raised. Any other exception of the conversion is raised with
    nothing printed. *)
Theorem convert_data_frame_types_prints
    {Column DType : Type}
    (astype : Column → DType → result Column)
    (loc_setitem : Column → Column → Column)
    (loc_rows_upto : gmap str Column → str → result string)
    (df : gmap str Column) (data_type_mapping : list (str * DType)) :
  let out := convert_data_frame_types Column DType astype loc_setitem loc_rows_upto
               df data_type_mapping in
  (out.2 = Ok tt → out.1.2 = []) ∧
  ((out.2 = Ok tt ∧ out.1.2 = []) ∨
   ∃ c col t,
     (c, t) ∈ data_type_mapping ∧ out.1.1 !! c = Some col ∧
     ((astype col t = Raise TypeError ∧
       ((∃ text, loc_rows_upto out.1.1 c = Ok text ∧
                 out.1.2 = [CannotConvert c; Rows text] ∧
                 out.2 = Raise TypeError) ∨
        (∃ e, loc_rows_upto out.1.1 c = Raise e ∧
              out.1.2 = [CannotConvert c] ∧
              out.2 = Raise e))) ∨
      (∃ e, e ≠ TypeError ∧ astype col t = Raise e ∧
            out.1.2 = [] ∧ out.2 = Raise e))).
Proof.
  cbv zeta. split; [apply convert_printed|apply convert_outcome].
Qed.

(** X16: with distinct keys, the call returns exactly if every column
    that the mapping names and the frame has converts; and then the
    order of the items does not matter: any reordering of the mapping
    returns the same frame. *)
Theorem convert_data_frame_types_order
    {Column DType : Type}
    (astype : Column → DType → result Column)
    (loc_setitem : Column → Column → Column)
    (loc_rows_upto : gmap str Column → str → result string)
    (df : gmap str Column) (m m' : list (str * DType)) :
  let convert :=
    convert_data_frame_types Column DType astype loc_setitem loc_rows_upto in
  NoDup m.*1 →
  ((convert df m).2 = Ok tt ↔
   ∀ c t col, (c, t) ∈ m → df !! c = Some col → ∃ new, astype col t = Ok new) ∧
  (m ≡ₚ m' → (convert df m).2 = Ok tt → convert df m' = convert df m).
Proof.
  cbv zeta. intros Hnd. split; [by apply convert_Ok_iff|]. intros. by apply convert_permutation.
Qed.

Lemma convert_data_frame_types_order_witness :
  let convert :=
    convert_data_frame_types _ _ sample_astype (λ _ new, new) (λ _ _, Raise TypeError) in
  NoDup sample_mapping.*1 ∧
  convert sample_frame (reverse sample_mapping) = convert sample_frame sample_mapping.
Proof.
  intros convert.
  assert (NoDup sample_mapping.*1) as H1
    by (refine (bool_decide_unpack _ _); vm_compute; exact I).
  assert (sample_mapping ≡ₚ reverse sample_mapping) as H2 by apply perm_swap.
  assert ((convert sample_frame sample_mapping).2 = Ok tt) as H3 by (vm_compute; reflexivity).
  split; [exact H1|].
  exact (proj2 (convert_data_frame_types_order sample_astype (λ _ new, new)
                  (λ _ _, Raise TypeError) sample_frame sample_mapping
                  (reverse sample_mapping) H1) H2 H3).
Defined.

(** ** The generator [process_game] *)

Arguments create_string_buffer : simpl never.

(** The state after [ws] was logged. *)
Local Abbreviation warned ws st := (with_warnings (warnings st ++ ws) st).

Lemma warned_nil st : warned [] st = st.
Proof. destruct st. unfold with_warnings. simpl. by rewrite app_nil_r. Qed.

Lemma warned_app ws1 ws2 st : warned ws2 (warned ws1 st) = warned (ws1 ++ ws2) st.
Proof. destruct st. unfold with_warnings. simpl. by rewrite app_assoc. Qed.

Lemma run_events_cons g r script st :
  run_events g (r :: script) st =
  ((resume_events g r st).2.2
     :: (run_events (resume_events g r st).2.1 script (resume_events g r st).1).1,
   (run_events (resume_events g r st).2.1 script (resume_events g r st).1).2).
Proof.
  cbn [run_events]. destruct (resume_events g r st) as [st' [g' rq]].
  cbn [fst snd]. by destruct (run_events g' script st').
Qed.

Lemma run_events_app g script1 script2 st :
  run_events g (script1 ++ script2) st =
  ((run_events g script1 st).1
     ++ (run_events (run_events g script1 st).2.1 script2 (run_events g script1 st).2.2).1,
   (run_events (run_events g script1 st).2.1 script2 (run_events g script1 st).2.2).2).
Proof.
  revert g st. induction script1 as [|r script1 IH]; intros g st.
  { simpl. by destruct (run_events g script2 st). }
  rewrite <- app_comm_cons, !run_events_cons, IH. reflexivity.
Qed.

Lemma resume_events_Throw g e st :
  resume_events g (Throw e) st =
  (st, (EventsFinished,
        EventsPropagate (if g is EventsFinished then e else leaves_generator e))).
Proof. by destruct g. Qed.

Lemma default_roster_run side r st :
  default_roster side r st =
  (warned (if roster_missing r then [undefined_roster_message side] else []) st,
   Ok (roster_passed r)).
Proof.
  unfold default_roster, roster_passed. destruct (roster_missing r).
  - reflexivity.
  - by rewrite warned_nil.
Qed.

Lemma resume_events_create rv rh gi b st :
  resume_events (InGameiterCreate rv rh) (Answer gi b) st =
  (warned (roster_warnings rv rh) st,
   if (gi =? 0)%Z then (EventsFinished, EventsPropagate ValueError)
   else (InEvent (mkLocals gi (roster_passed rv) (roster_passed rh)
                           (create_string_buffer (pybytes " ") 4096)),
         ReadEvent gi)).
Proof.
  unfold resume_events, process_game_step. mrun.
  rewrite default_roster_run. mrun. rewrite default_roster_run. mrun.
  rewrite warned_app. unfold while_head. cbn [gameiter].
  by destruct (gi =? 0)%Z.
Qed.

Lemma resume_events_unstarted gp rv rh v b st :
  resume_events (Unstarted gp rv rh) (Answer v b) st =
  match libchadwick st with
  | (st1, Ok _) => (st1, (InGameiterCreate rv rh, CallGameiterCreate gp))
  | (st1, Raise e) => (st1, (EventsFinished, EventsPropagate (leaves_generator e)))
  end.
Proof.
  unfold resume_events, process_game_step, cw_gameiter_create. mrun.
  destruct (libchadwick st) as [st1 [dll|e]] eqn:E; [|done]. mrun.
  destruct (libchadwick_Ok _ _ _ E) as (_ & _ & _ & _ & ->). by mrun.
Qed.

Lemma reads_process_game_step g r : in_loop g → reads_only (process_game_step g r).
Proof.
  unfold process_game_step, while_head, cw_gameiter_next.
  destruct g as [| |f|f|f|f|], r as [v b|e]; try done; intros _; reads.
  destruct (buffer_value (event_str f)); [reads|].
  apply reads_bind; [apply reads_dicticize_event_string|reads].
Qed.

Lemma in_loop_resume g r st : in_loop g → in_loop (resume_events g r st).2.1.
Proof.
  destruct r as [v b|e]; [|by rewrite resume_events_Throw].
  unfold resume_events, process_game_step, while_head, cw_gameiter_next.
  destruct g as [| |f|f|f|f|]; try done; intros _; mrun.
  - by destruct (v =? 0)%Z.
  - by destruct (libchadwick st) as [? [?|?]].
  - destruct (buffer_value (event_str f)) as [|b0 l].
    + by destruct (gameiter f =? 0)%Z.
    + rewrite bind_run.
      by destruct (dicticize_event_string (b0 :: l) None st) as [? [?|?]].
  - by destruct (gameiter f =? 0)%Z.
Qed.

Lemma resume_events_state g r st :
  (resume_events g r st).1 = (process_game_step g r st).1.
Proof. unfold resume_events. by destruct (process_game_step g r st) as [? [?|?]]. Qed.

Lemma run_events_in_loop script : ∀ g st,
  in_loop g →
  warnings (run_events g script st).2.2 = warnings st ∧
  shared_objects (run_events g script st).2.2 = shared_objects st ∧
  (is_Some (_dll st) → (run_events g script st).2.2 = st).
Proof.
  induction script as [|r script IH]; intros g st Hg; [done|].
  rewrite run_events_cons. cbn [fst snd].
  destruct (IH _ (resume_events g r st).1 (in_loop_resume g r st Hg)) as (H1 & H2 & H3).
  destruct (reads_process_game_step g r Hg st) as (H4 & H5 & _ & H6).
  rewrite <- resume_events_state in H4, H5, H6.
  split; [congruence|]. split; [congruence|].
  intros Hd. specialize (H6 Hd). rewrite H6 in H3 |- *. by apply H3.
Qed.

Lemma run_events_finished script : ∀ st,
  Forall (λ rq, rq = EventsStop ∨ ∃ e, rq = EventsPropagate e)
         (run_events EventsFinished script st).1.
Proof.
  induction script as [|r script IH]; intros st; [by constructor|].
  rewrite run_events_cons. cbn [fst snd].
  destruct r as [v b|e].
  - constructor; [by left|apply IH].
  - rewrite resume_events_Throw. constructor; [right; by eexists|apply IH].
Qed.

(** X17: [process_game] logs nothing but the warnings about missing
    rosters, for the visitor before the home side, and only once
    [cw_gameiter_create] has returned: if that call raises nothing is
    logged. It never writes the globals of a shared object. *)
Theorem process_game_warnings
    (st : State) (game_ptr : Z) (rv rh : roster) (script : list event_response) :
  let final := (run_events (process_game game_ptr rv rh) script st).2.2 in
  shared_objects final = shared_objects st ∧
  (warnings final = warnings st ∨
   warnings final = warnings st ++ roster_warnings rv rh) ∧
  (∀ v0 b0 gi b1 rest dll,
     (libchadwick st).2 = Ok dll →
     script = Answer v0 b0 :: Answer gi b1 :: rest →
     warnings final = warnings st ++ roster_warnings rv rh) ∧
  (∀ v0 b0 e rest,
     script = Answer v0 b0 :: Throw e :: rest → warnings final = warnings st).
Proof.
  intros final. unfold process_game in final.
  assert (∀ s st0, warnings (run_events EventsFinished s st0).2.2 = warnings st0 ∧
                   shared_objects (run_events EventsFinished s st0).2.2
                   = shared_objects st0) as Hfin.
  { intros s st0. by destruct (run_events_in_loop s EventsFinished st0 I) as (? & ? & _). }
  destruct script as [|r0 script]; [subst final; simpl; repeat split; try done; by left|].
  subst final. rewrite run_events_cons. cbn [fst snd].
  destruct r0 as [v0 b0|e0].
  2:{ rewrite resume_events_Throw. cbn [fst snd].
      destruct (Hfin script st) as [-> ->]. repeat split; try done. by left. }
  rewrite resume_events_unstarted.
  destruct (libchadwick st) as [st1 [dll|e]] eqn:E; cbn [fst snd].
  2:{ destruct (reads_libchadwick st) as (Ho & Hw & _). rewrite E in Ho, Hw. simpl in *.
      destruct (Hfin script st1) as [-> ->]. rewrite Ho, Hw.
      split; [done|]. split; [by left|]. split; [by intros ? ? ? ? ? ? [=]|].
      by intros. }
  destruct (libchadwick_Ok _ _ _ E) as (_ & Ho & Hw & _).
  destruct script as [|r1 script].
  { simpl. rewrite Ho, Hw. split; [done|]. split; [by left|]. by split. }
  rewrite run_events_cons. cbn [fst snd].
  destruct r1 as [gi b1|e1].
  - rewrite resume_events_create. cbn [fst snd].
    assert (in_loop (if (gi =? 0)%Z then (EventsFinished, EventsPropagate ValueError)
                     else (InEvent (mkLocals gi (roster_passed rv) (roster_passed rh)
                                      (create_string_buffer (pybytes " ") 4096)),
                           ReadEvent gi)).1) as Hl by by destruct (gi =? 0)%Z.
    destruct (run_events_in_loop script _ (warned (roster_warnings rv rh) st1) Hl)
      as (-> & -> & _).
    destruct st1; simpl in *. subst.
    split; [done|]. split; [by right|]. split; [done|]. by intros ? ? ? ? [=].
  - rewrite resume_events_Throw. cbn [fst snd].
    destruct (Hfin script st1) as [-> ->]. rewrite Ho, Hw.
    split; [done|]. split; [by left|]. split; [by intros ? ? ? ? ? ? ? [=]|done].
Qed.

(** X18: if [cw_gameiter_create] returns NULL, [process_game] raises
    [ValueError] at once, after the warnings about missing rosters; it
    makes no further request to the library. *)
Theorem process_game_null_iterator
    (st : State) (dll : CDLL) (game_ptr : Z) (rv rh : roster)
    (v0 : Z) (b0 b1 : bytes) (rest : list event_response) :
  (libchadwick st).2 = Ok dll →
  let run := run_events (process_game game_ptr rv rh)
                        (Answer v0 b0 :: Answer 0 b1 :: rest) st in
  take 2 run.1 = [CallGameiterCreate game_ptr; EventsPropagate ValueError] ∧
  Forall (λ rq, rq = EventsStop ∨ ∃ e, rq = EventsPropagate e) (drop 2 run.1) ∧
  warnings run.2.2 = warnings st ++ roster_warnings rv rh.
Proof.
  intros Hlib run. unfold process_game in run. subst run.
  rewrite !run_events_cons. cbn [fst snd take drop].
  rewrite resume_events_unstarted.
  destruct (libchadwick st) as [st1 [d|e]] eqn:E; [|done].
  destruct (libchadwick_Ok _ _ _ E) as (_ & _ & Hw & _).
  cbn [fst snd]. rewrite resume_events_create. cbn [fst snd Z.eqb].
  split; [done|]. split; [apply run_events_finished|].
  destruct (run_events_in_loop rest EventsFinished (warned (roster_warnings rv rh) st1) I)
    as (-> & _). destruct st1; simpl in *. by subst.
Qed.

Lemma process_game_null_iterator_witness :
  let run := run_events (process_game 5 RosterNone (RosterAt 9))
                        [Answer 0 []; Answer 0 []; Answer 0 []] sample_object in
  (libchadwick sample_object).2 = Ok (mkCDLL default_library_path) ∧
  take 2 run.1 = [CallGameiterCreate 5; EventsPropagate ValueError] ∧
  warnings run.2.2 = [undefined_roster_message "visitor"].
Proof.
  intros run.
  assert ((libchadwick sample_object).2 = Ok (mkCDLL default_library_path)) as H
    by (vm_compute; reflexivity).
  pose proof (process_game_null_iterator sample_object _ 5 RosterNone (RosterAt 9)
                0 [] [] [Answer 0 []] H) as (H1 & _ & H2).
  split; [exact H|]. split; [exact H1|exact H2].
Defined.

(** A resumption ends the generator exactly when the request is its
    return or an exception. *)
Lemma resume_events_ended g r st :
  (resume_events g r st).2.1 = EventsFinished ↔ ended (resume_events g r st).2.2.
Proof.
  unfold ended. destruct r as [v b|e].
  2:{ rewrite resume_events_Throw. cbn [fst snd]. split; [right; by eexists|done]. }
  assert (∀ f, (let (st', r0) := while_head f st in
                match r0 with
                | Ok out => (st', out)
                | Raise e => (st', (EventsFinished,
                                    EventsPropagate (leaves_generator e)))
                end).2.1 = EventsFinished ↔
               ended (let (st', r0) := while_head f st in
                match r0 with
                | Ok out => (st', out)
                | Raise e => (st', (EventsFinished,
                                    EventsPropagate (leaves_generator e)))
                end).2.2) as Hw.
  { intros f. unfold while_head, ended. destruct (gameiter f =? 0)%Z; simpl.
    - split; [right; by eexists|done].
    - split; [done|]. by intros [|[? ?]]. }
  destruct g as [gp rv rh|rv rh|f|f|f|f|].
  - rewrite resume_events_unstarted.
    destruct (libchadwick st) as [st1 [dll|e]]; cbn [fst snd].
    + split; [done|]. by intros [|[? ?]].
    + split; [right; by eexists|done].
  - rewrite resume_events_create. cbn [fst snd].
    destruct (v =? 0)%Z; cbn [fst snd].
    + split; [right; by eexists|done].
    + split; [done|]. by intros [|[? ?]].
  - unfold resume_events, process_game_step. destruct (v =? 0)%Z; simpl.
    + split; [by left|done].
    + split; [done|]. by intros [|[? ?]].
  - unfold resume_events, process_game_step, cw_gameiter_next. mrun.
    destruct (libchadwick st) as [st1 [dll|e]]; simpl.
    + split; [done|]. by intros [|[? ?]].
    + split; [right; by eexists|done].
  - unfold resume_events, process_game_step.
    destruct (buffer_value (event_str f)) as [|c value]; [apply Hw|].
    rewrite bind_run.
    destruct (dicticize_event_string (c :: value) None st) as [st1 [d|e]]; simpl.
    + split; [done|]. by intros [|[? ?]].
    + split; [right; by eexists|done].
  - unfold resume_events, process_game_step. apply Hw.
  - simpl. split; [by left|done].
Qed.

Lemma resume_events_finished r st :
  (resume_events EventsFinished r st).2.1 = EventsFinished.
Proof. by destruct r. Qed.

Lemma run_events_Throw script : ∀ g st i e,
  script !! i = Some (Throw e) →
  (g ≠ EventsFinished →
   (∀ j rq, j < i → (run_events g script st).1 !! j = Some rq → ¬ ended rq) →
   (run_events g script st).1 !! i = Some (EventsPropagate (leaves_generator e))) ∧
  (g = EventsFinished ∨
   (∃ j rq, j < i ∧ (run_events g script st).1 !! j = Some rq ∧ ended rq) →
   (run_events g script st).1 !! i = Some (EventsPropagate e)) ∧
  ((run_events g script st).1 !! i = Some (EventsPropagate e) ∨
   (run_events g script st).1 !! i = Some (EventsPropagate (leaves_generator e))) ∧
  ∀ j rq, i < j → (run_events g script st).1 !! j = Some rq → ended rq.
Proof.
  induction script as [|r script IH]; intros g st i e Hi; [done|].
  rewrite run_events_cons. cbn [fst snd]. destruct i as [|i].
  - injection Hi as ->. rewrite resume_events_Throw. cbn [fst snd].
    split; [|split; [|split]].
    + intros Hg _. by destruct g.
    + intros [->|(j & ? & ? & _)]; [done|lia].
    + destruct g; auto.
    + intros [|j] rq Hj Hrq; [lia|]. simpl in Hrq.
      pose proof (run_events_finished script st) as Hf.
      rewrite list.Forall_forall in Hf. apply Hf. by eapply list_elem_of_lookup_2.
  - simpl in Hi.
    destruct (IH (resume_events g r st).2.1 (resume_events g r st).1 i e Hi)
      as (H1 & H2 & H4 & H3).
    split; [|split; [|split]].
    + intros Hg Hrun. cbn [lookup list_lookup]. apply H1.
      * intros Hfin. apply resume_events_ended in Hfin.
        by apply (Hrun 0 _ (Nat.lt_0_succ i) eq_refl).
      * intros j rq Hj Hrq. apply (Hrun (S j) rq); [lia|done].
    + intros Hor. cbn [lookup list_lookup]. apply H2.
      destruct Hor as [->|(j & rq & Hj & Hrq & Hend)].
      * left. apply resume_events_finished.
      * destruct j as [|j].
        -- left. injection Hrq as <-. by apply resume_events_ended.
        -- right. exists j, rq. split; [lia|]. by split.
    + exact H4.
    + intros [|j] rq Hj Hrq; [lia|]. simpl in Hrq. apply (H3 j); [lia|done].
Qed.

(** X19: [process_game] has no handler. An exception raised by a native
    call, or thrown into the generator at a [yield] or before its first
    step, leaves the generator: as it is, unless it is [StopIteration],
    which comes out as [RuntimeError]. Thrown into the generator after
    it has ended, every exception comes back as it is. In each case the
    generator has ended and makes no further request to the library. *)
Theorem process_game_errors_propagate
    (st : State) (game_ptr : Z) (rv rh : roster) (script : list event_response)
    (i : nat) (e : exn) :
  script !! i = Some (Throw e) →
  let outs := drive_events (process_game game_ptr rv rh) script st in
  ((∀ j rq, j < i → outs !! j = Some rq → ¬ ended rq) →
     outs !! i = Some (EventsPropagate (leaves_generator e))) ∧
  ((∃ j rq, j < i ∧ outs !! j = Some rq ∧ ended rq) →
     outs !! i = Some (EventsPropagate e)) ∧
  (e ≠ Exception "StopIteration" → outs !! i = Some (EventsPropagate e)) ∧
  leaves_generator (Exception "StopIteration") = Exception "RuntimeError" ∧
  (∀ j rq, i < j → outs !! j = Some rq → ended rq).
Proof.
  intros Hi outs.
  destruct (run_events_Throw script (process_game game_ptr rv rh) st i e Hi)
    as (H1 & H2 & H4 & H3).
  assert (e ≠ Exception "StopIteration" → leaves_generator e = e) as Hsame.
  { intros He. destruct e as [| | | | | |name]; try done. simpl.
    destruct (String.eqb_spec name "StopIteration") as [->|]; done. }
  split; [by apply H1|]. split; [intros H; apply H2; by right|].
  split; [|split; [done|exact H3]].
  intros He. rewrite (Hsame He) in H4. by destruct H4.
Qed.

Lemma process_game_errors_propagate_witness :
  let script := [Answer 0 []; Answer 7 []; Answer 1 []; Throw (Exception "StopIteration");
                 Throw (Exception "StopIteration")] in
  let outs := drive_events (process_game 5 RosterNone RosterNone) script sample_object in
  script !! 3 = Some (Throw (Exception "StopIteration")) ∧
  outs !! 3 = Some (EventsPropagate (Exception "RuntimeError")) ∧
  script !! 4 = Some (Throw (Exception "StopIteration")) ∧
  outs !! 4 = Some (EventsPropagate (Exception "StopIteration")).
Proof.
  intros script outs.
  assert (script !! 3 = Some (Throw (Exception "StopIteration"))) as H by reflexivity.
  assert (script !! 4 = Some (Throw (Exception "StopIteration"))) as H' by reflexivity.
  assert (∀ j rq, j < 3 → outs !! j = Some rq → ¬ ended rq) as Hrun.
  { intros j rq Hj Hrq [->|[e ->]];
      (destruct j as [|[|[|j]]]; [vm_compute in Hrq; discriminate..|lia]). }
  assert (∃ j rq, j < 4 ∧ outs !! j = Some rq ∧ ended rq) as Hend.
  { exists 3, (EventsPropagate (Exception "RuntimeError")).
    split; [lia|]. split; [vm_compute; reflexivity|]. right. by eexists. }
  split; [exact H|]. split.
  { exact (proj1 (process_game_errors_propagate sample_object 5 RosterNone RosterNone
                    script 3 _ H) Hrun). }
  split; [exact H'|].
  exact (proj1 (proj2 (process_game_errors_propagate sample_object 5 RosterNone RosterNone
                         script 4 _ H')) Hend).
Defined.

(** *** A run over the events of a game *)

Lemma dicticize_loaded st st' dll n value :
  loaded st dll n → loaded st' dll n →
  dicticize_event_string value None st' =
  (st', (dicticize_event_string value None st).2).
Proof.
  intros Hl Hl'. unfold dicticize_event_string. rewrite !bind_run.
  rewrite (active_headers_loaded st dll n Hl), (active_headers_loaded st' dll n Hl').
  destruct (active_names n) as [act|e]; [|done].
  rewrite !bind_run. unfold lift. by destruct (listicize_event_string value).
Qed.

Lemma resume_events_event f v b st :
  v ≠ 0%Z →
  resume_events (InEvent f) (Answer v b) st =
  (st, (InProcessGameRecord f,
        CallProcessGameRecord (gameiter f) (roster_visitor f) (roster_home f) (event_str f))).
Proof.
  intros Hv. unfold resume_events, process_game_step.
  by destruct (Z.eqb_spec v 0).
Qed.

Lemma resume_events_end f b st :
  resume_events (InEvent f) (Answer 0 b) st = (st, (EventsFinished, EventsStop)).
Proof. reflexivity. Qed.

Lemma resume_events_record f v buffer st dll :
  _dll st = Some dll →
  resume_events (InProcessGameRecord f) (Answer v buffer) st =
  (st, (InGameiterNext (with_event_str buffer f), CallGameiterNext (gameiter f))).
Proof.
  intros H. unfold resume_events, process_game_step, cw_gameiter_next. mrun.
  rewrite (libchadwick_stored _ _ H). by mrun.
Qed.

Lemma while_head_run f st :
  gameiter f ≠ 0%Z → while_head f st = (st, Ok (InEvent f, ReadEvent (gameiter f))).
Proof. intros H. unfold while_head. by destruct (Z.eqb_spec (gameiter f) 0). Qed.

Lemma resume_events_next f v b st dll n :
  loaded st dll n → gameiter f ≠ 0%Z →
  resume_events (InGameiterNext f) (Answer v b) st =
  (st, if has_string (event_str f)
       then match (dicticize_event_string (buffer_value (event_str f)) None st).2 with
            | Ok event => (AtEventYield f, YieldEvent event)
            | Raise e => (EventsFinished, EventsPropagate (leaves_generator e))
            end
       else (InEvent f, ReadEvent (gameiter f))).
Proof.
  intros Hl Hg. unfold resume_events, process_game_step, has_string.
  destruct (buffer_value (event_str f)) as [|c value].
  - by rewrite while_head_run.
  - rewrite bind_run, (dicticize_loaded st st dll n) by done.
    by destruct (dicticize_event_string (c :: value) None st).2.
Qed.

Lemma resume_events_yield f v b st :
  gameiter f ≠ 0%Z →
  resume_events (AtEventYield f) (Answer v b) st = (st, (InEvent f, ReadEvent (gameiter f))).
Proof.
  intros Hg. unfold resume_events, process_game_step. by rewrite while_head_run.
Qed.

Lemma held_after_cons held buffer buffers :
  held_after held (buffer :: buffers) = held_after buffer buffers.
Proof.
  unfold held_after. revert held buffer.
  induction buffers as [|b buffers IH]; intros held buffer; [done|].
  change (List.last (buffer :: b :: buffers) held) with (List.last (b :: buffers) held).
  by rewrite !IH.
Qed.

Lemma with_event_str_twice b1 b2 f :
  with_event_str b2 (with_event_str b1 f) = with_event_str b2 f.
Proof. reflexivity. Qed.

Lemma with_event_str_same f : with_event_str (event_str f) f = f.
Proof. by destruct f. Qed.

(** The loop, from the point where the generator waits for the event
    pointer. *)
Lemma run_events_loop buffers : ∀ f st dll n,
  loaded st dll n → gameiter f ≠ 0%Z →
  Forall (λ buffer, has_string buffer →
            ∃ d, (dicticize_event_string (buffer_value buffer) None st).2 = Ok d) buffers →
  ∃ outs,
    run_events (InEvent f) (concat (map event_answers buffers)) st
    = (outs, (InEvent (with_event_str (held_after (event_str f) buffers) f), st)) ∧
    Forall2 (λ buffer d,
               (dicticize_event_string (buffer_value buffer) None st).2 = Ok d)
            (filter (λ buffer, has_string buffer) buffers) (yielded_events outs) ∧
    outs = events_trace st (gameiter f) (roster_visitor f) (roster_home f)
                        (event_str f) buffers.
Proof.
  induction buffers as [|buffer buffers IH]; intros f st dll n Hl Hg Hall.
  { exists []. unfold held_after. simpl. by rewrite with_event_str_same. }
  apply list.Forall_cons in Hall as [Hb Hall].
  destruct (IH (with_event_str buffer f) st dll n Hl Hg Hall) as (outs & Hrun & Hy & Hc).
  rewrite with_event_str_twice in Hrun.
  cbn [with_event_str event_str gameiter roster_visitor roster_home] in Hrun, Hc.
  cbn [map concat]. unfold event_answers at 1. rewrite <- !app_assoc. cbn [app].
  rewrite run_events_cons, resume_events_event by done. cbn [fst snd].
  rewrite run_events_cons, (resume_events_record _ _ _ _ dll) by apply Hl. cbn [fst snd].
  rewrite run_events_cons, (resume_events_next _ _ _ _ dll n) by done.
  cbn [with_event_str event_str gameiter fst snd roster_visitor roster_home].
  rewrite held_after_cons, filter_cons. cbn [events_trace]. unfold event_yield.
  unfold has_string in Hb, Hy |- *. rewrite (decide_bool_decide (Is_true _)).
  destruct (buffer_value buffer) as [|c value] eqn:Ev.
  - rewrite bool_decide_eq_false_2 by (by intros []).
    cbn [app fst snd]. rewrite Hrun. cbn [fst snd].
    eexists. split; [done|]. split; [done|]. by rewrite <- Hc.
  - rewrite bool_decide_eq_true_2 by done.
    destruct (Hb I) as [d Hd]. rewrite Hd. cbn [app fst snd].
    rewrite run_events_cons, resume_events_yield by done. cbn [fst snd].
    rewrite Hrun. cbn [fst snd].
    eexists. split; [done|]. split.
    + change (yielded_events (?a :: ?b :: YieldEvent d :: ?c :: outs))
        with (d :: yielded_events outs).
      constructor; [by rewrite Ev|done].
    + by rewrite <- Hc.
Qed.

Lemma loaded_warned st dll n ws : loaded st dll n → loaded (warned ws st) dll n.
Proof. by intros [? ?]. Qed.

Lemma events_trace_ext st st' gi rv rh buffers : ∀ held,
  (∀ value, (dicticize_event_string value None st').2
            = (dicticize_event_string value None st).2) →
  events_trace st' gi rv rh held buffers = events_trace st gi rv rh held buffers.
Proof.
  intros held H. revert held. induction buffers as [|buffer buffers IH]; intros held; [done|].
  cbn [events_trace]. unfold event_yield. by rewrite H, IH.
Qed.

(** With the library loaded, the conversion of a record raises
    [ValueError] or [UnicodeDecodeError] only. *)
Lemma dicticize_raises st dll n value e :
  loaded st dll n →
  (dicticize_event_string value None st).2 = Raise e →
  leaves_generator e = e.
Proof.
  intros Hl. unfold dicticize_event_string. rewrite !bind_run.
  rewrite (active_headers_loaded st dll n Hl).
  destruct (active_names n) as [act|e'] eqn:Ea.
  - rewrite !bind_run. unfold lift, listicize_event_string, decode.
    destruct (utf8_decode value); [done|]. by intros [= <-].
  - intros [= <-]. revert Ea. unfold active_names, flags_view.
    destruct (table_headers n "cwevent_field_data" FIELDS_COUNT) as [hs|e1] eqn:E1.
    2:{ intros [= <-]. by destruct (table_headers_Raise _ _ _ _ E1) as [[_ ->]|[_ ->]]. }
    destruct (exported n "fields"); [|by intros [= <-]].
    destruct (table_headers n "cwevent_ext_field_data" EXT_FIELDS_COUNT) as [es|e2] eqn:E2.
    2:{ intros [= <-]. by destruct (table_headers_Raise _ _ _ _ E2) as [[_ ->]|[_ ->]]. }
    destruct (exported n "ext_fields"); [done|by intros [= <-]].
Qed.

(** The whole run, up to the point where the generator waits for the
    event pointer after the last of the given events. *)
Lemma run_events_script gp rv rh gi buffers st dll n :
  loaded st dll n → gi ≠ 0%Z →
  Forall (λ buffer, has_string buffer →
            ∃ d, (dicticize_event_string (buffer_value buffer) None st).2 = Ok d) buffers →
  let init := create_string_buffer (pybytes " ") 4096 in
  ∃ outs,
    run_events (process_game gp rv rh) (events_script gi buffers) st
    = (CallGameiterCreate gp :: ReadEvent gi :: outs,
       (InEvent (mkLocals gi (roster_passed rv) (roster_passed rh)
                          (held_after init buffers)),
        warned (roster_warnings rv rh) st)) ∧
    Forall2 (λ buffer d,
               (dicticize_event_string (buffer_value buffer) None st).2 = Ok d)
            (filter (λ buffer, has_string buffer) buffers) (yielded_events outs) ∧
    outs = events_trace st gi (roster_passed rv) (roster_passed rh) init buffers.
Proof.
  intros Hl Hg Hall init.
  pose proof (loaded_warned st dll n (roster_warnings rv rh) Hl) as Hl'.
  assert (∀ value, (dicticize_event_string value None (warned (roster_warnings rv rh) st)).2
                   = (dicticize_event_string value None st).2) as Hd.
  { intros value. by rewrite (dicticize_loaded st _ dll n). }
  assert (Forall (λ buffer, has_string buffer →
            ∃ d, (dicticize_event_string (buffer_value buffer) None
                    (warned (roster_warnings rv rh) st)).2 = Ok d) buffers) as Hall'.
  { eapply list.Forall_impl; [exact Hall|]. intros buffer H Hs. rewrite Hd. by apply H. }
  destruct (run_events_loop buffers (mkLocals gi (roster_passed rv) (roster_passed rh) init)
              _ dll n Hl' Hg Hall') as (outs & Hrun & Hy & Hc).
  cbn [gameiter roster_visitor roster_home event_str with_event_str] in Hrun, Hc.
  exists outs. split; [|split].
  - unfold process_game, events_script.
    rewrite run_events_cons, resume_events_unstarted.
    rewrite (libchadwick_stored st dll) by apply Hl. cbn [fst snd].
    rewrite run_events_cons, resume_events_create.
    destruct (Z.eqb_spec gi 0) as [|_]; [done|]. cbn [fst snd].
    fold init. by rewrite Hrun.
  - eapply list.Forall2_impl; [exact Hy|]. intros buffer d H. by rewrite <- Hd.
  - rewrite Hc. by apply events_trace_ext.
Qed.

Lemma yielded_events_app outs1 outs2 :
  yielded_events (outs1 ++ outs2) = yielded_events outs1 ++ yielded_events outs2.
Proof. apply omap_app. Qed.

(** X20: over the events of a game, [process_game] yields one mapping
    for each event whose buffer holds a string, in order: the mapping
    that [dicticize_event_string] makes of that string with the active
    headers. An event whose buffer is empty is passed over. When the
    iterator shows no event the generator ends. *)
Theorem process_game_yields_events
    (st : State) (dll : CDLL) (n : Native) (game_ptr gi : Z) (rv rh : roster)
    (buffers : list bytes) :
  loaded st dll n → gi ≠ 0%Z →
  Forall (λ buffer, has_string buffer →
            ∃ d, (dicticize_event_string (buffer_value buffer) None st).2 = Ok d) buffers →
  let outs := drive_events (process_game game_ptr rv rh)
                           (events_script gi buffers ++ [Answer 0 []]) st in
  Forall2 (λ buffer d,
             (dicticize_event_string (buffer_value buffer) None st).2 = Ok d)
          (filter (λ buffer, has_string buffer) buffers) (yielded_events outs) ∧
  ∃ before, outs = before ++ [EventsStop].
Proof.
  intros Hl Hg Hall outs.
  destruct (run_events_script game_ptr rv rh gi buffers st dll n Hl Hg Hall)
    as (loop & Hrun & Hy & _).
  subst outs. unfold drive_events. rewrite run_events_app, Hrun. cbn [fst snd].
  rewrite run_events_cons, resume_events_end. cbn [fst snd run_events].
  split.
  - change (CallGameiterCreate game_ptr :: ReadEvent gi :: loop)
      with ([CallGameiterCreate game_ptr; ReadEvent gi] ++ loop).
    rewrite !yielded_events_app. cbn [yielded_events omap app]. by rewrite app_nil_r.
  - by exists (CallGameiterCreate game_ptr :: ReadEvent gi :: loop).
Qed.

(** X21: such a run makes exactly these requests, in this order: the
    iterator is created once and the event pointer read; then for each
    event the record is processed, the iterator is advanced, the event
    is yielded if its buffer holds a string, and the event pointer is
    read again; the read that shows no event ends the run. So the
    iterator has moved on before an event is yielded. The buffer is made
    once: each call of [cwevent_process_game_record] is passed what the
    call before left in it, the first one a space. *)
Theorem process_game_calls
    (st : State) (dll : CDLL) (n : Native) (game_ptr gi : Z) (rv rh : roster)
    (buffers : list bytes) :
  loaded st dll n → gi ≠ 0%Z →
  Forall (λ buffer, has_string buffer →
            ∃ d, (dicticize_event_string (buffer_value buffer) None st).2 = Ok d) buffers →
  drive_events (process_game game_ptr rv rh) (events_script gi buffers ++ [Answer 0 []]) st
  = CallGameiterCreate game_ptr :: ReadEvent gi
    :: events_trace st gi (roster_passed rv) (roster_passed rh)
                    (create_string_buffer (pybytes " ") 4096) buffers
    ++ [EventsStop].
Proof.
  intros Hl Hg Hall.
  destruct (run_events_script game_ptr rv rh gi buffers st dll n Hl Hg Hall)
    as (loop & Hrun & _ & ->).
  unfold drive_events. rewrite run_events_app, Hrun. cbn [fst snd].
  by rewrite run_events_cons, resume_events_end.
Qed.

(** X22: if the string an event left in the buffer cannot be made into
    a mapping (it is no UTF-8, say), the exception leaves the generator
    at that event: the events before it have been yielded, the iterator
    has already been advanced past it, and nothing follows. *)
Theorem process_game_bad_record
    (st : State) (dll : CDLL) (n : Native) (game_ptr gi : Z) (rv rh : roster)
    (buffers : list bytes) (bad : bytes) (e : exn) :
  loaded st dll n → gi ≠ 0%Z →
  Forall (λ buffer, has_string buffer →
            ∃ d, (dicticize_event_string (buffer_value buffer) None st).2 = Ok d) buffers →
  has_string bad →
  (dicticize_event_string (buffer_value bad) None st).2 = Raise e →
  drive_events (process_game game_ptr rv rh)
               (events_script gi buffers ++ [Answer 1 []; Answer 0 bad; Answer 0 []]) st
  = drive_events (process_game game_ptr rv rh) (events_script gi buffers) st
    ++ [CallProcessGameRecord gi (roster_passed rv) (roster_passed rh)
          (held_after (create_string_buffer (pybytes " ") 4096) buffers);
        CallGameiterNext gi;
        EventsPropagate e].
Proof.
  intros Hl Hg Hall Hs He.
  destruct (run_events_script game_ptr rv rh gi buffers st dll n Hl Hg Hall)
    as (loop & Hrun & _ & _).
  pose proof (loaded_warned st dll n (roster_warnings rv rh) Hl) as Hl'.
  unfold drive_events. rewrite run_events_app, Hrun. cbn [fst snd]. f_equal.
  rewrite run_events_cons, resume_events_event by done. cbn [fst snd].
  rewrite run_events_cons, (resume_events_record _ _ _ _ dll) by apply Hl'. cbn [fst snd].
  rewrite run_events_cons, (resume_events_next _ _ _ _ dll n) by done.
  cbn [with_event_str event_str gameiter roster_visitor roster_home fst snd].
  rewrite (dicticize_loaded st _ dll n) by done. cbn [snd].
  rewrite He, (dicticize_raises st dll n _ e Hl He).
  destruct (has_string bad); [|done]. reflexivity.
Qed.

Lemma sample_buffers_convert :
  Forall (λ buffer, has_string buffer →
            ∃ d, (dicticize_event_string (buffer_value buffer) None active_object).2 = Ok d)
         sample_buffers.
Proof.
  apply list.Forall_cons. split.
  - intros _.
    exists (dict (zip [pystr "F00"; pystr "F01"] [pystr "ANA"; pystr "1"; pystr "0"])).
    vm_compute. reflexivity.
  - apply list.Forall_cons. split; [intros []|apply list.Forall_nil_2].
Defined.

Lemma process_game_yields_events_witness :
  let outs := drive_events (process_game 5 RosterNone RosterNone)
                           (events_script 7 sample_buffers ++ [Answer 0 []])
                           active_object in
  loaded active_object (mkCDLL default_library_path) active_native ∧
  Forall2 (λ buffer d,
             (dicticize_event_string (buffer_value buffer) None active_object).2 = Ok d)
          (filter (λ buffer, has_string buffer) sample_buffers) (yielded_events outs) ∧
  ∃ before, outs = before ++ [EventsStop].
Proof.
  intros outs.
  assert (loaded active_object (mkCDLL default_library_path) active_native) as H1
    by (by apply store_loaded).
  assert (7 ≠ 0)%Z as H2 by lia.
  split; [exact H1|].
  exact (process_game_yields_events active_object _ _ 5 7 RosterNone RosterNone
           sample_buffers H1 H2 sample_buffers_convert).
Defined.

Lemma process_game_calls_witness :
  let init := create_string_buffer (pybytes " ") 4096 in
  loaded active_object (mkCDLL default_library_path) active_native ∧
  drive_events (process_game 5 RosterNone (RosterAt 9))
               (events_script 7 sample_buffers ++ [Answer 0 []]) active_object
  = [CallGameiterCreate 5; ReadEvent 7;
     CallProcessGameRecord 7 RosterDefault (RosterAt 9) init;
     CallGameiterNext 7;
     YieldEvent (dict (zip [pystr "F00"; pystr "F01"] [pystr "ANA"; pystr "1"; pystr "0"]));
     ReadEvent 7;
     CallProcessGameRecord 7 RosterDefault (RosterAt 9) (pybytes "ANA,1,0" ++ [x00]);
     CallGameiterNext 7;
     ReadEvent 7; EventsStop].
Proof.
  intros init.
  assert (loaded active_object (mkCDLL default_library_path) active_native) as H1
    by (by apply store_loaded).
  assert (7 ≠ 0)%Z as H2 by lia.
  assert (events_trace active_object 7 RosterDefault (RosterAt 9) init sample_buffers
          = [CallProcessGameRecord 7 RosterDefault (RosterAt 9) init;
             CallGameiterNext 7;
             YieldEvent (dict (zip [pystr "F00"; pystr "F01"]
                                   [pystr "ANA"; pystr "1"; pystr "0"]));
             ReadEvent 7;
             CallProcessGameRecord 7 RosterDefault (RosterAt 9)
                                   (pybytes "ANA,1,0" ++ [x00]);
             CallGameiterNext 7;
             ReadEvent 7]) as H3.
  { unfold sample_buffers. cbn [events_trace]. unfold event_yield.
    assert ((dicticize_event_string (buffer_value (pybytes "ANA,1,0" ++ [x00])) None
               active_object).2
            = Ok (dict (zip [pystr "F00"; pystr "F01"]
                            [pystr "ANA"; pystr "1"; pystr "0"]))) as ->
      by (vm_compute; reflexivity).
    reflexivity. }
  split; [exact H1|].
  refine (eq_trans (process_game_calls active_object _ _ 5 7 RosterNone (RosterAt 9)
                      sample_buffers H1 H2 sample_buffers_convert) _).
  change (roster_passed RosterNone) with RosterDefault.
  change (roster_passed (RosterAt 9)) with (RosterAt 9).
  fold init. rewrite H3. reflexivity.
Defined.

Lemma process_game_bad_record_witness :
  loaded active_object (mkCDLL default_library_path) active_native ∧
  has_string [xff; x00] ∧
  (dicticize_event_string (buffer_value [xff; x00]) None active_object).2
  = Raise UnicodeDecodeError ∧
  drive_events (process_game 5 RosterNone RosterNone)
               (events_script 7 sample_buffers
                  ++ [Answer 1 []; Answer 0 [xff; x00]; Answer 0 []]) active_object
  = drive_events (process_game 5 RosterNone RosterNone) (events_script 7 sample_buffers)
                 active_object
    ++ [CallProcessGameRecord 7 RosterDefault RosterDefault [x00];
        CallGameiterNext 7;
        EventsPropagate UnicodeDecodeError].
Proof.
  assert (loaded active_object (mkCDLL default_library_path) active_native) as H1
    by (by apply store_loaded).
  assert (7 ≠ 0)%Z as H2 by lia.
  assert (has_string [xff; x00]) as H3 by exact I.
  assert ((dicticize_event_string (buffer_value [xff; x00]) None active_object).2
          = Raise UnicodeDecodeError) as H4 by (vm_compute; reflexivity).
  split; [exact H1|]. split; [exact H3|]. split; [exact H4|].
  exact (process_game_bad_record active_object _ _ 5 7 RosterNone RosterNone
           sample_buffers [xff; x00] _ H1 H2 sample_buffers_convert H3 H4).
Defined.

Lemma convert_data_frame_types_prints_witness :
  let out := convert_data_frame_types _ _ sample_astype (λ _ new, new) (λ _ _, Ok "rows")
               sample_frame [(pystr "INN_CT", "object")] in
  out.1.2 = [CannotConvert (pystr "INN_CT"); Rows "rows"] ∧
  out.2 = Raise TypeError ∧
  (out.2 = Ok tt → out.1.2 = []).
Proof.
  cbv zeta. split; [vm_compute; reflexivity|]. split; [vm_compute; reflexivity|].
  exact (proj1 (convert_data_frame_types_prints sample_astype (λ _ new, new)
                  (λ _ _, Ok "rows") sample_frame [(pystr "INN_CT", "object")])).
Defined.
